(** * GoCache: the LRU and LFU cache engines

    A shallow embedding of [lrucache.LRUCache] (Get, Put, HasKey) and of
    [lfucache.LFUCache] (Get, Put, Delete, Snapshot, Restore, and Persist
    of its snapshot), the properties the specification states about them,
    and further properties of the engines as a caller sees them.

    - Go pointers to [dlinklist.Node] are handles into an explicit heap, so
      that the key index and the linked lists alias the same node, exactly
      as the Go maps and lists share [*Node] values.
    - A call either returns, panics, or is still inside its eviction loop
      when the iteration budget [fuel] of the model is used up.
    - The engines take their lock for the whole of a call: calls are
      modelled one at a time, and the lock itself is not.
    - The counters of package metrics are carried in the engine state.
    - Snapshot is the mapping it copies, and Restore takes the decoded
      mapping. Persist is modelled over a sink and an encoder that are left
      abstract: [json.Marshal] and the decoding in Restore are not
      modelled. *)

From stdpp Require Import gmap strings list fin_maps.
From Stdlib Require Import ZArith Lia.

Open Scope Z_scope.

(** ** Machine integers *)

(** [bytesize.ByteSize] is an unsigned 64-bit integer. *)
Definition u64 (x : Z) : Z := x mod 2 ^ 64.

(** Go's [int] on a 64-bit platform, with two's complement wrap-around. *)
Definition int64 (x : Z) : Z := (x + 2 ^ 63) mod 2 ^ 64 - 2 ^ 63.

Definition max_int : Z := 2 ^ 63 - 1.

(** [len(value)]: the number of bytes of a Go string. *)
Definition len (s : string) : Z := Z.of_nat (String.length s).

(** ** Outcomes of a call *)

Inductive error :=
  | NilDereference   (* a nil or dangling pointer is dereferenced *)
  | EmptyStructure   (* PopTail of an empty list *)
  | NotAMember.      (* RemoveNode of a node that is not in the list *)

(** [OutOfFuel] is only produced by the eviction loops: the loop was still
    running when the iteration budget of the model ended. *)
Inductive result (A : Type) :=
  | Done (a : A)
  | Panic (e : error)
  | OutOfFuel.
Arguments Done {A} a.
Arguments Panic {A} e.
Arguments OutOfFuel {A}.

#[global] Instance result_bind : MBind result := λ A B f r,
  match r with
  | Done a => f a
  | Panic e => Panic e
  | OutOfFuel => OutOfFuel
  end.

(** ** Nodes and the heap *)

Record Node := mkNode { Key : string; Value : string; Freq : Z }.

Abbreviation handle := nat.

Definition set_Value (v : string) (n : Node) : Node :=
  {| Key := Key n; Value := v; Freq := Freq n |}.
Definition set_Freq (f : Z) (n : Node) : Node :=
  {| Key := Key n; Value := Value n; Freq := f |}.

(** Reading through a pointer. *)
Definition deref (heap : gmap handle Node) (p : handle) : result Node :=
  match heap !! p with
  | Some n => Done n
  | None => Panic NilDereference
  end.

(** The byte length of the value of the node behind a pointer, and the
    byte length of the values of all nodes of a key index. *)
Definition weigh (heap : gmap handle Node) (p : handle) : Z :=
  len (default ""%string (Value <$> heap !! p)).

Definition total (heap : gmap handle Node) (index : gmap string handle) : Z :=
  map_fold (λ _ p acc, weigh heap p + acc) 0 index.

(** ** Metrics: the process-wide counters *)

Record Metrics := mkMetrics { Hits : nat; Miss : nat; Adds : nat; Deletes : nat }.

Definition no_metrics : Metrics := mkMetrics 0 0 0 0.

Definition Hits_Inc (m : Metrics) := mkMetrics (S (Hits m)) (Miss m) (Adds m) (Deletes m).
Definition Miss_Inc (m : Metrics) := mkMetrics (Hits m) (S (Miss m)) (Adds m) (Deletes m).
Definition Adds_Inc (m : Metrics) := mkMetrics (Hits m) (Miss m) (S (Adds m)) (Deletes m).
Definition Deletes_Inc (m : Metrics) := mkMetrics (Hits m) (Miss m) (Adds m) (S (Deletes m)).

(** ** The ordered index *)

Module dlinklist.

(** Package dlinklist (the Ordered Index of section 4.1 of the
    specification) is imported by both engines, but its source is missing.
    An index is represented by the sequence of its nodes, head first and
    tail last. *)
Abbreviation DLinkedList := (list handle).

(** Modelled from the spec: dlinklist.NewLinkedList is missing; a new index
    is empty. *)
Definition NewLinkedList : DLinkedList := [].

(** Modelled from the spec: dlinklist.AddNode is missing; it inserts the
    entry unconditionally at the head. *)
Definition AddNode (node : handle) (l : DLinkedList) : DLinkedList := node :: l.

(** Modelled from the spec: dlinklist.RemoveNode is missing; it detaches an
    entry from wherever it sits, and is a caller error if the entry is not a
    member. *)
Definition RemoveNode (node : handle) (l : DLinkedList) : result DLinkedList :=
  if decide (node ∈ l) then Done (filter (λ p, p ≠ node) l) else Panic NotAMember.

(** Modelled from the spec: dlinklist.PopTail is missing; it returns and
    removes the tail entry, failing with EmptyStructure if the index is
    empty. *)
Fixpoint PopTail (l : DLinkedList) : result (handle * DLinkedList) :=
  match l with
  | [] => Panic EmptyStructure
  | [p] => Done (p, [])
  | p :: l' => '(t, r) ← PopTail l'; Done (t, p :: r)
  end.

(** Modelled from the spec: dlinklist.Size is missing; it is the number of
    entries of the index. *)
Definition Size (l : DLinkedList) : Z := Z.of_nat (length l).

End dlinklist.
Import dlinklist.

(** ** The LRU engine *)

Module LRU.

Record LRUCache := mkLRU {
  cache : gmap string handle;
  linklist : DLinkedList;
  capacity : Z;
  size : Z;
  heap : gmap handle Node;   (* the nodes allocated so far *)
  next : handle;             (* the next fresh pointer *)
  metrics : Metrics;
}.

Definition NewCache (capacity : Z) : LRUCache :=
  {| cache := ∅; linklist := NewLinkedList; capacity := capacity; size := 0;
     heap := ∅; next := 0%nat; metrics := no_metrics |}.

Definition set_cache (m : gmap string handle) (c : LRUCache) : LRUCache :=
  mkLRU m (linklist c) (capacity c) (size c) (heap c) (next c) (metrics c).
Definition set_linklist (l : DLinkedList) (c : LRUCache) : LRUCache :=
  mkLRU (cache c) l (capacity c) (size c) (heap c) (next c) (metrics c).
Definition set_size (z : Z) (c : LRUCache) : LRUCache :=
  mkLRU (cache c) (linklist c) (capacity c) z (heap c) (next c) (metrics c).
Definition set_heap (h : gmap handle Node) (c : LRUCache) : LRUCache :=
  mkLRU (cache c) (linklist c) (capacity c) (size c) h (next c) (metrics c).
Definition record (f : Metrics → Metrics) (c : LRUCache) : LRUCache :=
  mkLRU (cache c) (linklist c) (capacity c) (size c) (heap c) (next c) (f (metrics c)).

(** [&dlinklist.Node{...}]: a fresh node. *)
Definition alloc (n : Node) (c : LRUCache) : handle * LRUCache :=
  (next c,
   mkLRU (cache c) (linklist c) (capacity c) (size c)
         (<[next c := n]> (heap c)) (S (next c)) (metrics c)).

Definition Get (c : LRUCache) (key : string) : result (string * bool * LRUCache) :=
  match cache c !! key with
  | Some node =>
      let c := record Hits_Inc c in
      l ← RemoveNode node (linklist c);
      let c := set_linklist (AddNode node l) c in
      n ← deref (heap c) node;
      Done (Value n, true, c)
  | None =>
      let c := record Miss_Inc c in
      Done (""%string, false, c)
  end.

(** The body of the loop of Put: the tail is evicted. *)
Definition evict_body (c : LRUCache) : result LRUCache :=
  let c := record Deletes_Inc c in
  '(tail, l) ← PopTail (linklist c);
  let c := set_linklist l c in
  n ← deref (heap c) tail;
  let c := set_size (u64 (size c - len (Value n))) c in
  let c := set_cache (delete (Key n) (cache c)) c in
  Done c.

(** The loop [for c.size > c.capacity { ... }] of Put. *)
Fixpoint evict (fuel : nat) (c : LRUCache) : result LRUCache :=
  if capacity c <? size c then
    match fuel with
    | O => OutOfFuel
    | S fuel => c ← evict_body c; evict fuel c
    end
  else Done c.

Definition Put (fuel : nat) (c : LRUCache) (key value : string)
  : result (bool * LRUCache) :=
  match cache c !! key with
  | Some node =>
      l ← RemoveNode node (linklist c);
      let c := set_linklist (AddNode node l) c in
      n ← deref (heap c) node;
      let c := set_heap (<[node := set_Value value n]> (heap c)) c in
      Done (false, c)
  | None =>
      let '(node, c) := alloc {| Key := key; Value := value; Freq := 0 |} c in
      let c := set_linklist (AddNode node (linklist c)) c in
      let c := set_cache (<[key := node]> (cache c)) c in
      let c := record Adds_Inc c in
      let c := set_size (u64 (size c + len value)) c in
      c ← evict fuel c;
      Done (true, c)
  end.

Definition HasKey (c : LRUCache) (key : string) : bool :=
  bool_decide (is_Some (cache c !! key)).

(** The states an engine built by [NewCache capacity] can be in: those a
    sequence of completed calls leads to. *)
Inductive reachable (capacity : Z) : LRUCache → Prop :=
  | reach_New : reachable capacity (NewCache capacity)
  | reach_Get c key value ok c' :
      reachable capacity c → Get c key = Done (value, ok, c') →
      reachable capacity c'
  | reach_Put fuel c key value created c' :
      reachable capacity c → Put fuel c key value = Done (created, c') →
      reachable capacity c'.

(** A sequence of Puts, each with the same iteration budget. *)
Fixpoint Puts (fuel : nat) (c : LRUCache) (kvs : list (string * string))
  : result LRUCache :=
  match kvs with
  | [] => Done c
  | (k, v) :: kvs => '(_, c) ← Put fuel c k v; Puts fuel c kvs
  end.

(** The key index and the list hold the same nodes: every indexed node
    is in the list under its own key, and every node of the list is
    indexed by its key. *)
Record linked (c : LRUCache) : Prop := {
  linked_cache : ∀ k p, cache c !! k = Some p →
    p ∈ linklist c ∧ ∃ n, heap c !! p = Some n ∧ Key n = k;
  linked_list : ∀ p, p ∈ linklist c →
    ∃ n, heap c !! p = Some n ∧ cache c !! Key n = Some p;
  linked_NoDup : NoDup (linklist c);
  linked_fresh : ∀ p, is_Some (heap c !! p) → (p < next c)%nat;
}.

(** The byte length of the values that are resident: the sum, over the
    key index, of the length of each entry's current value. *)
Definition resident_bytes (c : LRUCache) : Z := total (heap c) (cache c).

(** The state a run ends in, for the examples below. *)
Definition final (r : result LRUCache) : LRUCache :=
  match r with Done c => c | _ => NewCache 0 end.

End LRU.

(** ** The LFU engine *)

Module LFU.

Record LFUCache := mkLFU {
  size : Z;
  capacity : Z;
  node : gmap string handle;
  freq : gmap Z DLinkedList;
  minFreq : Z;
  heap : gmap handle Node;   (* the nodes allocated so far *)
  next : handle;             (* the next fresh pointer *)
  metrics : Metrics;
}.

Definition NewCache (capacity : Z) : LFUCache :=
  {| size := 0; capacity := capacity; node := ∅; freq := ∅; minFreq := 0;
     heap := ∅; next := 0%nat; metrics := no_metrics |}.

Definition set_size (z : Z) (c : LFUCache) : LFUCache :=
  mkLFU z (capacity c) (node c) (freq c) (minFreq c) (heap c) (next c) (metrics c).
Definition set_node (m : gmap string handle) (c : LFUCache) : LFUCache :=
  mkLFU (size c) (capacity c) m (freq c) (minFreq c) (heap c) (next c) (metrics c).
Definition set_freq (m : gmap Z DLinkedList) (c : LFUCache) : LFUCache :=
  mkLFU (size c) (capacity c) (node c) m (minFreq c) (heap c) (next c) (metrics c).
Definition set_minFreq (z : Z) (c : LFUCache) : LFUCache :=
  mkLFU (size c) (capacity c) (node c) (freq c) z (heap c) (next c) (metrics c).
Definition set_heap (h : gmap handle Node) (c : LFUCache) : LFUCache :=
  mkLFU (size c) (capacity c) (node c) (freq c) (minFreq c) h (next c) (metrics c).
Definition record (f : Metrics → Metrics) (c : LFUCache) : LFUCache :=
  mkLFU (size c) (capacity c) (node c) (freq c) (minFreq c) (heap c) (next c)
        (f (metrics c)).

(** [&dlinklist.Node{...}]: a fresh node. *)
Definition alloc (n : Node) (c : LFUCache) : handle * LFUCache :=
  (next c,
   mkLFU (size c) (capacity c) (node c) (freq c) (minFreq c)
         (<[next c := n]> (heap c)) (S (next c)) (metrics c)).

(** [c.freq[f]] used as a receiver: the map yields nil for a missing
    frequency, and a method call through nil panics. *)
Definition bucket (c : LFUCache) (f : Z) : result DLinkedList :=
  match freq c !! f with
  | Some l => Done l
  | None => Panic NilDereference
  end.

(** [delete(c.freq, f); c.minFreq++] *)
Definition drop_bucket (f : Z) (c : LFUCache) : LFUCache :=
  set_minFreq (int64 (minFreq c + 1)) (set_freq (delete f (freq c)) c).

(** [if _, ok := c.freq[f]; !ok { c.freq[f] = dlinklist.NewLinkedList() }] *)
Definition ensure_bucket (f : Z) (c : LFUCache) : LFUCache :=
  match freq c !! f with
  | Some _ => c
  | None => set_freq (<[f := NewLinkedList]> (freq c)) c
  end.

(** [c.freq[f].AddNode(p)] *)
Definition add_to_bucket (f : Z) (p : handle) (c : LFUCache) : result LFUCache :=
  l ← bucket c f;
  Done (set_freq (<[f := AddNode p l]> (freq c)) c).

Definition update (p : handle) (c : LFUCache) : result LFUCache :=
  n ← deref (heap c) p;
  let f := Freq n in
  l ← bucket c f;
  l ← RemoveNode p l;
  let c := set_freq (<[f := l]> (freq c)) c in
  c ← (if decide (minFreq c = f) then
         v ← bucket c f;
         if Size v =? 0 then Done (drop_bucket f c) else Done c
       else Done c);
  let n := set_Freq (int64 (Freq n + 1)) n in
  let c := set_heap (<[p := n]> (heap c)) c in
  let f := Freq n in
  let c := ensure_bucket f c in
  add_to_bucket f p c.

Definition Get (c : LFUCache) (key : string) : result (string * bool * LFUCache) :=
  match node c !! key with
  | None =>
      let c := record Miss_Inc c in
      Done (""%string, false, c)
  | Some p =>
      let c := record Hits_Inc c in
      c ← update p c;
      n ← deref (heap c) p;
      Done (Value n, true, c)
  end.

(** The body of the loop of Put: the tail of the bucket at [minFreq] is
    evicted, or [minFreq] advances when there is no such node. *)
Definition evict_body (c : LFUCache) : result LFUCache :=
  let minList := freq c !! minFreq c in
  let c := record Deletes_Inc c in
  match minList with
  | Some l =>
      if Size l =? 0 then Done (drop_bucket (minFreq c) c)
      else
        '(p, l) ← PopTail l;
        let c := set_freq (<[minFreq c := l]> (freq c)) c in
        n ← deref (heap c) p;
        let f := Freq n in
        c ← (if decide (minFreq c = f) then
               v ← bucket c (minFreq c);
               if Size v =? 0 then Done (drop_bucket f c) else Done c
             else Done c);
        let c := set_size (u64 (size c - len (Value n))) c in
        let c := set_node (delete (Key n) (node c)) c in
        Done c
  | None => Done (drop_bucket (minFreq c) c)
  end.

(** The loop [for c.size > c.capacity { ... }] of Put. *)
Fixpoint evict (fuel : nat) (c : LFUCache) : result LFUCache :=
  if capacity c <? size c then
    match fuel with
    | O => OutOfFuel
    | S fuel => c ← evict_body c; evict fuel c
    end
  else Done c.

Definition Put (fuel : nat) (c : LFUCache) (key value : string)
  : result (bool * LFUCache) :=
  if capacity c =? 0 then Done (false, c)
  else
    match node c !! key with
    | Some p =>
        let c := record Hits_Inc c in
        c ← update p c;
        n ← deref (heap c) p;
        let c := set_heap (<[p := set_Value value n]> (heap c)) c in
        Done (false, c)
    | None =>
        let c := set_size (u64 (size c + len value)) c in
        c ← evict fuel c;
        let c := record Adds_Inc c in
        let '(p, c) := alloc {| Key := key; Value := value; Freq := 1 |} c in
        let c := set_node (<[key := p]> (node c)) c in
        let c := ensure_bucket 1 c in
        c ← add_to_bucket 1 p c;
        let c := set_minFreq 1 c in
        Done (true, c)
    end.

Definition Delete (c : LFUCache) (key : string) : result (bool * LFUCache) :=
  match node c !! key with
  | None => Done (false, c)
  | Some p =>
      n ← deref (heap c) p;
      let f := Freq n in
      c ← (if decide (minFreq c = f) then
             v ← bucket c (minFreq c);
             if Size v =? 0 then Done (drop_bucket f (record Deletes_Inc c))
             else Done c
           else Done c);
      let c := set_node (delete key (node c)) c in
      Done (true, c)
  end.

(** Snapshot copies the key to value mapping out of the engine. *)
Definition Snapshot (c : LFUCache) : gmap string string :=
  (λ p, default ""%string (Value <$> heap c !! p)) <$> node c.

(** Restore puts every pair of the decoded mapping [o]. Go ranges over a
    map in an unspecified order: [o] is listed in the order of that
    iteration. *)
Fixpoint Restore (fuel : nat) (c : LFUCache) (o : list (string * string))
  : result LFUCache :=
  match o with
  | [] => Done c
  | (k, v) :: o => '(_, c) ← Put fuel c k v; Restore fuel c o
  end.

(** A call of one of the mutating operations, and its effect on the engine. *)
Inductive call :=
  | CallGet (key : string)
  | CallPut (key value : string)
  | CallDelete (key : string).

Definition exec (fuel : nat) (c : LFUCache) (op : call) : result LFUCache :=
  match op with
  | CallGet key => '(_, _, c) ← Get c key; Done c
  | CallPut key value => '(_, c) ← Put fuel c key value; Done c
  | CallDelete key => '(_, c) ← Delete c key; Done c
  end.

Fixpoint run (fuel : nat) (c : LFUCache) (ops : list call) : result LFUCache :=
  match ops with
  | [] => Done c
  | op :: ops => c ← exec fuel c op; run fuel c ops
  end.

(** The states an engine built by [NewCache capacity] can be in: those a
    sequence of completed calls leads to. *)
Inductive reachable (capacity : Z) : LFUCache → Prop :=
  | reach_New : reachable capacity (NewCache capacity)
  | reach_exec fuel c op c' :
      reachable capacity c → exec fuel c op = Done c' → reachable capacity c'.

(** A sequence of Puts, each with the same iteration budget. *)
Definition Puts (fuel : nat) (c : LFUCache) (kvs : list (string * string))
  : result LFUCache :=
  run fuel c (map (λ kv, CallPut kv.1 kv.2) kvs).

(** The state a run ends in, for the examples below. *)
Definition final (r : result LFUCache) : LFUCache :=
  match r with Done c => c | _ => NewCache 0 end.

(** The byte length of the values that are resident: the sum, over the
    key index, of the length of each entry's current value. *)
Definition resident_bytes (c : LFUCache) : Z := total (heap c) (node c).

(** The key index points into the buckets: an indexed node sits in the
    bucket of its frequency, every node of a bucket carries the frequency
    of that bucket, and no bucket lists a node twice. Nodes that Delete
    removed from the index only are still covered by the last two. *)
Record linked (c : LFUCache) : Prop := {
  linked_node : ∀ k p, node c !! k = Some p →
    ∃ n, heap c !! p = Some n ∧ Key n = k ∧
         ∃ l, freq c !! Freq n = Some l ∧ p ∈ l;
  linked_bucket : ∀ f l p, freq c !! f = Some l → p ∈ l →
    ∃ n, heap c !! p = Some n ∧ Freq n = f;
  linked_NoDup : ∀ f l, freq c !! f = Some l → NoDup l;
  linked_fresh : ∀ p, is_Some (heap c !! p) → (p < next c)%nat;
}.

(** The bookkeeping of the minimum: frequencies start at 1, no bucket lies
    below [minFreq], and the bucket at [minFreq] exists and has a node as
    soon as there is any bucket. *)
Record ordered (c : LFUCache) : Prop := {
  ordered_keys : ∀ f l, freq c !! f = Some l → 1 ≤ f ∧ minFreq c ≤ f;
  ordered_min : freq c ≠ ∅ → ∃ l, freq c !! minFreq c = Some l ∧ l ≠ [];
}.

(** No frequency counter of the engine is about to overflow. *)
Definition below_max (c : LFUCache) : Prop :=
  ∀ p n, heap c !! p = Some n → Freq n < max_int.

(** *** The structural invariant, part by part *)

(** Every entry of the key index appears in exactly the bucket matching
    its current frequency. *)
Definition in_own_bucket (c : LFUCache) : Prop :=
  map_Forall (λ _ p,
    ∃ n, heap c !! p = Some n ∧ is_Some (freq c !! Freq n) ∧
         map_Forall (λ f l, p ∈ l ↔ f = Freq n) (freq c)) (node c).

(** No bucket present in [freq] is empty. *)
Definition no_empty_bucket (c : LFUCache) : Prop :=
  map_Forall (λ _ l, l ≠ []) (freq c).

(** Whenever [freq] is non-empty, [minFreq] is the smallest key in it. *)
Definition min_is_least (c : LFUCache) : Prop :=
  freq c ≠ ∅ →
  is_Some (freq c !! minFreq c) ∧ map_Forall (λ f _, minFreq c ≤ f) (freq c).

(** The bucket at [minFreq], when there is one, is not empty. *)
Definition min_bucket_inhabited (c : LFUCache) : Prop :=
  ∀ l, freq c !! minFreq c = Some l → l ≠ [].

Definition structural (c : LFUCache) : Prop :=
  in_own_bucket c ∧ no_empty_bucket c ∧ min_is_least c.

End LFU.

(** ** The states the calls lead to *)

(** The LRU engine after the head of Put on a new key, before the
    eviction loop: the new node is allocated, heads the list, is indexed
    and counted. *)
Definition lru_inserted (c : LRU.LRUCache) (key value : string) : LRU.LRUCache :=
  LRU.mkLRU (<[key := LRU.next c]> (LRU.cache c))
    (LRU.next c :: LRU.linklist c)
    (LRU.capacity c)
    (u64 (LRU.size c + len value))
    (<[LRU.next c := {| Key := key; Value := value; Freq := 0 |}]> (LRU.heap c))
    (S (LRU.next c)) (Adds_Inc (LRU.metrics c)).

(** The LRU engine after one turn of the eviction loop that popped the
    node holding [n], leaving [r] in the list. *)
Definition lru_evicted (c : LRU.LRUCache) (r : DLinkedList) (n : Node)
  : LRU.LRUCache :=
  LRU.mkLRU (delete (Key n) (LRU.cache c)) r (LRU.capacity c)
    (u64 (LRU.size c - len (Value n))) (LRU.heap c) (LRU.next c)
    (Deletes_Inc (LRU.metrics c)).

(** The buckets after [update] moved a node out of bucket [f]: the old
    bucket without the node, or no bucket [f] at all when that emptied the
    minimum bucket. *)
Definition lfu_left_behind (c : LFU.LFUCache) (p : handle) (f : Z) (l : DLinkedList)
  : gmap Z DLinkedList :=
  if bool_decide (LFU.minFreq c = f ∧ filter (λ q, q ≠ p) l = [])
  then delete f (LFU.freq c)
  else <[f := filter (λ q, q ≠ p) l]> (LFU.freq c).

(** The engine after [update] touched node [p], which held [n] and sat in
    bucket [l] of frequency [Freq n]. *)
Definition lfu_touched (c : LFU.LFUCache) (p : handle) (n : Node) (l : DLinkedList)
  : LFU.LFUCache :=
  LFU.mkLFU (LFU.size c) (LFU.capacity c) (LFU.node c)
    (<[int64 (Freq n + 1) :=
         p :: default [] (lfu_left_behind c p (Freq n) l !! int64 (Freq n + 1))]>
       (lfu_left_behind c p (Freq n) l))
    (if bool_decide (LFU.minFreq c = Freq n ∧ filter (λ q, q ≠ p) l = [])
     then int64 (LFU.minFreq c + 1) else LFU.minFreq c)
    (<[p := set_Freq (int64 (Freq n + 1)) n]> (LFU.heap c))
    (LFU.next c) (LFU.metrics c).
Arguments lfu_touched : simpl never.

(** The engine after one turn of the LFU eviction loop that found no node
    at [minFreq]: only [minFreq] advances (and the delete counter). *)
Definition lfu_skipped (c : LFU.LFUCache) : LFU.LFUCache :=
  LFU.drop_bucket (LFU.minFreq c) (LFU.record Deletes_Inc c).

(** The engine after one turn of the LFU eviction loop that popped the
    node holding [n] off the bucket at [minFreq], leaving [r] in it. *)
Definition lfu_evicted (c : LFU.LFUCache) (r : DLinkedList) (n : Node)
  : LFU.LFUCache :=
  LFU.mkLFU (u64 (LFU.size c - len (Value n))) (LFU.capacity c)
    (delete (Key n) (LFU.node c))
    (if decide (r = []) then delete (LFU.minFreq c) (LFU.freq c)
     else <[LFU.minFreq c := r]> (LFU.freq c))
    (if decide (r = []) then int64 (LFU.minFreq c + 1) else LFU.minFreq c)
    (LFU.heap c) (LFU.next c) (Deletes_Inc (LFU.metrics c)).

(** The engine after the tail of Put: the new node enters the key index
    and becomes the head of bucket 1. *)
Definition lfu_inserted (c : LFU.LFUCache) (key value : string) : LFU.LFUCache :=
  LFU.mkLFU (LFU.size c) (LFU.capacity c)
    (<[key := LFU.next c]> (LFU.node c))
    (<[1 := LFU.next c :: default [] (LFU.freq c !! 1)]> (LFU.freq c))
    1
    (<[LFU.next c := {| Key := key; Value := value; Freq := 1 |}]> (LFU.heap c))
    (S (LFU.next c)) (Adds_Inc (LFU.metrics c)).

(** The loop of the LFU Put can get from engine [c] to engine [c'] in some
    number of turns. *)
Definition lfu_turns : LFU.LFUCache → LFU.LFUCache → Prop :=
  rtc (λ c c', LFU.capacity c < LFU.size c ∧ LFU.evict_body c = Done c').

(** ** Invariants *)

(** The size field of the LRU engine is the byte total of the resident
    values, which has not overflowed. *)
Definition lru_counted (c : LRU.LRUCache) : Prop :=
  LRU.size c = LRU.resident_bytes c ∧ LRU.size c < 2 ^ 64.

(** Every resident value of the LRU engine has the byte length that
    [lenOf] gives for its key. *)
Definition lru_lengths (lenOf : string → Z) (c : LRU.LRUCache) : Prop :=
  ∀ k p n, LRU.cache c !! k = Some p → LRU.heap c !! p = Some n →
           len (Value n) = lenOf k.

(** Every bucket has a frequency of at least 1. *)
Definition lfu_positive (c : LFU.LFUCache) : Prop :=
  ∀ f l, LFU.freq c !! f = Some l → 1 ≤ f.

(** [minFreq] and the frequencies of the buckets are ints. *)
Definition lfu_ranged (c : LFU.LFUCache) : Prop :=
  - 2 ^ 63 ≤ LFU.minFreq c ∧
  ∀ f l, LFU.freq c !! f = Some l → f ≤ max_int.

(** No bucket lies below [minFreq]. *)
Definition lfu_floor (c : LFU.LFUCache) : Prop :=
  ∀ f l, LFU.freq c !! f = Some l → LFU.minFreq c ≤ f.

(** No bucket of the LFU engine holds a node that is not indexed (true as
    long as Delete has not been called). *)
Definition lfu_tight (c : LFU.LFUCache) : Prop :=
  ∀ f l p, LFU.freq c !! f = Some l → p ∈ l →
           ∃ n, LFU.heap c !! p = Some n ∧ LFU.node c !! Key n = Some p.

(** The size field of the LFU engine is the byte total of the resident
    values plus [pending] bytes (those of the value Put is about to
    insert), and has not overflowed. *)
Definition lfu_counted (pending : Z) (c : LFU.LFUCache) : Prop :=
  LFU.size c = LFU.resident_bytes c + pending ∧ LFU.size c < 2 ^ 64.

(** The size field of the LRU engine bounds the byte total of the resident
    values in the sense of [R] (at most, or equal), and has not
    overflowed. *)
Definition lru_bounded (R : Z → Z → Prop) (c : LRU.LRUCache) : Prop :=
  R (LRU.resident_bytes c) (LRU.size c) ∧ LRU.size c < 2 ^ 64.

(** The same for the LFU engine, with [pending] bytes counted ahead of the
    entry Put is about to insert. *)
Definition lfu_bounded (R : Z → Z → Prop) (pending : Z) (c : LFU.LFUCache) : Prop :=
  R (LFU.resident_bytes c + pending) (LFU.size c) ∧ LFU.size c < 2 ^ 64.

(** Every resident value of the LFU engine has the byte length that
    [lenOf] gives for its key. *)
Definition lfu_lengths (lenOf : string → Z) (c : LFU.LFUCache) : Prop :=
  ∀ k p n, LFU.node c !! k = Some p → LFU.heap c !! p = Some n →
           len (Value n) = lenOf k.

(** The engine holds value [v] under key [k]. *)
Definition lfu_holds (c : LFU.LFUCache) (k v : string) : Prop :=
  ∃ p n, LFU.node c !! k = Some p ∧ LFU.heap c !! p = Some n ∧ Value n = v.

(** ** The vocabulary of the claims *)

(** What a sequence of Puts does to the values it finds, on the LRU engine:
    every Put that finds its key puts a value whose byte length is in
    relation [R] with the byte length of the value the key holds at that
    moment ([R] is "at most" when no Put lengthens a resident value, and
    equality when no Put changes the length of one), and the bytes of every
    entry that is created do not overflow the size field. *)
Fixpoint lru_overwrites (R : Z → Z → Prop) (fuel : nat) (c : LRU.LRUCache)
    (kvs : list (string * string)) : Prop :=
  match kvs with
  | [] => True
  | (k, v) :: kvs =>
      match LRU.cache c !! k with
      | Some p => R (len v) (weigh (LRU.heap c) p)
      | None => LRU.size c + len v < 2 ^ 64
      end ∧
      ∀ created c', LRU.Put fuel c k v = Done (created, c') →
                    lru_overwrites R fuel c' kvs
  end.

(** The same on the LFU engine. *)
Fixpoint lfu_overwrites (R : Z → Z → Prop) (fuel : nat) (c : LFU.LFUCache)
    (kvs : list (string * string)) : Prop :=
  match kvs with
  | [] => True
  | (k, v) :: kvs =>
      match LFU.node c !! k with
      | Some p => R (len v) (weigh (LFU.heap c) p)
      | None => LFU.size c + len v < 2 ^ 64
      end ∧
      ∀ created c', LFU.Put fuel c k v = Done (created, c') →
                    lfu_overwrites R fuel c' kvs
  end.

(** Exactly one of the hit and miss counters went up by one. *)
Definition one_of_hit_miss (m m' : Metrics) : Prop :=
  (Hits m' = S (Hits m) ∧ Miss m' = Miss m) ∨
  (Hits m' = Hits m ∧ Miss m' = S (Miss m)).

(** The byte length of the values of a decoded snapshot. *)
Definition bytes_of (o : list (string * string)) : Z :=
  foldr (λ kv acc, len kv.2 + acc) 0 o.

(** ** What a caller observes *)

(** The keys of the LRU engine in the order of its list: the most recently
    used key first, the next victim last. *)
Definition lru_keys (c : LRU.LRUCache) : list string :=
  omap (λ p, Key <$> LRU.heap c !! p) (LRU.linklist c).

(** The value the LRU engine holds under each of its keys. *)
Definition lru_contents (c : LRU.LRUCache) : gmap string string :=
  (λ p, default ""%string (Value <$> LRU.heap c !! p)) <$> LRU.cache c.

(** The frequency counter of the entry the LFU engine holds under a key. *)
Definition lfu_frequency (c : LFU.LFUCache) (k : string) : option Z :=
  p ← LFU.node c !! k; Freq <$> LFU.heap c !! p.

(** A sequence of calls without a Delete. *)
Definition no_Delete (ops : list LFU.call) : Prop :=
  Forall (λ op, match op with LFU.CallDelete _ => False | _ => True end) ops.

(** ** Persisting a snapshot *)

Module raft.

(** [raft.SnapshotSink], as far as Persist uses it. A method may change the
    sink, and returns an error or nil. *)
Class SnapshotSink (E S : Type) := {
  Write : list Byte.byte → S → option E * S;
  Close : S → option E * S;
  Cancel : S → option E * S;
}.

End raft.

Module fsmSnapshot.

Section Persist.
Context {E S : Type} {sink_methods : raft.SnapshotSink E S}.

(** [json.Marshal], applied to the store: the encoded bytes, or an error. *)
Variable Marshal : gmap string string → E + list Byte.byte.

Definition Persist (store : gmap string string) (sink : S) : option E * S :=
  let '(err, sink) :=
    match Marshal store with
    | inl err => (Some err, sink)
    | inr b =>
        match raft.Write b sink with
        | (Some err, sink) => (Some err, sink)
        | (None, sink) => raft.Close sink
        end
    end in
  match err with
  | Some _ => (err, (raft.Cancel sink).2)
  | None => (err, sink)
  end.

End Persist.

End fsmSnapshot.

(** The calls a sink has received. *)
Inductive sink_call :=
  | Written (b : list Byte.byte)
  | Closed
  | Cancelled.

(** A sink that answers as [sink] does and keeps the log of its calls. *)
Definition recording {E S : Type} (sink : raft.SnapshotSink E S)
  : raft.SnapshotSink E (list sink_call * S) :=
  {| raft.Write b s := let '(e, s') := raft.Write b s.2 in (e, (s.1 ++ [Written b], s'));
     raft.Close s := let '(e, s') := raft.Close s.2 in (e, (s.1 ++ [Closed], s'));
     raft.Cancel s := let '(e, s') := raft.Cancel s.2 in (e, (s.1 ++ [Cancelled], s')) |}.

(** ** Example runs *)

(** The LRU engine of capacity 5 after Put("a", "x"). *)
Definition lru_a : LRU.LRUCache :=
  Eval vm_compute in LRU.final (LRU.Puts 1 (LRU.NewCache 5) [("a", "x")]%string).

(** The LFU engine of capacity 5 after Put("a", "x"). *)
Definition lfu_a : LFU.LFUCache :=
  Eval vm_compute in
    LFU.final (LFU.run 1 (LFU.NewCache 5) [LFU.CallPut "a" "x"]).

(** The LFU engine of capacity 2 after Put("a", "x"), Put("b", "x") and
    Get("a"): A has frequency 2 and B frequency 1. *)
Definition lfu_ab_a : LFU.LFUCache :=
  Eval vm_compute in
    LFU.final (LFU.run 1 (LFU.NewCache 2)
                 [LFU.CallPut "a" "x"; LFU.CallPut "b" "x"; LFU.CallGet "a"]).

(** The same engine after one more Get("a"): A has frequency 3. *)
Definition lfu_ab_aa : LFU.LFUCache :=
  Eval vm_compute in LFU.final (LFU.exec 0 lfu_ab_a (LFU.CallGet "a")).

(** The engine [lfu_ab_a] after Put("c", "x"), which evicts B. *)
Definition lfu_ac : LFU.LFUCache :=
  Eval vm_compute in LFU.final (LFU.exec 1 lfu_ab_a (LFU.CallPut "c" "x")).

(** The calls that leave a deleted node of key A behind in bucket 1 of an
    LFU engine of capacity 3: A is put, deleted, put again and read (so the
    new A has frequency 2), then B is put (frequency 1). *)
Definition lfu_stale_calls : list LFU.call :=
  [LFU.CallPut "a" "x"; LFU.CallDelete "a"; LFU.CallPut "a" "x";
   LFU.CallGet "a"; LFU.CallPut "b" "x"].

Definition lfu_stale : LFU.LFUCache :=
  Eval vm_compute in LFU.final (LFU.run 1 (LFU.NewCache 3) lfu_stale_calls).

(** The LFU engine of capacity 2 after Put("a", "x"), Put("b", "x") and
    Put("a", "xx"): it holds three bytes of values. *)
Definition lfu_grown_calls : list LFU.call :=
  [LFU.CallPut "a" "x"; LFU.CallPut "b" "x"; LFU.CallPut "a" "xx"].

Definition lfu_grown : LFU.LFUCache :=
  Eval vm_compute in LFU.final (LFU.run 0 (LFU.NewCache 2) lfu_grown_calls).

(** The LRU engine of capacity 5 after Put("a", "x") and Put("b", "xxx"). *)
Definition lru_ab : LRU.LRUCache :=
  Eval vm_compute in
    LRU.final (LRU.Puts 1 (LRU.NewCache 5) [("a", "x"); ("b", "xxx")]%string).

(** Three Puts that fit an engine of capacity 5 only after an eviction. *)
Definition abc_puts : list (string * string) :=
  [("a", "x"); ("b", "xxx"); ("c", "xx")]%string.

Definition lru_abc : LRU.LRUCache :=
  Eval vm_compute in LRU.final (LRU.Puts 1 (LRU.NewCache 5) abc_puts).

Definition lfu_abc : LFU.LFUCache :=
  Eval vm_compute in LFU.final (LFU.Puts 1 (LFU.NewCache 5) abc_puts).

(** Three Puts on an engine of capacity 5, the last of which overwrites the
    three bytes of A with one byte. *)
Definition shrink_puts : list (string * string) :=
  [("a", "xxx"); ("b", "xx"); ("a", "x")]%string.

Definition lru_shrunk : LRU.LRUCache :=
  Eval vm_compute in LRU.final (LRU.Puts 1 (LRU.NewCache 5) shrink_puts).

Definition lfu_shrunk : LFU.LFUCache :=
  Eval vm_compute in LFU.final (LFU.Puts 1 (LFU.NewCache 5) shrink_puts).

(** A one-byte value that is not valid UTF-8, and the three bytes of
    U+FFFD, the replacement character. *)
Definition invalid_utf8 : string := String (Ascii.ascii_of_nat 255) "".

Definition replacement_char : string :=
  String (Ascii.ascii_of_nat 239)
    (String (Ascii.ascii_of_nat 191) (String (Ascii.ascii_of_nat 189) "")).

(** One Put of a sequence of Puts on a concrete engine: its condition is
    computed, and so is the engine it leads to. *)
Ltac overwrites_step :=
  split;
  [ vm_compute; first [reflexivity | discriminate]
  | let HP := fresh "HP" in
    intros ? ? HP; vm_compute in HP; injection HP as <- <- ].

(** An LFU engine whose only entry has been read so often that its
    frequency is the largest int. *)
Definition lfu_saturated : LFU.LFUCache :=
  LFU.mkLFU 1 5 {[ "a"%string := 0%nat ]} {[ max_int := [0%nat] ]} max_int
    {[ 0%nat := {| Key := "a"; Value := "x"; Freq := max_int |} ]} 1%nat
    no_metrics.

(** * Properties *)

(** ** Machine integers and the ordered index *)

Lemma u64_range x : 0 ≤ u64 x < 2 ^ 64.
Proof. unfold u64. apply Z.mod_pos_bound. lia. Qed.

Lemma u64_small x : 0 ≤ x < 2 ^ 64 → u64 x = x.
Proof. intros H. unfold u64. by apply Z.mod_small. Qed.

Lemma int64_small x : - 2 ^ 63 ≤ x ≤ max_int → int64 x = x.
Proof.
  unfold int64, max_int. intros H.
  rewrite Z.mod_small; lia.
Qed.

Lemma int64_range x : - 2 ^ 63 ≤ int64 x ≤ max_int.
Proof.
  unfold int64, max_int.
  pose proof (Z.mod_pos_bound (x + 2 ^ 63) (2 ^ 64) ltac:(lia)) as B.
  assert (H64 : 2 ^ 64 = 2 * 2 ^ 63) by reflexivity. lia.
Qed.

Lemma int64_succ_ne x : int64 (x + 1) ≠ x.
Proof.
  unfold int64. intros H.
  assert (E : (x + 1 + 2 ^ 63) mod 2 ^ 64 = x + 2 ^ 63) by lia.
  pose proof (Z.mod_pos_bound (x + 1 + 2 ^ 63) (2 ^ 64) ltac:(lia)) as B.
  rewrite (Z.mod_eq _ (2 ^ 64)) in E by lia.
  assert (2 ^ 64 * ((x + 1 + 2 ^ 63) / 2 ^ 64) = 1) as E1 by lia.
  assert (H64 : 2 ^ 64 = 18446744073709551616) by reflexivity.
  lia.
Qed.

Lemma len_nonneg s : 0 ≤ len s.
Proof. unfold len. lia. Qed.

Lemma PopTail_snoc (l : DLinkedList) t : PopTail (l ++ [t]) = Done (t, l).
Proof.
  induction l as [|p l IH]; [done|].
  change ((p :: l) ++ [t]) with (p :: (l ++ [t])).
  cbn [PopTail]. rewrite IH.
  destruct (l ++ [t]) eqn:E; [by destruct l|done].
Qed.

Lemma PopTail_Done (l : DLinkedList) t r : PopTail l = Done (t, r) → l = r ++ [t].
Proof.
  destruct (decide (l = [])) as [->|Hne]; [done|].
  destruct (exists_last Hne) as (r' & t' & ->).
  rewrite PopTail_snoc. by intros [= -> ->].
Qed.

Lemma PopTail_fuel (l : DLinkedList) : PopTail l ≠ OutOfFuel.
Proof.
  destruct (decide (l = [])) as [->|Hne]; [done|].
  destruct (exists_last Hne) as (r' & t' & ->).
  by rewrite PopTail_snoc.
Qed.

Lemma RemoveNode_member p (l : DLinkedList) :
  p ∈ l → RemoveNode p l = Done (filter (λ q, q ≠ p) l).
Proof. intros H. unfold RemoveNode. by rewrite decide_True. Qed.

Lemma filter_ne_NoDup p (l : list handle) : NoDup l → NoDup (filter (λ q, q ≠ p) l).
Proof. apply NoDup_filter. Qed.

Lemma filter_ne_elem p q (l : list handle) : q ∈ filter (λ q, q ≠ p) l ↔ q ≠ p ∧ q ∈ l.
Proof. by rewrite list_elem_of_filter. Qed.

Lemma Size_0 (l : DLinkedList) : (Size l =? 0) = bool_decide (l = []).
Proof. by destruct l. Qed.

(** ** Byte totals *)

Lemma weigh_nonneg heap p : 0 ≤ weigh heap p.
Proof. apply len_nonneg. Qed.

Lemma weigh_insert_eq heap p n : weigh (<[p := n]> heap) p = len (Value n).
Proof. unfold weigh. by rewrite lookup_insert_eq. Qed.

Lemma weigh_insert_ne heap p q n : p ≠ q → weigh (<[p := n]> heap) q = weigh heap q.
Proof. intros H. unfold weigh. by rewrite lookup_insert_ne. Qed.

Lemma weigh_Some heap p n : heap !! p = Some n → weigh heap p = len (Value n).
Proof. intros H. unfold weigh. by rewrite H. Qed.

Lemma total_empty heap : total heap ∅ = 0.
Proof. apply map_fold_empty. Qed.

Lemma total_insert heap index k p :
  index !! k = None → total heap (<[k := p]> index) = weigh heap p + total heap index.
Proof.
  intros Hk. unfold total. rewrite map_fold_insert_L; [done| |done].
  intros. lia.
Qed.

Lemma total_delete heap index k p :
  index !! k = Some p → total heap index = weigh heap p + total heap (delete k index).
Proof.
  intros Hk. unfold total. rewrite (map_fold_delete_L _ _ k p); [done| |done].
  intros. lia.
Qed.

Lemma total_nonneg heap index : 0 ≤ total heap index.
Proof.
  induction index as [|k p index Hk IH] using map_ind.
  - by rewrite total_empty.
  - rewrite total_insert by done. pose proof (weigh_nonneg heap p). lia.
Qed.

(** The total only depends on the nodes the index points to. *)
Lemma total_ext heap heap' index :
  (∀ k p, index !! k = Some p → weigh heap' p = weigh heap p) →
  total heap' index = total heap index.
Proof.
  induction index as [|k p index Hk IH] using map_ind; intros Hw.
  - by rewrite !total_empty.
  - rewrite !total_insert by done. rewrite IH.
    + rewrite (Hw k p); [done|]. by rewrite lookup_insert_eq.
    + intros k' p' Hk'. apply (Hw k'). rewrite lookup_insert_ne; [done|].
      intros ->. congruence.
Qed.

Lemma total_ge heap index k p : index !! k = Some p → weigh heap p ≤ total heap index.
Proof.
  intros Hk. rewrite (total_delete _ _ _ _ Hk).
  pose proof (total_nonneg heap (delete k index)). lia.
Qed.

Lemma bytes_of_Permutation o1 o2 : o1 ≡ₚ o2 → bytes_of o1 = bytes_of o2.
Proof.
  induction 1 as [|x l1 l2 _ IH|x y l|l1 l2 l3 _ IH1 _ IH2]; simpl in *; lia.
Qed.

Lemma bytes_of_nonneg o : 0 ≤ bytes_of o.
Proof.
  induction o as [|[k v] o IH]; simpl; [done|].
  pose proof (len_nonneg v). lia.
Qed.

(** ** The LRU engine: the key index and the list stay linked *)

Lemma lru_linked_New capacity : LRU.linked (LRU.NewCache capacity).
Proof.
  split; simpl.
  - intros k p H. by rewrite lookup_empty in H.
  - intros p H. by apply not_elem_of_nil in H.
  - constructor.
  - intros p [n H]. by rewrite lookup_empty in H.
Qed.

(** Moving a member to the head keeps the list linked to the index. *)
Lemma lru_linked_touch c p :
  LRU.linked c → p ∈ LRU.linklist c →
  LRU.linked (LRU.set_linklist (AddNode p (filter (λ q, q ≠ p) (LRU.linklist c))) c).
Proof.
  intros [Hc Hl Hd Hf] Hp. split; simpl; unfold AddNode.
  - intros k q Hq. destruct (Hc k q Hq) as [Hin Hn]. split; [|done].
    destruct (decide (q = p)) as [->|Hne]; [left|right].
    by apply filter_ne_elem.
  - intros q Hq. apply Hl.
    apply elem_of_cons in Hq as [->|Hq]; [done|].
    by apply filter_ne_elem in Hq as [_ ?].
  - constructor; [|by apply filter_ne_NoDup].
    rewrite filter_ne_elem. by intros [? _].
  - done.
Qed.

Lemma lru_linked_Get c key value ok c' :
  LRU.linked c → LRU.Get c key = Done (value, ok, c') → LRU.linked c'.
Proof.
  intros Hwf. unfold LRU.Get.
  destruct (LRU.cache c !! key) as [p|] eqn:Hk; simpl.
  - destruct (LRU.linked_cache _ Hwf _ _ Hk) as [Hin (n & Hn & _)].
    rewrite (RemoveNode_member _ _ Hin). simpl.
    unfold deref. simpl. rewrite Hn. simpl. intros [= _ _ <-].
    by destruct (lru_linked_touch c p Hwf Hin).
  - intros [= _ _ <-]. by destruct Hwf.
Qed.

(** A turn of the LRU loop on a linked engine pops the last node of the
    list. *)
Lemma lru_evict_body_Done c r t :
  LRU.linked c → LRU.linklist c = r ++ [t] →
  ∃ n, LRU.heap c !! t = Some n ∧ LRU.cache c !! Key n = Some t ∧
       LRU.evict_body c = Done (lru_evicted c r n).
Proof.
  intros Hlk Hl.
  assert (Ht : t ∈ LRU.linklist c).
  { rewrite Hl. apply elem_of_app. right. by apply list_elem_of_singleton. }
  destruct (LRU.linked_list _ Hlk t Ht) as (n & Hn & Hkn).
  exists n. split; [done|]. split; [done|].
  unfold LRU.evict_body. simpl. rewrite Hl, PopTail_snoc. simpl.
  unfold deref. by rewrite Hn.
Qed.

(** One eviction keeps the list linked to the index: the tail leaves both. *)
Lemma lru_linked_evict_body c c' :
  LRU.linked c → LRU.evict_body c = Done c' → LRU.linked c'.
Proof.
  intros Hwf. unfold LRU.evict_body. simpl.
  destruct (PopTail (LRU.linklist c)) as [[t r]| |] eqn:Hpop; simpl; try done.
  apply PopTail_Done in Hpop.
  destruct Hwf as [Hc Hl Hd Hf].
  assert (Ht : t ∈ LRU.linklist c).
  { rewrite Hpop. apply elem_of_app. right. apply list_elem_of_singleton. done. }
  destruct (Hl t Ht) as (n & Hn & Hkn).
  unfold deref. simpl. rewrite Hn. simpl. intros [= <-].
  rewrite Hpop in Hd. apply NoDup_app in Hd as (Hdr & Hnt & _).
  assert (Hr : ∀ q, q ∈ r → q ∈ LRU.linklist c).
  { intros q Hq. rewrite Hpop. apply elem_of_app. by left. }
  split; simpl.
  - intros k q Hq. apply lookup_delete_Some in Hq as [Hne Hq].
    destruct (Hc k q Hq) as [Hin (m & Hm & Hkm)]. split; [|by eauto].
    rewrite Hpop in Hin. apply elem_of_app in Hin as [Hin|Hin]; [done|].
    apply list_elem_of_singleton in Hin as ->. congruence.
  - intros q Hq. destruct (Hl q (Hr q Hq)) as (m & Hm & Hkm).
    exists m. split; [done|]. rewrite lookup_delete_ne; [done|].
    intros E. rewrite E in Hkn. rewrite Hkn in Hkm. injection Hkm as ->.
    apply (Hnt q Hq). apply list_elem_of_singleton. done.
  - done.
  - done.
Qed.

(** The loop of Put, for any property its body preserves: the property
    holds when the loop ends, and the loop ends with size within capacity. *)
Lemma lru_evict_ind (P : LRU.LRUCache → Prop) :
  (∀ c c', P c → LRU.capacity c < LRU.size c → LRU.evict_body c = Done c' → P c') →
  ∀ fuel c c', P c → LRU.evict fuel c = Done c' →
  P c' ∧ LRU.size c' ≤ LRU.capacity c'.
Proof.
  intros Hbody. induction fuel as [|fuel IH]; intros c c' HP; simpl.
  - destruct (Z.ltb_spec (LRU.capacity c) (LRU.size c)); [done|].
    by intros [= <-].
  - destruct (Z.ltb_spec (LRU.capacity c) (LRU.size c)); [|by intros [= <-]].
    destruct (LRU.evict_body c) as [c1| |] eqn:E; simpl; try done.
    apply IH. by eapply Hbody.
Qed.

Lemma lru_linked_evict fuel c c' :
  LRU.linked c → LRU.evict fuel c = Done c' → LRU.linked c'.
Proof.
  intros Hwf Hev.
  by apply (lru_evict_ind LRU.linked (λ c c' H _, lru_linked_evict_body c c' H) _ _ _ Hwf) in Hev as [? _].
Qed.

Lemma lru_Put_new fuel c key value :
  LRU.cache c !! key = None →
  LRU.Put fuel c key value =
  c1 ← LRU.evict fuel (lru_inserted c key value); Done (true, c1).
Proof. intros Hk. unfold LRU.Put. by rewrite Hk. Qed.

Lemma lru_fresh_next c : LRU.linked c → LRU.heap c !! LRU.next c = None.
Proof.
  intros Hlk. destruct (LRU.heap c !! LRU.next c) eqn:E; [|done].
  pose proof (LRU.linked_fresh _ Hlk (LRU.next c) ltac:(eauto)). lia.
Qed.

(** The nodes an index points to are not the fresh one. *)
Lemma lru_index_not_fresh c k p :
  LRU.linked c → LRU.cache c !! k = Some p → LRU.next c ≠ p.
Proof.
  intros Hlk Hk <-. destruct (LRU.linked_cache _ Hlk _ _ Hk) as [_ (n & Hn & _)].
  pose proof (lru_fresh_next c Hlk). congruence.
Qed.

Lemma lru_inserted_linked c key value :
  LRU.linked c → LRU.cache c !! key = None → LRU.linked (lru_inserted c key value).
Proof.
  intros Hlk Hk. pose proof (lru_fresh_next c Hlk) as Hnew.
  destruct Hlk as [Hc Hl Hd Hf].
  assert (Hnl : LRU.next c ∉ LRU.linklist c).
  { intros Hin. destruct (Hl _ Hin) as (m & Hm & _). congruence. }
  split; simpl.
  - intros k q Hq. apply lookup_insert_Some in Hq as [[<- <-]|[Hne Hq]].
    + split; [left|]. rewrite lookup_insert_eq. eauto.
    + destruct (Hc k q Hq) as [Hin (m & Hm & Hkm)]. split; [by right|].
      rewrite lookup_insert_ne; [eauto|]. intros <-. done.
  - intros q Hq. apply elem_of_cons in Hq as [->|Hq].
    + rewrite lookup_insert_eq. eexists. split; [done|]. simpl.
      by rewrite lookup_insert_eq.
    + destruct (Hl q Hq) as (m & Hm & Hkm).
      rewrite lookup_insert_ne by (intros <-; done).
      exists m. split; [done|]. rewrite lookup_insert_ne; [done|].
      intros E. congruence.
  - by constructor.
  - intros q [m Hq]. destruct (decide (q = LRU.next c)) as [->|Hne]; [lia|].
    rewrite lookup_insert_ne in Hq by done.
    specialize (Hf q ltac:(eauto)). lia.
Qed.

Lemma lru_linked_Put fuel c key value created c' :
  LRU.linked c → LRU.Put fuel c key value = Done (created, c') → LRU.linked c'.
Proof.
  intros Hwf. destruct (LRU.cache c !! key) as [p|] eqn:Hk.
  - unfold LRU.Put. rewrite Hk.
    destruct (LRU.linked_cache _ Hwf _ _ Hk) as [Hin (n & Hn & Hkn)].
    rewrite (RemoveNode_member _ _ Hin). simpl.
    unfold deref. simpl. rewrite Hn. simpl. intros [= _ <-].
    destruct (lru_linked_touch c p Hwf Hin) as [Hc Hl Hd Hf].
    simpl in *. split; simpl.
    + intros k q Hq. destruct (Hc k q Hq) as [Hq1 (m & Hm & Hkm)].
      split; [done|]. destruct (decide (q = p)) as [->|Hne].
      * rewrite lookup_insert_eq. exists (set_Value value n). split; [done|].
        simpl. congruence.
      * rewrite lookup_insert_ne by done. eauto.
    + intros q Hq. destruct (Hl q Hq) as (m & Hm & Hkm).
      destruct (decide (q = p)) as [->|Hne].
      * rewrite lookup_insert_eq. exists (set_Value value n). split; [done|].
        simpl. congruence.
      * rewrite lookup_insert_ne by done. eauto.
    + done.
    + intros q [m Hq]. apply Hf. destruct (decide (q = p)) as [->|Hne]; [by eauto|].
      rewrite lookup_insert_ne in Hq by done. eauto.
  - rewrite lru_Put_new by done.
    destruct (LRU.evict _ _) as [c1| |] eqn:Hev; simpl; try done.
    intros [= _ <-]. eapply lru_linked_evict; [|exact Hev].
    by apply lru_inserted_linked.
Qed.

Lemma lru_reachable_linked capacity c : LRU.reachable capacity c → LRU.linked c.
Proof.
  induction 1; eauto using lru_linked_New, lru_linked_Get, lru_linked_Put.
Qed.

Lemma lru_reachable_capacity capacity c :
  LRU.reachable capacity c → LRU.capacity c = capacity.
Proof.
  induction 1 as [|c key value ok c' _ IH HG|fuel c key value created c' _ IH HP];
    [done| |].
  - unfold LRU.Get in HG. destruct (LRU.cache c !! key) as [p|]; simpl in HG.
    + destruct (RemoveNode p (LRU.linklist c)) as [l| |]; simpl in HG; try done.
      destruct (deref (LRU.heap c) p) as [n| |]; simpl in HG; try done.
      by injection HG as _ _ <-.
    + by injection HG as _ _ <-.
  - unfold LRU.Put in HP. destruct (LRU.cache c !! key) as [p|]; simpl in HP.
    + destruct (RemoveNode p (LRU.linklist c)) as [l| |]; simpl in HP; try done.
      destruct (deref (LRU.heap c) p) as [n| |]; simpl in HP; try done.
      by injection HP as _ <-.
    + destruct (LRU.evict _ _) as [c1| |] eqn:Hev; simpl in HP; try done.
      injection HP as _ <-.
      eapply (lru_evict_ind (λ c1, LRU.capacity c1 = capacity)) in Hev as [? _];
        [done| |done].
      intros c2 c3 Hc _ Hb. unfold LRU.evict_body in Hb. simpl in Hb.
      destruct (PopTail (LRU.linklist c2)) as [[t r]| |]; simpl in Hb; try done.
      destruct (deref (LRU.heap c2) t) as [n| |]; simpl in Hb; try done.
      by injection Hb as <-.
Qed.

(** ** The LRU engine: the loop of Put ends *)

Lemma lru_evict_within fuel c :
  LRU.size c ≤ LRU.capacity c → LRU.evict fuel c = Done c.
Proof.
  intros H. destruct fuel; simpl;
    destruct (Z.ltb_spec (LRU.capacity c) (LRU.size c)); done || lia.
Qed.

(** The loop of the LRU Put does end: every turn takes a node off the
    list, so one turn more than the list is long is always enough. *)
Lemma lru_evict_ends fuel : ∀ c,
  (length (LRU.linklist c) < fuel)%nat → LRU.evict fuel c ≠ OutOfFuel.
Proof.
  induction fuel as [|fuel IH]; intros c Hfuel; [lia|]. simpl.
  destruct (LRU.capacity c <? LRU.size c); [|done].
  unfold LRU.evict_body. simpl.
  destruct (PopTail (LRU.linklist c)) as [[t r]| |] eqn:Hpop; simpl; try done.
  - apply PopTail_Done in Hpop. unfold deref.
    destruct (LRU.heap c !! t) as [n|]; simpl; [|done].
    apply IH. simpl. rewrite Hpop, length_app in Hfuel. simpl in Hfuel. lia.
  - by apply PopTail_fuel in Hpop.
Qed.

Lemma lru_Put_ends c key value :
  LRU.Put (S (S (length (LRU.linklist c)))) c key value ≠ OutOfFuel.
Proof.
  unfold LRU.Put. destruct (LRU.cache c !! key) as [p|].
  - unfold RemoveNode, deref. case_decide; simpl; [|done].
    by destruct (LRU.heap c !! p).
  - cbn [LRU.alloc].
    destruct (LRU.evict _ _) as [c1| |] eqn:Hev; simpl; try done.
    apply lru_evict_ends in Hev; [done|]. simpl. lia.
Qed.

(** More iterations than a call needed change nothing. *)
Lemma lru_evict_mono fuel : ∀ fuel' c c',
  (fuel ≤ fuel')%nat → LRU.evict fuel c = Done c' → LRU.evict fuel' c = Done c'.
Proof.
  induction fuel as [|fuel IH]; intros fuel' c c' Hle; simpl.
  - destruct (Z.ltb_spec (LRU.capacity c) (LRU.size c)); [done|].
    intros [= <-]. by apply lru_evict_within.
  - destruct fuel' as [|fuel']; [lia|]. simpl.
    destruct (LRU.capacity c <? LRU.size c); [|done].
    destruct (LRU.evict_body c) as [c1| |]; simpl; try done.
    apply IH. lia.
Qed.

Lemma lru_Put_mono fuel fuel' c key value r :
  (fuel ≤ fuel')%nat →
  LRU.Put fuel c key value = Done r → LRU.Put fuel' c key value = Done r.
Proof.
  intros Hle. unfold LRU.Put.
  destruct (LRU.cache c !! key); [done|]. simpl.
  destruct (LRU.evict fuel _) as [c1| |] eqn:Hev; simpl; try done.
  by rewrite (lru_evict_mono _ _ _ _ Hle Hev).
Qed.

(** The result of Put does not depend on the iteration budget. *)
Lemma lru_Put_det fuel fuel' c key value r1 r2 :
  LRU.Put fuel c key value = Done r1 → LRU.Put fuel' c key value = Done r2 →
  r1 = r2.
Proof.
  intros H1 H2.
  apply (lru_Put_mono _ (fuel `max` fuel')) in H1; [|lia].
  apply (lru_Put_mono _ (fuel `max` fuel')) in H2; [|lia].
  congruence.
Qed.

(** ** The LRU engine: the size field *)

(** Size stays a valid byte count and the capacity never changes. *)
Lemma lru_Put_size_range fuel c key value created c' :
  0 ≤ LRU.size c ≤ LRU.capacity c →
  LRU.Put fuel c key value = Done (created, c') →
  0 ≤ LRU.size c' ≤ LRU.capacity c' ∧ LRU.capacity c' = LRU.capacity c.
Proof.
  intros Hsz. unfold LRU.Put. destruct (LRU.cache c !! key) as [p|]; simpl.
  - destruct (RemoveNode p (LRU.linklist c)) as [l| |]; simpl; try done.
    destruct (deref (LRU.heap c) p) as [n| |]; simpl; try done.
    by intros [= _ <-].
  - destruct (LRU.evict _ _) as [c1| |] eqn:Hev; simpl; try done.
    intros [= _ <-].
    eapply (lru_evict_ind (λ c1, 0 ≤ LRU.size c1 ∧ LRU.capacity c1 = LRU.capacity c))
      in Hev as [[? ?] ?]; [lia| |].
    + intros c2 c3 [_ Hc] _ Hb. unfold LRU.evict_body in Hb. simpl in Hb.
      destruct (PopTail (LRU.linklist c2)) as [[t r]| |]; simpl in Hb; try done.
      destruct (deref (LRU.heap c2) t) as [n| |]; simpl in Hb; try done.
      injection Hb as <-. simpl. split; [apply u64_range|done].
    + simpl. split; [apply u64_range|done].
Qed.

Lemma lru_Puts_size_range fuel kvs : ∀ c c',
  0 ≤ LRU.size c ≤ LRU.capacity c →
  LRU.Puts fuel c kvs = Done c' →
  0 ≤ LRU.size c' ≤ LRU.capacity c' ∧ LRU.capacity c' = LRU.capacity c.
Proof.
  induction kvs as [|[k v] kvs IH]; intros c c' Hsz; simpl.
  - by intros [= <-].
  - destruct (LRU.Put fuel c k v) as [[b c1]| |] eqn:HP; simpl; try done.
    apply lru_Put_size_range in HP as [Hsz1 Hc1]; [|done].
    intros Hrest. apply IH in Hrest as [? ?]; [|done]. split; [done|congruence].
Qed.

(** Any linked engine has its values at the lengths of some [lenOf]. *)
Lemma lru_lengths_own c :
  LRU.linked c →
  lru_lengths (λ k, match LRU.cache c !! k with
                    | Some p => weigh (LRU.heap c) p
                    | None => 0
                    end) c.
Proof. intros _ k p n Hk Hn. by rewrite Hk, (weigh_Some _ _ _ Hn). Qed.

(** One eviction takes the bytes of the evicted value off both the size
    field and the resident total. *)
Lemma lru_counted_evict_body lenOf c c' :
  LRU.linked c → lru_counted c ∧ lru_lengths lenOf c →
  LRU.evict_body c = Done c' →
  lru_counted c' ∧ lru_lengths lenOf c'.
Proof.
  intros Hlk [[Hsz Hlt] Hlen]. unfold LRU.evict_body. simpl.
  destruct (PopTail (LRU.linklist c)) as [[t r]| |] eqn:Hpop; simpl; try done.
  apply PopTail_Done in Hpop.
  assert (Ht : t ∈ LRU.linklist c).
  { rewrite Hpop. apply elem_of_app. right. by apply list_elem_of_singleton. }
  destruct (LRU.linked_list _ Hlk t Ht) as (n & Hn & Hkn).
  unfold deref. simpl. rewrite Hn. simpl. intros [= <-].
  unfold lru_counted, LRU.resident_bytes in *. simpl.
  rewrite (total_delete _ _ _ _ Hkn), (weigh_Some _ _ _ Hn) in Hsz.
  pose proof (total_nonneg (LRU.heap c) (delete (Key n) (LRU.cache c))) as Hnn.
  pose proof (len_nonneg (Value n)) as Hvn.
  split.
  - rewrite u64_small by lia. split; lia.
  - intros k p m Hk Hm. simpl in Hk, Hm.
    apply lookup_delete_Some in Hk as [_ Hk]. by eapply Hlen.
Qed.

Lemma lru_inserted_counted lenOf c key value :
  LRU.linked c → LRU.cache c !! key = None →
  lru_counted c ∧ lru_lengths lenOf c →
  len value = lenOf key → 0 ≤ LRU.size c → LRU.size c + len value < 2 ^ 64 →
  lru_counted (lru_inserted c key value) ∧ lru_lengths lenOf (lru_inserted c key value).
Proof.
  intros Hlk Hk [[Hsz Hlt] Hlen] Hv H0 Hfit.
  pose proof (len_nonneg value) as Hvn.
  split.
  - unfold lru_counted, LRU.resident_bytes. simpl.
    rewrite u64_small by lia. split; [|lia].
    rewrite total_insert by done. rewrite weigh_insert_eq. simpl.
    rewrite total_ext with (heap := LRU.heap c); [unfold LRU.resident_bytes in Hsz; lia|].
    intros k p Hp. apply weigh_insert_ne. by eapply lru_index_not_fresh.
  - intros k p n Hp Hn. simpl in Hp, Hn.
    apply lookup_insert_Some in Hp as [[<- <-]|[Hne Hp]].
    + rewrite lookup_insert_eq in Hn. by injection Hn as <-.
    + rewrite lookup_insert_ne in Hn by by eapply lru_index_not_fresh.
      by eapply Hlen.
Qed.

(** Put keeps the size field equal to the resident total when it does
    not change the length of a resident value. *)
Lemma lru_counted_Put lenOf fuel c key value created c' :
  LRU.linked c → lru_counted c ∧ lru_lengths lenOf c →
  len value = lenOf key → 0 ≤ LRU.size c → LRU.size c + len value < 2 ^ 64 →
  LRU.Put fuel c key value = Done (created, c') →
  lru_counted c' ∧ lru_lengths lenOf c'.
Proof.
  intros Hlk [[Hsz Hlt] Hlen] Hv H0 Hfit.
  destruct (LRU.cache c !! key) as [p|] eqn:Hk.
  - unfold LRU.Put. rewrite Hk.
    destruct (LRU.linked_cache _ Hlk _ _ Hk) as [Hin (n & Hn & Hkn)].
    rewrite (RemoveNode_member _ _ Hin). simpl.
    unfold deref. simpl. rewrite Hn. simpl. intros [= _ <-].
    split.
    + unfold lru_counted, LRU.resident_bytes in *. simpl. split; [|done].
      rewrite Hsz. symmetry. apply total_ext. intros k q Hq.
      destruct (decide (q = p)) as [->|Hne].
      * rewrite weigh_insert_eq, (weigh_Some _ _ _ Hn). simpl.
        rewrite (Hlen _ _ _ Hk Hn). done.
      * by rewrite weigh_insert_ne.
    + intros k q m Hq Hm. simpl in Hq, Hm.
      destruct (decide (q = p)) as [->|Hne].
      * rewrite lookup_insert_eq in Hm. injection Hm as <-. simpl.
        destruct (LRU.linked_cache _ Hlk _ _ Hq) as [_ (n' & Hn' & Hkn')].
        congruence.
      * rewrite lookup_insert_ne in Hm by done. by eapply Hlen.
  - rewrite lru_Put_new by done.
    destruct (LRU.evict _ _) as [c1| |] eqn:Hev; simpl; try done.
    intros [= _ <-].
    eapply (lru_evict_ind
              (λ c, LRU.linked c ∧ lru_counted c ∧ lru_lengths lenOf c))
      in Hev as [(_ & ? & ?) _]; [done| |].
    + intros c2 c3 (Hlk2 & Hc2) _ Hb. split; [by eapply lru_linked_evict_body|].
      by eapply lru_counted_evict_body.
    + split; [by apply lru_inserted_linked|]. by apply lru_inserted_counted.
Qed.

(** While a node heavier than the capacity heads the list, the loop
    evicts everything, that node last. *)
Lemma lru_evict_flush l : ∀ fuel c p,
  LRU.linked c → lru_counted c → 0 ≤ LRU.capacity c →
  LRU.linklist c = p :: l → LRU.capacity c < weigh (LRU.heap c) p →
  (length l < fuel)%nat →
  ∃ c', LRU.evict fuel c = Done c' ∧
        LRU.cache c' = ∅ ∧ LRU.linklist c' = [] ∧ LRU.size c' = 0 ∧
        LRU.capacity c' = LRU.capacity c.
Proof.
  induction l as [|t l IH] using rev_ind; intros fuel c p Hlk Hcnt Hcap Hl Hw Hfuel.
  - destruct fuel as [|fuel]; [simpl in Hfuel; lia|].
    destruct (lru_evict_body_Done c [] p Hlk Hl) as (n & Hn & Hkn & Hb).
    pose proof (total_ge (LRU.heap c) _ _ _ Hkn) as Hge.
    destruct Hcnt as [Hsz Hlt]. unfold LRU.resident_bytes in Hsz.
    simpl. destruct (Z.ltb_spec (LRU.capacity c) (LRU.size c)); [|lia].
    rewrite Hb. simpl.
    assert (Hlk1 : LRU.linked (lru_evicted c [] n)) by by eapply lru_linked_evict_body.
    assert (Hempty : delete (Key n) (LRU.cache c) = ∅).
    { apply map_empty. intros k.
      destruct (delete (Key n) (LRU.cache c) !! k) as [q|] eqn:Hq; [|done].
      destruct (LRU.linked_cache _ Hlk1 k q Hq) as [Hin _].
      by apply not_elem_of_nil in Hin. }
    assert (Hcnt1 : lru_counted (lru_evicted c [] n)).
    { eapply (lru_counted_evict_body _ c); [done| |done].
      split; [done|]. by apply lru_lengths_own. }
    destruct Hcnt1 as [Hsz1 _]. unfold LRU.resident_bytes in Hsz1. simpl in Hsz1.
    rewrite Hempty, total_empty in Hsz1.
    rewrite lru_evict_within by (simpl; lia).
    eexists. split; [done|]. simpl. by rewrite Hempty.
  - destruct fuel as [|fuel]; [lia|].
    rewrite length_app in Hfuel. simpl in Hfuel.
    assert (Hl' : LRU.linklist c = (p :: l) ++ [t]) by by rewrite Hl.
    destruct (lru_evict_body_Done c (p :: l) t Hlk Hl') as (n & Hn & Hkn & Hb).
    assert (Hp : p ∈ LRU.linklist c) by (rewrite Hl; left).
    destruct (LRU.linked_list _ Hlk p Hp) as (m & Hm & Hkm).
    pose proof (total_ge (LRU.heap c) _ _ _ Hkm) as Hge.
    pose proof Hcnt as [Hsz Hlt]. unfold LRU.resident_bytes in Hsz.
    simpl. destruct (Z.ltb_spec (LRU.capacity c) (LRU.size c)); [|lia].
    rewrite Hb. simpl.
    destruct (IH fuel (lru_evicted c (p :: l) n) p) as (c' & Hev & ?); try done.
    + by eapply lru_linked_evict_body.
    + eapply (lru_counted_evict_body _ c); [done| |done].
      split; [done|]. by apply lru_lengths_own.
    + lia.
    + by exists c'.
Qed.

(** ** The LRU engine: the counters *)

Lemma lru_evict_body_metrics c c' :
  LRU.evict_body c = Done c' →
  LRU.metrics c' = Deletes_Inc (LRU.metrics c) ∧
  length (LRU.linklist c) = S (length (LRU.linklist c')).
Proof.
  unfold LRU.evict_body. simpl.
  destruct (PopTail (LRU.linklist c)) as [[t r]| |] eqn:Hpop; simpl; try done.
  apply PopTail_Done in Hpop.
  destruct (deref (LRU.heap c) t) as [n| |]; simpl; try done.
  intros [= <-]. simpl. split; [done|].
  rewrite Hpop, length_app. simpl. lia.
Qed.

(** The counters over a whole run of the LRU loop: the delete counter
    goes up by the number of nodes that left the list. *)
Lemma lru_evict_metrics fuel c c' :
  LRU.evict fuel c = Done c' →
  Hits (LRU.metrics c') = Hits (LRU.metrics c) ∧
  Miss (LRU.metrics c') = Miss (LRU.metrics c) ∧
  Adds (LRU.metrics c') = Adds (LRU.metrics c) ∧
  (Deletes (LRU.metrics c') + length (LRU.linklist c') =
   Deletes (LRU.metrics c) + length (LRU.linklist c))%nat.
Proof.
  intros Hev.
  eapply (lru_evict_ind (λ c1,
            Hits (LRU.metrics c1) = Hits (LRU.metrics c) ∧
            Miss (LRU.metrics c1) = Miss (LRU.metrics c) ∧
            Adds (LRU.metrics c1) = Adds (LRU.metrics c) ∧
            (Deletes (LRU.metrics c1) + length (LRU.linklist c1) =
             Deletes (LRU.metrics c) + length (LRU.linklist c))%nat))
    in Hev as [? _]; [done| |done].
  intros c1 c2 (H1 & H2 & H3 & H4) _ Hb.
  apply lru_evict_body_metrics in Hb as [-> Hlen]. simpl.
  repeat split; try done. lia.
Qed.

Lemma lru_Get_metrics c key value ok c' :
  LRU.Get c key = Done (value, ok, c') →
  LRU.metrics c' = (if ok then Hits_Inc else Miss_Inc) (LRU.metrics c).
Proof.
  unfold LRU.Get. destruct (LRU.cache c !! key) as [p|]; simpl.
  - destruct (RemoveNode p (LRU.linklist c)) as [l| |]; simpl; try done.
    destruct (deref (LRU.heap c) p) as [n| |]; simpl; try done.
    by intros [= _ <- <-].
  - by intros [= _ <- <-].
Qed.

Lemma lru_Put_metrics fuel c key value created c' :
  LRU.Put fuel c key value = Done (created, c') →
  if created then
    Hits (LRU.metrics c') = Hits (LRU.metrics c) ∧
    Miss (LRU.metrics c') = Miss (LRU.metrics c) ∧
    Adds (LRU.metrics c') = S (Adds (LRU.metrics c)) ∧
    (Deletes (LRU.metrics c') + length (LRU.linklist c') =
     Deletes (LRU.metrics c) + S (length (LRU.linklist c)))%nat
  else LRU.metrics c' = LRU.metrics c.
Proof.
  unfold LRU.Put. destruct (LRU.cache c !! key) as [p|]; simpl.
  - destruct (RemoveNode p (LRU.linklist c)) as [l| |]; simpl; try done.
    destruct (deref (LRU.heap c) p) as [n| |]; simpl; try done.
    by intros [= <- <-].
  - destruct (LRU.evict _ _) as [c1| |] eqn:Hev; simpl; try done.
    intros [= <- <-]. by apply lru_evict_metrics in Hev.
Qed.

(** ** The LFU engine: the frequency-incrementing touch *)

Lemma lfu_bucket_Some c f l : LFU.freq c !! f = Some l → LFU.bucket c f = Done l.
Proof. intros H. unfold LFU.bucket. by rewrite H. Qed.

(** [ensure_bucket] followed by [add_to_bucket]: the node becomes the head
    of the bucket, which is created when it was missing. *)
Lemma lfu_add_to_ensured_bucket c f p :
  LFU.add_to_bucket f p (LFU.ensure_bucket f c) =
  Done (LFU.set_freq (<[f := p :: default [] (LFU.freq c !! f)]> (LFU.freq c)) c).
Proof.
  unfold LFU.add_to_bucket, LFU.ensure_bucket, LFU.bucket.
  destruct (LFU.freq c !! f) as [l|] eqn:E; simpl.
  - by rewrite E.
  - rewrite lookup_insert_eq. simpl. unfold LFU.set_freq. simpl.
    by rewrite insert_insert_eq.
Qed.

(** What [update] computes on a node that sits in the bucket of its
    frequency. *)
Lemma lfu_update_Done c p n l :
  LFU.heap c !! p = Some n → LFU.freq c !! Freq n = Some l → p ∈ l →
  LFU.update p c = Done (lfu_touched c p n l).
Proof.
  intros Hn Hl Hp. unfold LFU.update, deref. rewrite Hn. simpl.
  rewrite (lfu_bucket_Some _ _ _ Hl). simpl.
  rewrite (RemoveNode_member _ _ Hp). simpl.
  unfold lfu_touched, lfu_left_behind.
  destruct (decide (LFU.minFreq c = Freq n)) as [Hmin|Hmin].
  - unfold LFU.bucket. simpl. rewrite lookup_insert_eq. simpl.
    destruct (filter (λ q, q ≠ p) l) as [|q l'] eqn:El'; simpl.
    + rewrite bool_decide_true by done.
      rewrite lfu_add_to_ensured_bucket. simpl. by rewrite delete_insert_eq.
    + rewrite bool_decide_false by (intros [_ ?]; done).
      by rewrite lfu_add_to_ensured_bucket.
  - rewrite bool_decide_false by (intros [? _]; done). simpl.
    by rewrite lfu_add_to_ensured_bucket.
Qed.

(** The buckets [update] leaves, bucket by bucket. *)
Lemma lfu_left_behind_lookup c p f l g :
  lfu_left_behind c p f l !! g =
  if decide (g = f) then
    if bool_decide (LFU.minFreq c = f ∧ filter (λ q, q ≠ p) l = [])
    then None else Some (filter (λ q, q ≠ p) l)
  else LFU.freq c !! g.
Proof.
  unfold lfu_left_behind.
  destruct (bool_decide _); destruct (decide (g = f)) as [->|Hne].
  - apply lookup_delete_eq.
  - by apply lookup_delete_ne.
  - apply lookup_insert_eq.
  - by apply lookup_insert_ne.
Qed.

Lemma lfu_touched_lookup c p n l g :
  LFU.freq (lfu_touched c p n l) !! g =
  if decide (g = int64 (Freq n + 1)) then
    Some (p :: default [] (LFU.freq c !! g))
  else lfu_left_behind c p (Freq n) l !! g.
Proof.
  unfold lfu_touched. simpl. destruct (decide (g = _)) as [->|Hne].
  - rewrite lookup_insert_eq, lfu_left_behind_lookup.
    rewrite decide_False; [done|apply int64_succ_ne].
  - by rewrite lookup_insert_ne.
Qed.

Lemma lfu_touched_minFreq c p n l :
  LFU.minFreq (lfu_touched c p n l) =
  if bool_decide (LFU.minFreq c = Freq n ∧ filter (λ q, q ≠ p) l = [])
  then int64 (LFU.minFreq c + 1) else LFU.minFreq c.
Proof. reflexivity. Qed.

(** A touch changes the frequency of a node, not its key or value. *)
Lemma lfu_touched_heap c p n l q m :
  LFU.heap c !! p = Some n → LFU.heap c !! q = Some m →
  ∃ m', LFU.heap (lfu_touched c p n l) !! q = Some m' ∧
        Key m' = Key m ∧ Value m' = Value m.
Proof.
  intros Hn Hm. unfold lfu_touched. simpl.
  destruct (decide (q = p)) as [->|Hne].
  - rewrite lookup_insert_eq. assert (m = n) as -> by congruence. eauto.
  - rewrite lookup_insert_ne by done. eauto.
Qed.

Lemma lfu_touched_weigh c p n l q :
  LFU.heap c !! p = Some n →
  weigh (LFU.heap (lfu_touched c p n l)) q = weigh (LFU.heap c) q.
Proof.
  intros Hn. unfold weigh, lfu_touched. simpl.
  destruct (decide (q = p)) as [->|Hne].
  - by rewrite lookup_insert_eq, Hn.
  - by rewrite lookup_insert_ne.
Qed.

Lemma lfu_touched_linked c p n l :
  LFU.linked c →
  LFU.heap c !! p = Some n → LFU.freq c !! Freq n = Some l → p ∈ l →
  LFU.linked (lfu_touched c p n l).
Proof.
  intros [Hnode Hbucket Hdup Hfresh] Hn Hl Hp.
  pose proof (int64_succ_ne (Freq n)) as Hff.
  assert (Hheap : ∀ q, q ≠ p → LFU.heap (lfu_touched c p n l) !! q = LFU.heap c !! q).
  { intros q Hq. unfold lfu_touched. simpl. by rewrite lookup_insert_ne. }
  assert (Hheap_p : LFU.heap (lfu_touched c p n l) !! p
                    = Some (set_Freq (int64 (Freq n + 1)) n)).
  { unfold lfu_touched. simpl. by rewrite lookup_insert_eq. }
  assert (Hnew : ∀ l2, LFU.freq c !! int64 (Freq n + 1) = Some l2 → p ∉ l2).
  { intros l2 Hl2 Hin. destruct (Hbucket _ _ _ Hl2 Hin) as (m & Hm & Hfm). congruence. }
  split.
  - intros k q Hk. change (LFU.node c !! k = Some q) in Hk.
    destruct (Hnode k q Hk) as (m & Hm & Hkm & lm & Hlm & Hq).
    destruct (decide (q = p)) as [->|Hqp].
    + assert (m = n) as -> by congruence.
      eexists. split; [exact Hheap_p|]. split; [done|]. cbn [Freq set_Freq].
      eexists. rewrite lfu_touched_lookup, decide_True by done.
      split; [done|]. left.
    + exists m. rewrite Hheap by done. split; [done|]. split; [done|].
      rewrite lfu_touched_lookup. case_decide as Hg.
      * rewrite Hlm. eexists. split; [reflexivity|]. simpl. by right.
      * rewrite lfu_left_behind_lookup. case_decide as Hf.
        -- assert (lm = l) as -> by congruence.
           assert (Hq' : q ∈ filter (λ q, q ≠ p) l) by by apply filter_ne_elem.
           rewrite bool_decide_false.
           ++ eauto.
           ++ intros [_ E]. rewrite E in Hq'. by apply not_elem_of_nil in Hq'.
        -- eauto.
  - intros g lg q Hg Hq. rewrite lfu_touched_lookup in Hg. case_decide as Hgf.
    + injection Hg as <-. apply elem_of_cons in Hq as [->|Hq].
      * eexists. split; [exact Hheap_p|]. done.
      * destruct (LFU.freq c !! g) as [l2|] eqn:Hl2; simpl in Hq;
          [|by apply not_elem_of_nil in Hq].
        destruct (Hbucket _ _ _ Hl2 Hq) as (m & Hm & Hfm).
        exists m. rewrite Hheap; [done|]. intros ->. congruence.
    + rewrite lfu_left_behind_lookup in Hg. case_decide as Hf.
      * destruct (bool_decide _); [done|]. injection Hg as <-.
        apply filter_ne_elem in Hq as [Hqp Hq].
        destruct (Hbucket _ _ _ Hl Hq) as (m & Hm & Hfm).
        exists m. rewrite Hheap by done. split; congruence.
      * destruct (Hbucket _ _ _ Hg Hq) as (m & Hm & Hfm).
        exists m. rewrite Hheap; [done|]. intros ->. congruence.
  - intros g lg Hg. rewrite lfu_touched_lookup in Hg. case_decide as Hgf.
    + injection Hg as <-. destruct (LFU.freq c !! g) as [l2|] eqn:Hl2; simpl.
      * constructor; [|by eapply Hdup]. apply Hnew. congruence.
      * constructor; [apply not_elem_of_nil|constructor].
    + rewrite lfu_left_behind_lookup in Hg. case_decide as Hf.
      * destruct (bool_decide _); [done|]. injection Hg as <-.
        apply filter_ne_NoDup. by eapply Hdup.
      * by eapply Hdup.
  - intros q [m Hq]. apply Hfresh.
    destruct (decide (q = p)) as [->|Hqp]; [by eauto|].
    rewrite Hheap in Hq by done. eauto.
Qed.

Lemma lfu_touched_ordered c p n l :
  LFU.linked c → LFU.ordered c → Freq n < max_int →
  LFU.heap c !! p = Some n → LFU.freq c !! Freq n = Some l → p ∈ l →
  LFU.ordered (lfu_touched c p n l).
Proof.
  intros Hlk [Hkeys Hmin] Hmax Hn Hl Hp.
  destruct (Hkeys _ _ Hl) as [H1 Hle].
  assert (Hf' : int64 (Freq n + 1) = Freq n + 1).
  { apply int64_small. unfold max_int in *. lia. }
  assert (Hm' : LFU.minFreq c = Freq n → int64 (LFU.minFreq c + 1) = Freq n + 1).
  { intros ->. done. }
  split.
  - intros g lg Hg. rewrite lfu_touched_lookup in Hg.
    rewrite lfu_touched_minFreq. case_decide as Hgf.
    + subst g. rewrite Hf'. case_bool_decide as Hb; [|lia].
      destruct Hb as [Hb _]. rewrite (Hm' Hb). lia.
    + rewrite lfu_left_behind_lookup in Hg. case_decide as Hgn.
      * subst g. case_bool_decide as Hb; [done|]. lia.
      * destruct (Hkeys _ _ Hg) as [Hg1 Hgle].
        case_bool_decide as Hb; [|lia].
        destruct Hb as [Hb _]. rewrite (Hm' Hb). lia.
  - intros _. rewrite lfu_touched_minFreq.
    case_bool_decide as Hb.
    + destruct Hb as [Hb _]. rewrite (Hm' Hb).
      rewrite lfu_touched_lookup, decide_True by done. eauto.
    + rewrite lfu_touched_lookup, decide_False by lia.
      rewrite lfu_left_behind_lookup.
      destruct Hmin as (lmin & Hlmin & Hne); [intros E; by rewrite E in Hl|].
      case_decide as Hmf.
      * rewrite bool_decide_false by done.
        eexists. split; [done|]. intros E. apply Hb. done.
      * eauto.
Qed.

Lemma lfu_touched_tight c p n l :
  lfu_tight c →
  LFU.heap c !! p = Some n → LFU.freq c !! Freq n = Some l → p ∈ l →
  lfu_tight (lfu_touched c p n l).
Proof.
  intros Ht Hn Hl Hp.
  assert (Hkeep : ∀ q, (∃ f lf, LFU.freq c !! f = Some lf ∧ q ∈ lf) →
    ∃ m, LFU.heap (lfu_touched c p n l) !! q = Some m ∧
         LFU.node (lfu_touched c p n l) !! Key m = Some q).
  { intros q (f & lf & Hf & Hq). destruct (Ht f lf q Hf Hq) as (m & Hm & Hkm).
    destruct (lfu_touched_heap c p n l q m Hn Hm) as (m' & Hm' & Hk' & _).
    exists m'. split; [done|]. by rewrite Hk'. }
  intros g lg q Hg Hq. apply Hkeep.
  rewrite lfu_touched_lookup in Hg. case_decide as Hgf.
  - injection Hg as <-. apply elem_of_cons in Hq as [->|Hq]; [by eauto|].
    destruct (LFU.freq c !! g) as [l2|] eqn:Hl2; simpl in Hq;
      [by eauto|by apply not_elem_of_nil in Hq].
  - rewrite lfu_left_behind_lookup in Hg. case_decide as Hf.
    + destruct (bool_decide _); [done|]. injection Hg as <-.
      apply filter_ne_elem in Hq as [_ Hq]. by eauto.
    + by eauto.
Qed.

Lemma lfu_touched_counted lenOf pending c p n l :
  LFU.heap c !! p = Some n →
  lfu_counted pending c ∧ lfu_lengths lenOf c →
  lfu_counted pending (lfu_touched c p n l) ∧ lfu_lengths lenOf (lfu_touched c p n l).
Proof.
  intros Hn [[Hsz Hlt] Hlen]. split.
  - split; [|done]. unfold LFU.resident_bytes in *.
    change (LFU.size (lfu_touched c p n l)) with (LFU.size c).
    change (LFU.node (lfu_touched c p n l)) with (LFU.node c).
    rewrite Hsz. f_equal. symmetry. apply total_ext.
    intros k q _. by apply lfu_touched_weigh.
  - intros k q m Hq Hm. change (LFU.node c !! k = Some q) in Hq.
    unfold lfu_touched in Hm. simpl in Hm.
    destruct (decide (q = p)) as [->|Hne].
    + rewrite lookup_insert_eq in Hm. injection Hm as <-. simpl. by eapply Hlen.
    + rewrite lookup_insert_ne in Hm by done. by eapply Hlen.
Qed.

Lemma lfu_ranged_touched c p n l :
  LFU.freq c !! Freq n = Some l → lfu_ranged c → lfu_ranged (lfu_touched c p n l).
Proof.
  intros Hl [Hmin Hkeys]. split.
  - rewrite lfu_touched_minFreq. case_bool_decide; [apply int64_range|done].
  - intros g lg Hg. rewrite lfu_touched_lookup in Hg. case_decide as Hgf.
    + subst g. apply int64_range.
    + rewrite lfu_left_behind_lookup in Hg. case_decide as Hf; [|by eapply Hkeys].
      subst g. by eapply Hkeys.
Qed.

Lemma lfu_update_metrics p c c' :
  LFU.update p c = Done c' → LFU.metrics c' = LFU.metrics c.
Proof.
  unfold LFU.update.
  destruct (deref (LFU.heap c) p) as [n| |]; simpl; try done.
  destruct (LFU.bucket c (Freq n)) as [l| |]; simpl; try done.
  destruct (RemoveNode p l) as [l'| |]; simpl; try done.
  case_decide.
  - destruct (LFU.bucket _ _) as [v| |]; simpl; try done.
    destruct (Size v =? 0); simpl; rewrite lfu_add_to_ensured_bucket;
      by intros [= <-].
  - simpl. rewrite lfu_add_to_ensured_bucket. by intros [= <-].
Qed.

Lemma lfu_update_size p c c' :
  LFU.update p c = Done c' →
  LFU.size c' = LFU.size c ∧ LFU.capacity c' = LFU.capacity c.
Proof.
  unfold LFU.update.
  destruct (deref (LFU.heap c) p) as [n| |]; simpl; try done.
  destruct (LFU.bucket c (Freq n)) as [l| |]; simpl; try done.
  destruct (RemoveNode p l) as [l'| |]; simpl; try done.
  case_decide.
  - destruct (LFU.bucket _ _) as [v| |]; simpl; try done.
    destruct (Size v =? 0); simpl; rewrite lfu_add_to_ensured_bucket;
      by intros [= <-].
  - simpl. rewrite lfu_add_to_ensured_bucket. by intros [= <-].
Qed.

(** ** The LFU engine: one turn of the eviction loop *)

(** In a linked engine a turn of the loop either finds no node at
    [minFreq] and advances it, or evicts the tail of that bucket. *)
Lemma lfu_evict_body_cases c :
  LFU.linked c →
  ((LFU.freq c !! LFU.minFreq c = None ∨ LFU.freq c !! LFU.minFreq c = Some []) ∧
   LFU.evict_body c = Done (lfu_skipped c)) ∨
  (∃ r t n,
     LFU.freq c !! LFU.minFreq c = Some (r ++ [t]) ∧
     LFU.heap c !! t = Some n ∧ Freq n = LFU.minFreq c ∧
     LFU.evict_body c = Done (lfu_evicted c r n)).
Proof.
  intros Hlk. unfold LFU.evict_body.
  destruct (LFU.freq c !! LFU.minFreq c) as [l|] eqn:Hl; [|left; by eauto].
  rewrite Size_0. case_bool_decide as Hnil.
  { subst l. left. by eauto. }
  right. destruct (exists_last Hnil) as (r & t & ->).
  assert (Ht : t ∈ r ++ [t]).
  { apply elem_of_app. right. by apply list_elem_of_singleton. }
  destruct (LFU.linked_bucket _ Hlk _ _ _ Hl Ht) as (n & Hn & Hf).
  exists r, t, n. split; [done|]. split; [done|]. split; [done|].
  rewrite PopTail_snoc. simpl. unfold deref. rewrite Hn. simpl.
  rewrite decide_True by done.
  unfold LFU.bucket. simpl. rewrite lookup_insert_eq. simpl.
  rewrite Size_0. unfold lfu_evicted. case_bool_decide as Hr; simpl.
  - rewrite !decide_True by done. unfold LFU.drop_bucket. simpl.
    rewrite Hf. by rewrite delete_insert_eq.
  - by rewrite !decide_False by done.
Qed.

Lemma lfu_skipped_linked c :
  LFU.linked c →
  LFU.freq c !! LFU.minFreq c = None ∨ LFU.freq c !! LFU.minFreq c = Some [] →
  LFU.linked (lfu_skipped c).
Proof.
  intros [Hnode Hbucket Hdup Hfresh] Hmin. split; simpl.
  - intros k p Hk. destruct (Hnode k p Hk) as (n & Hn & Hkn & l & Hl & Hp).
    exists n. split; [done|]. split; [done|]. exists l. split; [|done].
    rewrite lookup_delete_ne; [done|]. intros E. rewrite E in Hmin.
    destruct Hmin as [Hmin|Hmin]; rewrite Hl in Hmin; [done|].
    injection Hmin as ->. by apply not_elem_of_nil in Hp.
  - intros f l p Hl. apply lookup_delete_Some in Hl as [_ Hl]. by eapply Hbucket.
  - intros f l Hl. apply lookup_delete_Some in Hl as [_ Hl]. by eapply Hdup.
  - done.
Qed.

Lemma lfu_evicted_lookup c r n g :
  LFU.freq (lfu_evicted c r n) !! g =
  if decide (g = LFU.minFreq c) then (if decide (r = []) then None else Some r)
  else LFU.freq c !! g.
Proof.
  unfold lfu_evicted. simpl.
  destruct (decide (r = [])); destruct (decide (g = _)) as [->|Hne].
  - apply lookup_delete_eq.
  - by apply lookup_delete_ne.
  - apply lookup_insert_eq.
  - by apply lookup_insert_ne.
Qed.

Lemma lfu_evicted_linked c r t n :
  LFU.linked c →
  LFU.freq c !! LFU.minFreq c = Some (r ++ [t]) →
  LFU.heap c !! t = Some n →
  LFU.linked (lfu_evicted c r n).
Proof.
  intros [Hnode Hbucket Hdup Hfresh] Hl Hn.
  pose proof (Hdup _ _ Hl) as Hd. apply NoDup_app in Hd as (Hdr & Hnt & _).
  assert (Hr : ∀ q, q ∈ r → q ∈ r ++ [t]).
  { intros q Hq. apply elem_of_app. by left. }
  split.
  - intros k q Hk. change (delete (Key n) (LFU.node c) !! k = Some q) in Hk.
    apply lookup_delete_Some in Hk as [Hne Hk].
    destruct (Hnode k q Hk) as (m & Hm & Hkm & lm & Hlm & Hq).
    exists m. split; [done|]. split; [done|].
    rewrite lfu_evicted_lookup. case_decide as Hg; [|by eauto].
    rewrite Hg, Hl in Hlm. injection Hlm as <-.
    apply elem_of_app in Hq as [Hq|Hq].
    + rewrite decide_False; [by eauto|]. intros ->. by apply not_elem_of_nil in Hq.
    + apply list_elem_of_singleton in Hq as ->. congruence.
  - intros g lg q Hg Hq. change (LFU.heap (lfu_evicted c r n)) with (LFU.heap c).
    rewrite lfu_evicted_lookup in Hg. case_decide as Hgm.
    + case_decide; [done|]. injection Hg as <-. subst g.
      eapply Hbucket; [exact Hl|]. by apply Hr.
    + by eapply Hbucket.
  - intros g lg Hg. rewrite lfu_evicted_lookup in Hg. case_decide as Hgm.
    + case_decide; [done|]. by injection Hg as <-.
    + by eapply Hdup.
  - done.
Qed.

Lemma lfu_linked_evict_body c c' :
  LFU.linked c → LFU.evict_body c = Done c' → LFU.linked c'.
Proof.
  intros Hlk Hev.
  destruct (lfu_evict_body_cases c Hlk) as [[Hmin E]|(r & t & n & Hl & Hn & _ & E)];
    rewrite E in Hev; injection Hev as <-.
  - by apply lfu_skipped_linked.
  - by eapply lfu_evicted_linked.
Qed.

Lemma lfu_positive_evict_body c c' :
  LFU.linked c ∧ lfu_positive c → LFU.evict_body c = Done c' →
  LFU.linked c' ∧ lfu_positive c'.
Proof.
  intros [Hlk Hpos] Hev. split; [by eapply lfu_linked_evict_body|].
  destruct (lfu_evict_body_cases c Hlk) as [[Hmin E]|(r & t & n & Hl & Hn & _ & E)];
    rewrite E in Hev; injection Hev as <-; intros f l Hf.
  - simpl in Hf. apply lookup_delete_Some in Hf as [_ Hf]. by eapply Hpos.
  - rewrite lfu_evicted_lookup in Hf. case_decide as Hg; [|by eapply Hpos].
    subst f. by eapply Hpos.
Qed.

Lemma lfu_evict_body_size_range c c' :
  LFU.evict_body c = Done c' →
  (0 ≤ LFU.size c → 0 ≤ LFU.size c') ∧ LFU.capacity c' = LFU.capacity c ∧
  ∀ k, LFU.node c !! k = None → LFU.node c' !! k = None.
Proof.
  unfold LFU.evict_body.
  destruct (LFU.freq c !! LFU.minFreq c) as [l|]; [|by intros [= <-]].
  destruct (Size l =? 0); [by intros [= <-]|].
  destruct (PopTail l) as [[p r]| |]; simpl; try done.
  destruct (deref (LFU.heap c) p) as [n| |]; simpl; try done.
  assert (Hdel : ∀ k, LFU.node c !! k = None → delete (Key n) (LFU.node c) !! k = None).
  { intros k Hk. apply lookup_delete_None. by right. }
  pose proof (u64_range (LFU.size c - len (Value n))) as [Hu _].
  case_decide.
  - destruct (LFU.bucket _ _) as [v| |]; simpl; try done.
    destruct (Size v =? 0); simpl; by intros [= <-].
  - simpl. by intros [= <-].
Qed.

Lemma lfu_evict_body_metrics c c' :
  LFU.evict_body c = Done c' → LFU.metrics c' = Deletes_Inc (LFU.metrics c).
Proof.
  unfold LFU.evict_body.
  destruct (LFU.freq c !! LFU.minFreq c) as [l|]; [|by intros [= <-]].
  destruct (Size l =? 0); [by intros [= <-]|].
  destruct (PopTail l) as [[p r]| |]; simpl; try done.
  destruct (deref (LFU.heap c) p) as [n| |]; simpl; try done.
  case_decide.
  - destruct (LFU.bucket _ _) as [v| |]; simpl; try done.
    destruct (Size v =? 0); simpl; by intros [= <-].
  - simpl. by intros [= <-].
Qed.

Lemma lfu_ranged_evict_body c c' :
  lfu_ranged c → LFU.evict_body c = Done c' → lfu_ranged c'.
Proof.
  intros [Hmin Hkeys]. unfold LFU.evict_body.
  assert (Hdrop : ∀ f c0, LFU.freq c0 = LFU.freq c ∨
                          (∃ r, LFU.freq c0 = <[LFU.minFreq c := r]> (LFU.freq c)
                                ∧ is_Some (LFU.freq c !! LFU.minFreq c)) →
                          lfu_ranged (LFU.drop_bucket f c0)).
  { intros f c0 Hc0. split; simpl; [apply int64_range|].
    intros g lg Hg. apply lookup_delete_Some in Hg as [_ Hg].
    destruct Hc0 as [E|(r & E & [l0 Hl0])]; rewrite E in Hg; [by eapply Hkeys|].
    apply lookup_insert_Some in Hg as [[<- _]|[_ Hg]]; by eapply Hkeys. }
  destruct (LFU.freq c !! LFU.minFreq c) as [l|] eqn:Hl.
  - destruct (Size l =? 0).
    + intros [= <-]. apply Hdrop. by left.
    + destruct (PopTail l) as [[p r]| |]; simpl; try done.
      destruct (deref (LFU.heap c) p) as [n| |]; simpl; try done.
      assert (Hkept : ∀ g lg, <[LFU.minFreq c := r]> (LFU.freq c) !! g = Some lg →
                              g ≤ max_int).
      { intros g lg Hg.
        apply lookup_insert_Some in Hg as [[<- _]|[_ Hg]]; by eapply Hkeys. }
      case_decide.
      * unfold LFU.bucket. simpl. rewrite lookup_insert_eq. simpl.
        destruct (Size r =? 0); simpl; intros [= <-].
        -- assert (Hr : lfu_ranged (LFU.drop_bucket (Freq n)
                   (LFU.set_freq (<[LFU.minFreq c := r]> (LFU.freq c))
                      (LFU.record Deletes_Inc c)))).
           { apply Hdrop. right. exists r. split; [done|]. eauto. }
           by destruct Hr.
        -- by split.
      * simpl. intros [= <-]. by split.
  - intros [= <-]. apply Hdrop. by left.
Qed.

Lemma lfu_floor_evict_body c c' :
  LFU.linked c → lfu_ranged c → lfu_floor c →
  LFU.evict_body c = Done c' → lfu_floor c'.
Proof.
  intros Hlk [Hmin Hmax] Hfl Hev.
  assert (Hnext : ∀ g lg, LFU.freq c !! g = Some lg → g ≠ LFU.minFreq c →
                          int64 (LFU.minFreq c + 1) ≤ g).
  { intros g lg Hg Hne. pose proof (Hfl _ _ Hg). pose proof (Hmax _ _ Hg).
    rewrite int64_small; lia. }
  destruct (lfu_evict_body_cases c Hlk) as [[_ E]|(r & t & n & Hl & _ & _ & E)];
    rewrite E in Hev; injection Hev as <-; intros g lg Hg.
  - simpl in *. apply lookup_delete_Some in Hg as [Hne Hg]. by eapply Hnext.
  - rewrite lfu_evicted_lookup in Hg. unfold lfu_evicted. simpl.
    case_decide as Hgm.
    + subst g. case_decide; [done|]. lia.
    + case_decide; [by eapply Hnext|by eapply Hfl].
Qed.

Lemma lfu_tight_evict_body c c' :
  LFU.linked c → lfu_tight c → LFU.evict_body c = Done c' → lfu_tight c'.
Proof.
  intros Hlk Ht Hev.
  destruct (lfu_evict_body_cases c Hlk) as [[Hmin E]|(r & t & n & Hl & Hn & Hfn & E)];
    rewrite E in Hev; injection Hev as <-.
  - intros f l p Hf Hp. simpl in Hf. apply lookup_delete_Some in Hf as [_ Hf].
    by eapply Ht.
  - assert (Hin : t ∈ r ++ [t]).
    { apply elem_of_app. right. by apply list_elem_of_singleton. }
    destruct (Ht _ _ _ Hl Hin) as (n' & Hn' & Hkn).
    assert (n' = n) as -> by congruence.
    pose proof (LFU.linked_NoDup _ Hlk _ _ Hl) as Hd.
    apply NoDup_app in Hd as (_ & Hnt & _).
    intros g lg q Hg Hq. change (LFU.heap (lfu_evicted c r n)) with (LFU.heap c).
    change (LFU.node (lfu_evicted c r n)) with (delete (Key n) (LFU.node c)).
    rewrite lfu_evicted_lookup in Hg.
    assert (Hold : ∃ f lf, LFU.freq c !! f = Some lf ∧ q ∈ lf ∧ q ≠ t).
    { case_decide as Hgm.
      - case_decide; [done|]. injection Hg as <-.
        exists (LFU.minFreq c), (r ++ [t]). split; [done|].
        split; [apply elem_of_app; by left|].
        intros ->. apply (Hnt t Hq). by apply list_elem_of_singleton.
      - exists g, lg. split; [done|]. split; [done|]. intros ->.
        destruct (LFU.linked_bucket _ Hlk _ _ _ Hg Hq) as (m & Hm & Hfm).
        congruence. }
    destruct Hold as (f & lf & Hf & Hqf & Hqt).
    destruct (Ht _ _ _ Hf Hqf) as (m & Hm & Hkm).
    exists m. split; [done|]. rewrite lookup_delete_ne; [done|].
    intros Ek. rewrite Ek in Hkn. congruence.
Qed.

(** One turn of the LFU loop on an engine without stale nodes: the node
    popped is indexed, so its bytes leave the size field and the resident
    total together. *)
Lemma lfu_counted_evict_body lenOf pending c c' :
  LFU.linked c → lfu_tight c → lfu_counted pending c ∧ lfu_lengths lenOf c →
  0 ≤ pending →
  LFU.evict_body c = Done c' →
  lfu_counted pending c' ∧ lfu_lengths lenOf c'.
Proof.
  intros Hlk Ht [[Hsz Hlt] Hlen] Hpend Hev.
  destruct (lfu_evict_body_cases c Hlk) as [[Hmin E]|(r & t & n & Hl & Hn & Hfn & E)];
    rewrite E in Hev; injection Hev as <-; [done|].
  assert (Hin : t ∈ r ++ [t]).
  { apply elem_of_app. right. by apply list_elem_of_singleton. }
  destruct (Ht _ _ _ Hl Hin) as (n' & Hn' & Hkn).
  assert (n' = n) as -> by congruence.
  split.
  - unfold lfu_counted, LFU.resident_bytes in *.
    change (LFU.heap (lfu_evicted c r n)) with (LFU.heap c).
    change (LFU.node (lfu_evicted c r n)) with (delete (Key n) (LFU.node c)).
    change (LFU.size (lfu_evicted c r n)) with (u64 (LFU.size c - len (Value n))).
    rewrite (total_delete _ _ _ _ Hkn), (weigh_Some _ _ _ Hn) in Hsz.
    pose proof (total_nonneg (LFU.heap c) (delete (Key n) (LFU.node c))).
    pose proof (len_nonneg (Value n)).
    rewrite u64_small by lia. split; lia.
  - intros k p m Hk Hm.
    change (delete (Key n) (LFU.node c) !! k = Some p) in Hk.
    apply lookup_delete_Some in Hk as [_ Hk]. by eapply Hlen.
Qed.

(** The entry a turn of the loop evicts, on an engine without stale
    nodes: the node popped is the tail of the bucket at [minFreq], it is
    the entry its key indexes, and no resident entry has a smaller
    frequency. *)
Lemma lfu_evict_body_victim c c' :
  LFU.linked c → lfu_tight c → lfu_floor c →
  LFU.evict_body c = Done c' →
  LFU.node c' = LFU.node c ∨
  ∃ r t n,
    LFU.freq c !! LFU.minFreq c = Some (r ++ [t]) ∧
    LFU.heap c !! t = Some n ∧ Freq n = LFU.minFreq c ∧
    LFU.node c !! Key n = Some t ∧
    LFU.node c' = delete (Key n) (LFU.node c) ∧
    ∀ k q m, LFU.node c !! k = Some q → LFU.heap c !! q = Some m →
             Freq n ≤ Freq m.
Proof.
  intros Hlk Ht Hfl Hev.
  destruct (lfu_evict_body_cases c Hlk) as [[_ E]|(r & t & n & Hl & Hn & Hfn & E)];
    rewrite E in Hev; injection Hev as <-; [by left|right].
  exists r, t, n. repeat (split; [done|]).
  assert (Hin : t ∈ r ++ [t]).
  { apply elem_of_app. right. by apply list_elem_of_singleton. }
  destruct (Ht _ _ _ Hl Hin) as (n' & Hn' & Hkn).
  assert (n' = n) as -> by congruence.
  split; [done|]. split; [done|].
  intros k q m Hq Hm.
  destruct (LFU.linked_node _ Hlk _ _ Hq) as (m' & Hm' & _ & lm & Hlm & _).
  assert (m' = m) as -> by congruence.
  rewrite Hfn. by eapply Hfl.
Qed.

(** ** The LFU engine: the eviction loop *)

(** The loop of Put, for any property its body preserves: the property
    holds when the loop ends, and the loop ends with size within capacity. *)
Lemma lfu_evict_ind (P : LFU.LFUCache → Prop) :
  (∀ c c', P c → LFU.capacity c < LFU.size c → LFU.evict_body c = Done c' → P c') →
  ∀ fuel c c', P c → LFU.evict fuel c = Done c' →
  P c' ∧ LFU.size c' ≤ LFU.capacity c'.
Proof.
  intros Hbody. induction fuel as [|fuel IH]; intros c c' HP; simpl.
  - destruct (Z.ltb_spec (LFU.capacity c) (LFU.size c)); [done|].
    by intros [= <-].
  - destruct (Z.ltb_spec (LFU.capacity c) (LFU.size c)); [|by intros [= <-]].
    destruct (LFU.evict_body c) as [c1| |] eqn:E; simpl; try done.
    apply IH. by eapply Hbody.
Qed.

Lemma lfu_evict_within fuel c :
  LFU.size c ≤ LFU.capacity c → LFU.evict fuel c = Done c.
Proof.
  intros H. destruct fuel; simpl;
    destruct (Z.ltb_spec (LFU.capacity c) (LFU.size c)); done || lia.
Qed.

(** Once nothing is left in any bucket, the loop of the LFU Put only
    advances [minFreq]: while size exceeds capacity it never ends. *)
Lemma lfu_evict_spins fuel : ∀ c,
  (∀ f l, LFU.freq c !! f = Some l → l = []) →
  LFU.capacity c < LFU.size c →
  LFU.evict fuel c = OutOfFuel.
Proof.
  induction fuel as [|fuel IH]; intros c Hempty Hover; simpl.
  - destruct (Z.ltb_spec (LFU.capacity c) (LFU.size c)); [done|lia].
  - destruct (Z.ltb_spec (LFU.capacity c) (LFU.size c)); [|lia].
    assert (E : LFU.evict_body c = Done (lfu_skipped c)).
    { unfold LFU.evict_body.
      destruct (LFU.freq c !! LFU.minFreq c) as [l|] eqn:Hl; [|done].
      by rewrite (Hempty _ _ Hl). }
    rewrite E. simpl. apply IH; [|done].
    intros f l Hl. simpl in Hl. apply lookup_delete_Some in Hl as [_ Hl].
    by eapply Hempty.
Qed.

(** More iterations than a call needed change nothing. *)
Lemma lfu_evict_mono fuel : ∀ fuel' c c',
  (fuel ≤ fuel')%nat → LFU.evict fuel c = Done c' → LFU.evict fuel' c = Done c'.
Proof.
  induction fuel as [|fuel IH]; intros fuel' c c' Hle; simpl.
  - destruct (Z.ltb_spec (LFU.capacity c) (LFU.size c)); [done|].
    intros [= <-]. by apply lfu_evict_within.
  - destruct fuel' as [|fuel']; [lia|]. simpl.
    destruct (LFU.capacity c <? LFU.size c); [|done].
    destruct (LFU.evict_body c) as [c1| |]; simpl; try done.
    apply IH. lia.
Qed.

(** The loop run by [evict] is a sequence of such turns. *)
Lemma lfu_evict_turns fuel : ∀ c c',
  LFU.evict fuel c = Done c' → lfu_turns c c'.
Proof.
  induction fuel as [|fuel IH]; intros c c'; simpl.
  - destruct (LFU.capacity c <? LFU.size c); [done|].
    intros [= <-]. apply rtc_refl.
  - destruct (Z.ltb_spec (LFU.capacity c) (LFU.size c)); [|intros [= <-]; apply rtc_refl].
    destruct (LFU.evict_body c) as [c1| |] eqn:E; simpl; try done.
    intros Hev. eapply rtc_l; [|by apply IH]. done.
Qed.

Lemma lfu_turns_invariant c c0 :
  LFU.linked c ∧ lfu_tight c ∧ lfu_ranged c ∧ lfu_floor c →
  lfu_turns c c0 →
  LFU.linked c0 ∧ lfu_tight c0 ∧ lfu_ranged c0 ∧ lfu_floor c0.
Proof.
  intros Hinv Hturns. unfold lfu_turns in Hturns.
  induction Hturns as [c2|c2 c3 c4 [_ Hb] _ IH]; [done|].
  destruct Hinv as (Hlk & Ht & Hrg & Hfl). apply IH.
  split; [by eapply lfu_linked_evict_body|].
  split; [by eapply lfu_tight_evict_body|].
  split; [by eapply lfu_ranged_evict_body|].
  by eapply lfu_floor_evict_body.
Qed.

Lemma lfu_evict_metrics fuel c c' :
  LFU.evict fuel c = Done c' →
  Hits (LFU.metrics c') = Hits (LFU.metrics c) ∧
  Miss (LFU.metrics c') = Miss (LFU.metrics c) ∧
  Adds (LFU.metrics c') = Adds (LFU.metrics c).
Proof.
  intros Hev.
  eapply (lfu_evict_ind (λ c1,
            Hits (LFU.metrics c1) = Hits (LFU.metrics c) ∧
            Miss (LFU.metrics c1) = Miss (LFU.metrics c) ∧
            Adds (LFU.metrics c1) = Adds (LFU.metrics c)))
    in Hev as [? _]; [done| |done].
  intros c1 c2 (H1 & H2 & H3) _ Hb.
  apply lfu_evict_body_metrics in Hb as ->. by simpl.
Qed.

(** ** The LFU engine: what Get, Put and Delete compute *)

Lemma lfu_linked_record c f : LFU.linked c → LFU.linked (LFU.record f c).
Proof. by intros []. Qed.

Lemma lfu_linked_set_size c z : LFU.linked c → LFU.linked (LFU.set_size z c).
Proof. by intros []. Qed.

(** Overwriting the value of a node does not disturb the links. *)
Lemma lfu_linked_set_Value c p n value :
  LFU.linked c → LFU.heap c !! p = Some n →
  LFU.linked (LFU.set_heap (<[p := set_Value value n]> (LFU.heap c)) c).
Proof.
  intros [Hnode Hbucket Hdup Hfresh] Hn.
  assert (Hh : ∀ q m, LFU.heap c !! q = Some m →
    ∃ m', <[p := set_Value value n]> (LFU.heap c) !! q = Some m' ∧
          Key m' = Key m ∧ Freq m' = Freq m).
  { intros q m Hm. destruct (decide (q = p)) as [->|Hne].
    - rewrite lookup_insert_eq. assert (m = n) as -> by congruence. eauto.
    - rewrite lookup_insert_ne by done. eauto. }
  split; simpl.
  - intros k q Hk. destruct (Hnode k q Hk) as (m & Hm & Hkm & lm & Hlm & Hin).
    destruct (Hh q m Hm) as (m' & Hm' & Hk' & Hf').
    exists m'. split; [done|]. split; [congruence|]. rewrite Hf'. eauto.
  - intros f l q Hl Hq. destruct (Hbucket f l q Hl Hq) as (m & Hm & Hfm).
    destruct (Hh q m Hm) as (m' & Hm' & Hk' & Hf').
    exists m'. split; [done|]. congruence.
  - done.
  - intros q [m Hq]. apply Hfresh.
    destruct (decide (q = p)) as [->|Hne]; [by eauto|].
    rewrite lookup_insert_ne in Hq by done. eauto.
Qed.

Lemma lfu_linked_set_node_delete c key :
  LFU.linked c → LFU.linked (LFU.set_node (delete key (LFU.node c)) c).
Proof.
  intros [Hnode Hbucket Hdup Hfresh]. split; simpl; try done.
  intros k p Hk. apply lookup_delete_Some in Hk as [_ Hk]. by apply Hnode.
Qed.

Lemma lfu_linked_update c key p :
  LFU.linked c → LFU.node c !! key = Some p →
  ∃ n l, LFU.heap c !! p = Some n ∧ Key n = key ∧
         LFU.freq c !! Freq n = Some l ∧ p ∈ l ∧
         LFU.update p c = Done (lfu_touched c p n l) ∧
         LFU.linked (lfu_touched c p n l).
Proof.
  intros Hlk Hk.
  destruct (LFU.linked_node _ Hlk _ _ Hk) as (n & Hn & Hkn & l & Hl & Hp).
  exists n, l. repeat (split; [done|]).
  split; [by apply lfu_update_Done|by apply lfu_touched_linked].
Qed.

(** Get on a resident key of a linked engine: a hit, and a touch. *)
Lemma lfu_Get_hit c key p :
  LFU.linked c → LFU.node c !! key = Some p →
  ∃ n l, LFU.heap c !! p = Some n ∧ Key n = key ∧
         LFU.freq c !! Freq n = Some l ∧ p ∈ l ∧
         LFU.Get c key =
         Done (Value n, true, lfu_touched (LFU.record Hits_Inc c) p n l).
Proof.
  intros Hlk Hk.
  destruct (lfu_linked_update (LFU.record Hits_Inc c) key p)
    as (n & l & Hn & Hkn & Hl & Hp & Hup & _); [by apply lfu_linked_record|done|].
  exists n, l. repeat (split; [done|]).
  unfold LFU.Get. rewrite Hk, Hup. simpl.
  unfold deref, lfu_touched. simpl. by rewrite lookup_insert_eq.
Qed.

Lemma lfu_Get_miss c k :
  LFU.node c !! k = None → ∃ c', LFU.Get c k = Done (""%string, false, c').
Proof. intros Hk. unfold LFU.Get. rewrite Hk. eauto. Qed.

(** Get on a linked engine returns the value held under the key, or
    not-found for a key that is not in the index. *)
Lemma lfu_Get_holds c k v :
  LFU.linked c → lfu_holds c k v → ∃ c', LFU.Get c k = Done (v, true, c').
Proof.
  intros Hlk (p & n & Hp & Hn & Hv).
  destruct (lfu_Get_hit c k p Hlk Hp) as (n' & l & Hn' & _ & _ & _ & ->).
  assert (n' = n) as -> by congruence. rewrite Hv. eauto.
Qed.

Lemma lfu_Put_new fuel c key value :
  LFU.capacity c ≠ 0 → LFU.node c !! key = None →
  LFU.Put fuel c key value =
  c1 ← LFU.evict fuel (LFU.set_size (u64 (LFU.size c + len value)) c);
  Done (true, lfu_inserted c1 key value).
Proof.
  intros Hcap Hk. unfold LFU.Put.
  destruct (Z.eqb_spec (LFU.capacity c) 0); [done|]. rewrite Hk.
  destruct (LFU.evict _ _) as [c1| |]; simpl; try done.
  by rewrite lfu_add_to_ensured_bucket.
Qed.

(** Put on a resident key of a linked engine (of capacity other than 0):
    a hit, a touch, and the value overwritten in place. *)
Lemma lfu_Put_existing fuel c key value p :
  LFU.linked c → LFU.capacity c ≠ 0 → LFU.node c !! key = Some p →
  ∃ n l, LFU.heap c !! p = Some n ∧ Key n = key ∧
         LFU.freq c !! Freq n = Some l ∧ p ∈ l ∧
         LFU.Put fuel c key value =
         Done (false,
               LFU.set_heap
                 (<[p := set_Value value (set_Freq (int64 (Freq n + 1)) n)]>
                    (LFU.heap (lfu_touched (LFU.record Hits_Inc c) p n l)))
                 (lfu_touched (LFU.record Hits_Inc c) p n l)).
Proof.
  intros Hlk Hcap Hk.
  destruct (lfu_linked_update (LFU.record Hits_Inc c) key p)
    as (n & l & Hn & Hkn & Hl & Hp & Hup & _); [by apply lfu_linked_record|done|].
  exists n, l. repeat (split; [done|]).
  unfold LFU.Put. destruct (Z.eqb_spec (LFU.capacity c) 0); [done|].
  rewrite Hk, Hup. simpl.
  unfold deref. unfold lfu_touched at 1. simpl. by rewrite lookup_insert_eq.
Qed.

Lemma lfu_Put_mono fuel fuel' c key value r :
  (fuel ≤ fuel')%nat →
  LFU.Put fuel c key value = Done r → LFU.Put fuel' c key value = Done r.
Proof.
  intros Hle. unfold LFU.Put.
  destruct (LFU.capacity c =? 0); [done|].
  destruct (LFU.node c !! key); [done|].
  destruct (LFU.evict fuel _) as [c1| |] eqn:Hev; simpl; try done.
  by rewrite (lfu_evict_mono _ _ _ _ Hle Hev).
Qed.

(** Delete on a resident key of a linked engine: the bucket of the node
    still holds it, so the clean-up branch is not taken. *)
Lemma lfu_Delete_present c key p :
  LFU.linked c → LFU.node c !! key = Some p →
  LFU.Delete c key = Done (true, LFU.set_node (delete key (LFU.node c)) c).
Proof.
  intros Hlk Hk.
  destruct (LFU.linked_node _ Hlk _ _ Hk) as (n & Hn & Hkn & l & Hl & Hp).
  unfold LFU.Delete. rewrite Hk. unfold deref. rewrite Hn. simpl.
  case_decide as Hmin; [|done].
  unfold LFU.bucket. rewrite Hmin, Hl. simpl.
  rewrite Size_0, bool_decide_false; [done|].
  intros ->. by apply not_elem_of_nil in Hp.
Qed.

Lemma lfu_index_not_fresh c k p :
  LFU.linked c → LFU.node c !! k = Some p → LFU.next c ≠ p.
Proof.
  intros Hlk Hk <-. destruct (LFU.linked_node _ Hlk _ _ Hk) as (n & Hn & _).
  pose proof (LFU.linked_fresh _ Hlk (LFU.next c) ltac:(eauto)). lia.
Qed.

Lemma lfu_inserted_linked c key value :
  LFU.linked c → LFU.linked (lfu_inserted c key value).
Proof.
  intros [Hnode Hbucket Hdup Hfresh].
  assert (Hnew : LFU.heap c !! LFU.next c = None).
  { destruct (LFU.heap c !! LFU.next c) eqn:E; [|done].
    specialize (Hfresh (LFU.next c) ltac:(eauto)). lia. }
  assert (Hnb : ∀ f l, LFU.freq c !! f = Some l → LFU.next c ∉ l).
  { intros f l Hl Hin. destruct (Hbucket _ _ _ Hl Hin) as (m & Hm & _). congruence. }
  split; simpl.
  - intros k q Hq. apply lookup_insert_Some in Hq as [[<- <-]|[Hne Hq]].
    + rewrite lookup_insert_eq. eexists. split; [done|]. split; [done|]. simpl.
      rewrite lookup_insert_eq. eexists. split; [done|]. left.
    + destruct (Hnode k q Hq) as (m & Hm & Hkm & lm & Hlm & Hin).
      rewrite lookup_insert_ne by (intros <-; congruence).
      exists m. split; [done|]. split; [done|].
      destruct (decide (Freq m = 1)) as [E|E].
      * rewrite E in *. rewrite lookup_insert_eq, Hlm. simpl.
        eexists. split; [done|]. by right.
      * rewrite lookup_insert_ne by done. eauto.
  - intros f l q Hl Hq. apply lookup_insert_Some in Hl as [[<- <-]|[Hne Hl]].
    + apply elem_of_cons in Hq as [->|Hq].
      * rewrite lookup_insert_eq. eauto.
      * destruct (LFU.freq c !! 1) as [l1|] eqn:Hl1; simpl in Hq;
          [|by apply not_elem_of_nil in Hq].
        rewrite lookup_insert_ne by (intros <-; by eapply Hnb).
        by eapply Hbucket.
    + rewrite lookup_insert_ne by (intros <-; by eapply Hnb).
      by eapply Hbucket.
  - intros f l Hl. apply lookup_insert_Some in Hl as [[<- <-]|[Hne Hl]].
    + destruct (LFU.freq c !! 1) as [l1|] eqn:Hl1; simpl.
      * constructor; [by eapply Hnb|by eapply Hdup].
      * constructor; [apply not_elem_of_nil|constructor].
    + by eapply Hdup.
  - intros q [m Hq]. destruct (decide (q = LFU.next c)) as [->|Hne]; [lia|].
    rewrite lookup_insert_ne in Hq by done.
    specialize (Hfresh q ltac:(eauto)). lia.
Qed.

Lemma lfu_inserted_ordered c key value :
  lfu_positive c → LFU.ordered (lfu_inserted c key value).
Proof.
  intros Hpos. split; simpl.
  - intros f l Hl. apply lookup_insert_Some in Hl as [[<- _]|[_ Hl]]; [lia|].
    specialize (Hpos _ _ Hl). lia.
  - intros _. rewrite lookup_insert_eq. eauto.
Qed.

Lemma lfu_tight_inserted c key value :
  LFU.linked c → LFU.node c !! key = None → lfu_tight c →
  lfu_tight (lfu_inserted c key value).
Proof.
  intros Hlk Hk Ht f l p Hf Hp. simpl in *.
  assert (Hnew : LFU.heap c !! LFU.next c = None).
  { destruct (LFU.heap c !! LFU.next c) eqn:E; [|done].
    pose proof (LFU.linked_fresh _ Hlk (LFU.next c) ltac:(eauto)). lia. }
  assert (Hold : ∀ lf g, LFU.freq c !! g = Some lf → p ∈ lf →
    ∃ n, <[LFU.next c := {| Key := key; Value := value; Freq := 1 |}]> (LFU.heap c)
           !! p = Some n ∧
         <[key := LFU.next c]> (LFU.node c) !! Key n = Some p).
  { intros lf g Hg Hpg. destruct (Ht _ _ _ Hg Hpg) as (m & Hm & Hkm).
    exists m. rewrite lookup_insert_ne by (intros <-; congruence).
    split; [done|]. rewrite lookup_insert_ne; [done|]. intros Ek. congruence. }
  apply lookup_insert_Some in Hf as [[<- <-]|[Hne Hf]]; [|by eauto].
  apply elem_of_cons in Hp as [->|Hp].
  - rewrite lookup_insert_eq. eexists. split; [done|]. simpl.
    by rewrite lookup_insert_eq.
  - destruct (LFU.freq c !! 1) as [l1|] eqn:Hl1; simpl in Hp;
      [by eauto|by apply not_elem_of_nil in Hp].
Qed.

(** The tail of Put: the pending bytes become resident. *)
Lemma lfu_inserted_counted lenOf c key value :
  LFU.linked c → LFU.node c !! key = None → len value = lenOf key →
  lfu_counted (len value) c ∧ lfu_lengths lenOf c →
  lfu_counted 0 (lfu_inserted c key value) ∧
  lfu_lengths lenOf (lfu_inserted c key value).
Proof.
  intros Hlk Hk Hv [[Hsz Hlt] Hlen]. split.
  - unfold lfu_counted, LFU.resident_bytes in *. simpl. split; [|done].
    rewrite total_insert by done. rewrite weigh_insert_eq. simpl.
    rewrite total_ext with (heap := LFU.heap c); [lia|].
    intros k p Hp. apply weigh_insert_ne. by eapply lfu_index_not_fresh.
  - intros k p n Hp Hn. simpl in Hp, Hn.
    apply lookup_insert_Some in Hp as [[<- <-]|[Hne Hp]].
    + rewrite lookup_insert_eq in Hn. by injection Hn as <-.
    + rewrite lookup_insert_ne in Hn by by eapply lfu_index_not_fresh.
      by eapply Hlen.
Qed.

(** Get and Put leave no stale node behind. *)
Lemma lfu_tight_set_Value c p n value :
  lfu_tight c → LFU.heap c !! p = Some n →
  lfu_tight (LFU.set_heap (<[p := set_Value value n]> (LFU.heap c)) c).
Proof.
  intros Ht Hn f l q Hf Hq. simpl in *. destruct (Ht f l q Hf Hq) as (m & Hm & Hkm).
  destruct (decide (q = p)) as [->|Hne].
  - rewrite lookup_insert_eq. assert (m = n) as -> by congruence. eauto.
  - rewrite lookup_insert_ne by done. eauto.
Qed.

(** Overwriting a value with one of the same length. *)
Lemma lfu_set_Value_counted lenOf pending c key p n value :
  LFU.linked c → LFU.node c !! key = Some p → LFU.heap c !! p = Some n →
  len value = lenOf key →
  lfu_counted pending c ∧ lfu_lengths lenOf c →
  let c' := LFU.set_heap (<[p := set_Value value n]> (LFU.heap c)) c in
  lfu_counted pending c' ∧ lfu_lengths lenOf c'.
Proof.
  intros Hlk Hk Hn Hv [[Hsz Hlt] Hlen]. simpl. split.
  - split; [|done]. unfold LFU.resident_bytes in *. simpl.
    rewrite Hsz. f_equal. symmetry. apply total_ext. intros k q Hq.
    destruct (decide (q = p)) as [->|Hne].
    + rewrite weigh_insert_eq, (weigh_Some _ _ _ Hn). simpl.
      rewrite (Hlen _ _ _ Hk Hn). done.
    + by rewrite weigh_insert_ne.
  - intros k q m Hq Hm. simpl in Hq, Hm.
    destruct (decide (q = p)) as [->|Hne].
    + rewrite lookup_insert_eq in Hm. injection Hm as <-. simpl.
      destruct (LFU.linked_node _ Hlk _ _ Hq) as (n1 & Hn1 & Hk1 & _).
      destruct (LFU.linked_node _ Hlk _ _ Hk) as (n2 & Hn2 & Hk2 & _).
      congruence.
    + rewrite lookup_insert_ne in Hm by done. by eapply Hlen.
Qed.

(** ** The LFU engine: invariants of the calls *)

Lemma lfu_linked_New capacity : LFU.linked (LFU.NewCache capacity).
Proof.
  split; simpl.
  - intros k p H. by rewrite lookup_empty in H.
  - intros f l p H. by rewrite lookup_empty in H.
  - intros f l H. by rewrite lookup_empty in H.
  - intros p [n H]. by rewrite lookup_empty in H.
Qed.

Lemma lfu_linked_Get c key value ok c' :
  LFU.linked c → LFU.Get c key = Done (value, ok, c') → LFU.linked c'.
Proof.
  intros Hlk. destruct (LFU.node c !! key) as [p|] eqn:Hk.
  - destruct (lfu_Get_hit c key p Hlk Hk) as (n & l & Hn & _ & Hl & Hp & ->).
    intros [= _ _ <-]. apply lfu_touched_linked; try done.
    by apply lfu_linked_record.
  - unfold LFU.Get. rewrite Hk. intros [= _ _ <-]. by apply lfu_linked_record.
Qed.

Lemma lfu_linked_Put fuel c key value created c' :
  LFU.linked c → LFU.Put fuel c key value = Done (created, c') → LFU.linked c'.
Proof.
  intros Hlk. destruct (decide (LFU.capacity c = 0)) as [Hcap|Hcap].
  { unfold LFU.Put. rewrite Hcap. simpl. by intros [= _ <-]. }
  destruct (LFU.node c !! key) as [p|] eqn:Hk.
  - destruct (lfu_Put_existing fuel c key value p Hlk Hcap Hk)
      as (n & l & Hn & _ & Hl & Hp & ->).
    intros [= _ <-]. apply lfu_linked_set_Value.
    + apply lfu_touched_linked; try done. by apply lfu_linked_record.
    + unfold lfu_touched. simpl. by rewrite lookup_insert_eq.
  - rewrite lfu_Put_new by done.
    destruct (LFU.evict _ _) as [c1| |] eqn:Hev; simpl; try done.
    intros [= _ <-]. apply lfu_inserted_linked.
    eapply (lfu_evict_ind LFU.linked); [|by apply lfu_linked_set_size|exact Hev].
    intros ? ? ? _. by apply lfu_linked_evict_body.
Qed.

Lemma lfu_linked_Delete c key ok c' :
  LFU.linked c → LFU.Delete c key = Done (ok, c') → LFU.linked c'.
Proof.
  intros Hlk. destruct (LFU.node c !! key) as [p|] eqn:Hk.
  - rewrite (lfu_Delete_present c key p Hlk Hk). intros [= _ <-].
    by apply lfu_linked_set_node_delete.
  - unfold LFU.Delete. rewrite Hk. by intros [= _ <-].
Qed.

Lemma lfu_linked_exec fuel c op c' :
  LFU.linked c → LFU.exec fuel c op = Done c' → LFU.linked c'.
Proof.
  intros Hlk. destruct op as [key|key value|key]; simpl.
  - destruct (LFU.Get c key) as [[[v ok] c1]| |] eqn:E; simpl; try done.
    intros [= <-]. by eapply lfu_linked_Get.
  - destruct (LFU.Put fuel c key value) as [[ok c1]| |] eqn:E; simpl; try done.
    intros [= <-]. by eapply lfu_linked_Put.
  - destruct (LFU.Delete c key) as [[ok c1]| |] eqn:E; simpl; try done.
    intros [= <-]. by eapply lfu_linked_Delete.
Qed.

Lemma lfu_reachable_linked capacity c : LFU.reachable capacity c → LFU.linked c.
Proof.
  induction 1; eauto using lfu_linked_New, lfu_linked_exec.
Qed.

Lemma lfu_run_reachable capacity fuel ops : ∀ c c',
  LFU.reachable capacity c → LFU.run fuel c ops = Done c' →
  LFU.reachable capacity c'.
Proof.
  induction ops as [|op ops IH]; intros c c' Hr; simpl.
  - by intros [= <-].
  - destruct (LFU.exec fuel c op) as [c1| |] eqn:E; simpl; try done.
    apply IH. by eapply LFU.reach_exec.
Qed.

Lemma lfu_ordered_New capacity : LFU.ordered (LFU.NewCache capacity).
Proof.
  split; simpl.
  - intros f l H. by rewrite lookup_empty in H.
  - done.
Qed.

Lemma lfu_ordered_positive c : LFU.ordered c → lfu_positive c.
Proof. intros [Hkeys _] f l Hl. by destruct (Hkeys f l Hl). Qed.

Lemma lfu_ordered_Get c key value ok c' :
  LFU.linked c → LFU.ordered c → LFU.below_max c →
  LFU.Get c key = Done (value, ok, c') → LFU.ordered c'.
Proof.
  intros Hlk Hord Hmax. destruct (LFU.node c !! key) as [p|] eqn:Hk.
  - destruct (lfu_Get_hit c key p Hlk Hk) as (n & l & Hn & _ & Hl & Hp & ->).
    intros [= _ _ <-]. apply lfu_touched_ordered; try done.
    + by apply lfu_linked_record.
    + by destruct Hord.
    + by eapply Hmax.
  - unfold LFU.Get. rewrite Hk. intros [= _ _ <-]. by destruct Hord.
Qed.

Lemma lfu_ordered_Put fuel c key value created c' :
  LFU.linked c → LFU.ordered c → LFU.below_max c →
  LFU.Put fuel c key value = Done (created, c') → LFU.ordered c'.
Proof.
  intros Hlk Hord Hmax. destruct (decide (LFU.capacity c = 0)) as [Hcap|Hcap].
  { unfold LFU.Put. rewrite Hcap. simpl. by intros [= _ <-]. }
  destruct (LFU.node c !! key) as [p|] eqn:Hk.
  - destruct (lfu_Put_existing fuel c key value p Hlk Hcap Hk)
      as (n & l & Hn & _ & Hl & Hp & ->).
    intros [= _ <-].
    assert (Ht : LFU.ordered (lfu_touched (LFU.record Hits_Inc c) p n l)).
    { apply lfu_touched_ordered; try done.
      - by apply lfu_linked_record.
      - by destruct Hord.
      - by eapply Hmax. }
    by destruct Ht.
  - rewrite lfu_Put_new by done.
    destruct (LFU.evict _ _) as [c1| |] eqn:Hev; simpl; try done.
    intros [= _ <-]. apply lfu_inserted_ordered.
    eapply (lfu_evict_ind (λ c, LFU.linked c ∧ lfu_positive c)) in Hev as [[_ ?] _];
      [done| |].
    + intros ? ? ? _. by apply lfu_positive_evict_body.
    + split; [by apply lfu_linked_set_size|]. by apply lfu_ordered_positive in Hord.
Qed.

Lemma lfu_ordered_Delete c key ok c' :
  LFU.linked c → LFU.ordered c →
  LFU.Delete c key = Done (ok, c') → LFU.ordered c'.
Proof.
  intros Hlk Hord. destruct (LFU.node c !! key) as [p|] eqn:Hk.
  - rewrite (lfu_Delete_present c key p Hlk Hk). intros [= _ <-]. by destruct Hord.
  - unfold LFU.Delete. rewrite Hk. by intros [= _ <-].
Qed.

Lemma lfu_ordered_exec fuel c op c' :
  LFU.linked c → LFU.ordered c → LFU.below_max c →
  LFU.exec fuel c op = Done c' → LFU.ordered c'.
Proof.
  intros Hlk Hord Hmax. destruct op as [key|key value|key]; simpl.
  - destruct (LFU.Get c key) as [[[v ok] c1]| |] eqn:E; simpl; try done.
    intros [= <-]. by eapply lfu_ordered_Get.
  - destruct (LFU.Put fuel c key value) as [[ok c1]| |] eqn:E; simpl; try done.
    intros [= <-]. by eapply lfu_ordered_Put.
  - destruct (LFU.Delete c key) as [[ok c1]| |] eqn:E; simpl; try done.
    intros [= <-]. by eapply lfu_ordered_Delete.
Qed.

(** What the links and the bookkeeping of the minimum say in the words of
    the structural invariant. *)
Lemma lfu_structure c :
  LFU.linked c → LFU.ordered c →
  LFU.in_own_bucket c ∧ LFU.min_is_least c ∧ LFU.min_bucket_inhabited c.
Proof.
  intros [Hnode Hbucket Hdup Hfresh] [Hkeys Hmin]. split; [|split].
  - intros k p Hk. destruct (Hnode k p Hk) as (n & Hn & _ & l & Hl & Hp).
    exists n. split; [done|]. split; [by eauto|].
    intros f l' Hl'. split.
    + intros Hin. destruct (Hbucket _ _ _ Hl' Hin) as (m & Hm & Hfm). congruence.
    + intros ->. congruence.
  - intros Hne. destruct (Hmin Hne) as (l & Hl & _). split; [by eauto|].
    intros f l' Hl'. by destruct (Hkeys f l' Hl').
  - intros l Hl. destruct Hmin as (l' & Hl' & Hne).
    + intros E. by rewrite E in Hl.
    + congruence.
Qed.

Lemma lfu_ranged_New capacity : lfu_ranged (LFU.NewCache capacity).
Proof.
  split; simpl; [lia|]. intros f l H. by rewrite lookup_empty in H.
Qed.

Lemma lfu_ranged_exec fuel c op c' :
  LFU.linked c → lfu_ranged c → LFU.exec fuel c op = Done c' → lfu_ranged c'.
Proof.
  intros Hlk Hrg. destruct op as [key|key value|key]; simpl.
  - destruct (LFU.node c !! key) as [p|] eqn:Hk.
    + destruct (lfu_Get_hit c key p Hlk Hk) as (n & l & Hn & _ & Hl & Hp & ->).
      simpl. intros [= <-]. by apply lfu_ranged_touched.
    + unfold LFU.Get. rewrite Hk. simpl. by intros [= <-].
  - destruct (decide (LFU.capacity c = 0)) as [Hcap|Hcap].
    { unfold LFU.Put. rewrite Hcap. simpl. by intros [= <-]. }
    destruct (LFU.node c !! key) as [p|] eqn:Hk.
    + destruct (lfu_Put_existing fuel c key value p Hlk Hcap Hk)
        as (n & l & Hn & _ & Hl & Hp & ->).
      simpl. intros [= <-].
      by destruct (lfu_ranged_touched (LFU.record Hits_Inc c) p n l Hl Hrg).
    + rewrite lfu_Put_new by done.
      destruct (LFU.evict _ _) as [c1| |] eqn:Hev; simpl; try done.
      intros [= <-].
      eapply (lfu_evict_ind lfu_ranged) in Hev as [[_ Hkeys] _]; [| |exact Hrg].
      * split; simpl; [lia|]. intros g lg Hg.
        apply lookup_insert_Some in Hg as [[<- _]|[_ Hg]]; [done|by eapply Hkeys].
      * intros ? ? ? _. by apply lfu_ranged_evict_body.
  - destruct (LFU.node c !! key) as [p|] eqn:Hk.
    + rewrite (lfu_Delete_present c key p Hlk Hk). simpl. by intros [= <-].
    + unfold LFU.Delete. rewrite Hk. simpl. by intros [= <-].
Qed.

Lemma lfu_tight_New capacity : lfu_tight (LFU.NewCache capacity).
Proof. intros f l p Hf. simpl in Hf. by rewrite lookup_empty in Hf. Qed.

Lemma lfu_tight_Get c key value ok c' :
  LFU.linked c → lfu_tight c → LFU.Get c key = Done (value, ok, c') → lfu_tight c'.
Proof.
  intros Hlk Ht. destruct (LFU.node c !! key) as [p|] eqn:Hk.
  - destruct (lfu_Get_hit c key p Hlk Hk) as (n & l & Hn & _ & Hl & Hp & ->).
    intros [= _ _ <-]. by apply lfu_touched_tight.
  - unfold LFU.Get. rewrite Hk. by intros [= _ _ <-].
Qed.

Lemma lfu_tight_Put fuel c key value created c' :
  LFU.linked c → lfu_tight c →
  LFU.Put fuel c key value = Done (created, c') → lfu_tight c'.
Proof.
  intros Hlk Ht. destruct (decide (LFU.capacity c = 0)) as [Hcap|Hcap].
  { unfold LFU.Put. rewrite Hcap. simpl. by intros [= _ <-]. }
  destruct (LFU.node c !! key) as [p|] eqn:Hk.
  - destruct (lfu_Put_existing fuel c key value p Hlk Hcap Hk)
      as (n & l & Hn & _ & Hl & Hp & ->).
    intros [= _ <-]. apply lfu_tight_set_Value.
    + by apply lfu_touched_tight.
    + unfold lfu_touched. simpl. by rewrite lookup_insert_eq.
  - rewrite lfu_Put_new by done.
    destruct (LFU.evict _ _) as [c1| |] eqn:Hev; simpl; try done.
    intros [= _ <-].
    eapply (lfu_evict_ind
              (λ c, LFU.linked c ∧ LFU.node c !! key = None ∧ lfu_tight c))
      in Hev as [(Hlk1 & Hk1 & Ht1) _].
    + by apply lfu_tight_inserted.
    + intros c2 c3 (Hlk2 & Hk2 & Ht2) _ Hb.
      split; [by eapply lfu_linked_evict_body|].
      split; [by apply (lfu_evict_body_size_range _ _ Hb)|].
      by eapply lfu_tight_evict_body.
    + split; [by apply lfu_linked_set_size|]. by split.
Qed.

(** Size stays a valid byte count and the capacity never changes. *)
Lemma lfu_Put_size_range fuel c key value created c' :
  0 ≤ LFU.size c ≤ LFU.capacity c →
  LFU.Put fuel c key value = Done (created, c') →
  0 ≤ LFU.size c' ≤ LFU.capacity c' ∧ LFU.capacity c' = LFU.capacity c.
Proof.
  intros Hsz. unfold LFU.Put. destruct (LFU.capacity c =? 0); [by intros [= _ <-]|].
  destruct (LFU.node c !! key) as [p|]; simpl.
  - destruct (LFU.update p _) as [c1| |] eqn:Hup; simpl; try done.
    apply lfu_update_size in Hup as [Hs Hc]. simpl in Hs, Hc.
    destruct (deref (LFU.heap c1) p) as [n| |]; simpl; try done.
    intros [= _ <-]. simpl. lia.
  - destruct (LFU.evict _ _) as [c1| |] eqn:Hev; simpl; try done.
    rewrite lfu_add_to_ensured_bucket. simpl. intros [= _ <-]. simpl.
    eapply (lfu_evict_ind (λ c1, 0 ≤ LFU.size c1 ∧ LFU.capacity c1 = LFU.capacity c))
      in Hev as [[? ?] ?]; [lia| |].
    + intros c2 c3 [H0 Hc] _ Hb.
      apply lfu_evict_body_size_range in Hb as (Hs & Hc' & _).
      split; [by apply Hs|congruence].
    + simpl. split; [apply u64_range|done].
Qed.

Lemma lfu_Puts_size_range fuel kvs : ∀ c c',
  0 ≤ LFU.size c ≤ LFU.capacity c →
  LFU.Puts fuel c kvs = Done c' →
  0 ≤ LFU.size c' ≤ LFU.capacity c' ∧ LFU.capacity c' = LFU.capacity c.
Proof.
  unfold LFU.Puts.
  induction kvs as [|[k v] kvs IH]; intros c c' Hsz; simpl.
  - by intros [= <-].
  - destruct (LFU.Put fuel c k v) as [[b c1]| |] eqn:HP; simpl; try done.
    apply lfu_Put_size_range in HP as [Hsz1 Hc1]; [|done].
    intros Hrest. apply IH in Hrest as [? ?]; [|done]. split; [done|congruence].
Qed.

(** Put keeps the size field equal to the resident total when it does
    not change the length of a resident value (and no node is stale). *)
Lemma lfu_counted_Put lenOf fuel c key value created c' :
  LFU.linked c → lfu_tight c → lfu_counted 0 c ∧ lfu_lengths lenOf c →
  len value = lenOf key → 0 ≤ LFU.size c → LFU.size c + len value < 2 ^ 64 →
  LFU.Put fuel c key value = Done (created, c') →
  lfu_counted 0 c' ∧ lfu_lengths lenOf c'.
Proof.
  intros Hlk Ht Hcnt Hv H0 Hfit.
  destruct (decide (LFU.capacity c = 0)) as [Hcap|Hcap].
  { unfold LFU.Put. rewrite Hcap. simpl. by intros [= _ <-]. }
  destruct (LFU.node c !! key) as [p|] eqn:Hk.
  - destruct (lfu_Put_existing fuel c key value p Hlk Hcap Hk)
      as (n & l & Hn & _ & Hl & Hp & ->).
    intros [= _ <-].
    set (c1 := lfu_touched (LFU.record Hits_Inc c) p n l).
    assert (Hlk1 : LFU.linked c1).
    { apply lfu_touched_linked; try done. by apply lfu_linked_record. }
    apply (lfu_set_Value_counted lenOf 0 c1 key p); try done.
    + unfold c1, lfu_touched. simpl. by rewrite lookup_insert_eq.
    + by apply lfu_touched_counted.
  - rewrite lfu_Put_new by done.
    destruct (LFU.evict _ _) as [c1| |] eqn:Hev; simpl; try done.
    intros [= _ <-].
    pose proof (len_nonneg value) as Hvn.
    eapply (lfu_evict_ind
              (λ c, LFU.linked c ∧ LFU.node c !! key = None ∧ lfu_tight c ∧
                    lfu_counted (len value) c ∧ lfu_lengths lenOf c))
      in Hev as [(Hlk1 & Hk1 & Ht1 & Hc1) _].
    + by apply lfu_inserted_counted.
    + intros c2 c3 (Hlk2 & Hk2 & Ht2 & Hc2) _ Hb.
      split; [by eapply lfu_linked_evict_body|].
      split; [by apply (lfu_evict_body_size_range _ _ Hb)|].
      split; [by eapply lfu_tight_evict_body|].
      by eapply lfu_counted_evict_body.
    + split; [by apply lfu_linked_set_size|]. split; [done|]. split; [done|].
      destruct Hcnt as [[Hsz Hlt] Hlen]. split; [|done].
      unfold lfu_counted, LFU.resident_bytes in *. simpl.
      rewrite u64_small by lia. split; lia.
Qed.

(** An engine of capacity 0 stays empty. *)
Lemma lfu_reachable_capacity_zero c :
  LFU.reachable 0 c → LFU.capacity c = 0 ∧ LFU.node c = ∅.
Proof.
  induction 1 as [|fuel c op c' _ [Hcap Hnode] Hex]; [done|].
  destruct op as [key|key value|key]; simpl in Hex.
  - unfold LFU.Get in Hex. rewrite Hnode, lookup_empty in Hex.
    simpl in Hex. by injection Hex as <-.
  - unfold LFU.Put in Hex. rewrite Hcap in Hex. simpl in Hex. by injection Hex as <-.
  - unfold LFU.Delete in Hex. rewrite Hnode, lookup_empty in Hex.
    simpl in Hex. by injection Hex as <-.
Qed.

Lemma lfu_Get_metrics c key value ok c' :
  LFU.Get c key = Done (value, ok, c') →
  LFU.metrics c' = (if ok then Hits_Inc else Miss_Inc) (LFU.metrics c).
Proof.
  unfold LFU.Get. destruct (LFU.node c !! key) as [p|]; simpl.
  - destruct (LFU.update p _) as [c1| |] eqn:Hup; simpl; try done.
    apply lfu_update_metrics in Hup.
    destruct (deref (LFU.heap c1) p) as [n| |]; simpl; try done.
    intros [= _ <- <-]. by rewrite Hup.
  - by intros [= _ <- <-].
Qed.

Lemma lfu_Put_metrics fuel c key value created c' :
  LFU.Put fuel c key value = Done (created, c') →
  if created then
    Hits (LFU.metrics c') = Hits (LFU.metrics c) ∧
    Miss (LFU.metrics c') = Miss (LFU.metrics c) ∧
    Adds (LFU.metrics c') = S (Adds (LFU.metrics c))
  else
    LFU.metrics c' =
    (if LFU.capacity c =? 0 then LFU.metrics c else Hits_Inc (LFU.metrics c)).
Proof.
  unfold LFU.Put. destruct (LFU.capacity c =? 0); [by intros [= <- <-]|].
  destruct (LFU.node c !! key) as [p|]; simpl.
  - destruct (LFU.update p _) as [c1| |] eqn:Hup; simpl; try done.
    apply lfu_update_metrics in Hup.
    destruct (deref (LFU.heap c1) p) as [n| |]; simpl; try done.
    intros [= <- <-]. simpl. by rewrite Hup.
  - destruct (LFU.evict _ _) as [c1| |] eqn:Hev; simpl; try done.
    rewrite lfu_add_to_ensured_bucket. simpl.
    intros [= <- <-]. simpl. apply lfu_evict_metrics in Hev. simpl in Hev.
    destruct Hev as (-> & -> & ->). done.
Qed.

(** ** The LFU engine: Restore *)

(** Restoring pairs with distinct, absent keys that fit within the
    capacity puts each of them, evicts nothing, and keeps what the engine
    held. *)
Lemma lfu_Restore_fits fuel o : ∀ c,
  LFU.linked c → LFU.capacity c ≠ 0 →
  NoDup o.*1 → (∀ k, k ∈ o.*1 → LFU.node c !! k = None) →
  0 ≤ LFU.size c → LFU.size c + bytes_of o ≤ LFU.capacity c < 2 ^ 64 →
  ∃ c', LFU.Restore fuel c o = Done c' ∧ LFU.linked c' ∧
        (∀ k v, (k, v) ∈ o → lfu_holds c' k v) ∧
        (∀ k v, lfu_holds c k v → lfu_holds c' k v) ∧
        (∀ k, LFU.node c !! k = None → k ∉ o.*1 → LFU.node c' !! k = None).
Proof.
  induction o as [|[k v] o IH]; intros c Hlk Hcap Hdup Habs Hsz Hfit.
  { exists c. split; [done|]. split; [done|]. split; [|done].
    intros k v H. by apply not_elem_of_nil in H. }
  simpl in Hdup, Hfit. apply NoDup_cons in Hdup as [Hk Hdup].
  pose proof (len_nonneg v) as Hv. pose proof (bytes_of_nonneg o) as Ho.
  simpl. rewrite lfu_Put_new; [|done|apply Habs; left].
  rewrite lfu_evict_within by (simpl; rewrite u64_small; lia). simpl.
  set (c0 := LFU.set_size (u64 (LFU.size c + len v)) c).
  assert (Hnew : LFU.heap c !! LFU.next c = None).
  { destruct (LFU.heap c !! LFU.next c) eqn:E; [|done].
    pose proof (LFU.linked_fresh _ Hlk (LFU.next c) ltac:(eauto)). lia. }
  destruct (IH (lfu_inserted c0 k v)) as (c' & Hres & Hlk' & Hin & Hold & Hnone).
  - apply lfu_inserted_linked. by apply lfu_linked_set_size.
  - done.
  - done.
  - intros k' Hk'. simpl. rewrite lookup_insert_ne by (intros ->; done).
    apply Habs. by right.
  - simpl. apply u64_range.
  - simpl. rewrite u64_small; lia.
  - assert (Hkeep : ∀ k' v', lfu_holds c k' v' → lfu_holds (lfu_inserted c0 k v) k' v').
    { intros k' v' (p & n & Hp & Hn & Hval). exists p, n. simpl.
      assert (k ≠ k') by (intros ->; rewrite Habs in Hp; [done|left]).
      assert (LFU.next c ≠ p) by (intros <-; congruence).
      by rewrite !lookup_insert_ne by done. }
    exists c'. split; [done|]. split; [done|]. split; [|split].
    + intros k' v' Hkv. apply elem_of_cons in Hkv as [[= -> ->]|Hkv]; [|by apply Hin].
      apply Hold. exists (LFU.next c), {| Key := k; Value := v; Freq := 1 |}.
      simpl. by rewrite !lookup_insert_eq.
    + intros k' v' H. by apply Hold, Hkeep.
    + intros k' Hk' Hnot. apply Hnone.
      * simpl. rewrite lookup_insert_ne; [done|]. intros ->. apply Hnot. left.
      * intros H. apply Hnot. by right.
Qed.

Lemma lfu_Restore_mono fuel fuel' o : ∀ c c',
  (fuel ≤ fuel')%nat →
  LFU.Restore fuel c o = Done c' → LFU.Restore fuel' c o = Done c'.
Proof.
  induction o as [|[k v] o IH]; intros c c' Hle; simpl; [done|].
  destruct (LFU.Put fuel c k v) as [[b c1]| |] eqn:HP; simpl; try done.
  rewrite (lfu_Put_mono _ _ _ _ _ _ Hle HP). simpl. by apply IH.
Qed.

(** The result of Restore does not depend on the iteration budget. *)
Lemma lfu_Restore_det fuel fuel' o c c1 c2 :
  LFU.Restore fuel c o = Done c1 → LFU.Restore fuel' c o = Done c2 → c1 = c2.
Proof.
  intros H1 H2.
  apply (lfu_Restore_mono _ (fuel `max` fuel')) in H1; [|lia].
  apply (lfu_Restore_mono _ (fuel `max` fuel')) in H2; [|lia].
  congruence.
Qed.

(** ** The size field as a bound of the resident bytes *)

(** ** Byte totals under an overwrite *)

(** Overwriting the node of one key changes the total by the difference of
    the two byte lengths. *)
Lemma total_update heap index k p n' :
  index !! k = Some p → (∀ k', index !! k' = Some p → k' = k) →
  total (<[p := n']> heap) index =
  total heap index - weigh heap p + len (Value n').
Proof.
  intros Hk Hinj.
  rewrite (total_delete (<[p := n']> heap) _ _ _ Hk), (total_delete heap _ _ _ Hk).
  rewrite weigh_insert_eq.
  rewrite (total_ext heap (<[p := n']> heap) (delete k index)); [lia|].
  intros k' p' Hk'. apply lookup_delete_Some in Hk' as [Hne Hk'].
  apply weigh_insert_ne. intros <-. apply Hne. symmetry. by apply Hinj.
Qed.

(** The relation [R] between the resident total and the size field is
    "at most" or equality: all that is used of it is below. *)
Section bounded.
Variable R : Z → Z → Prop.
Hypothesis R_zero : R 0 0.
Hypothesis R_shift : ∀ a b d, R a b → R (a + d) (b + d).
Hypothesis R_overwrite : ∀ a b new old, R new old → R a b → R (a - old + new) b.
Hypothesis R_le : ∀ a b, R a b → a ≤ b.

Lemma lru_bounded_New capacity : lru_bounded R (LRU.NewCache capacity).
Proof.
  split; [|done]. unfold LRU.resident_bytes. simpl. by rewrite total_empty.
Qed.

(** One eviction takes the bytes of the evicted value off both the size
    field and the resident total. *)
Lemma lru_bounded_evict_body c c' :
  LRU.linked c → lru_bounded R c → LRU.evict_body c = Done c' → lru_bounded R c'.
Proof.
  intros Hlk [Hsz Hlt]. unfold LRU.evict_body. simpl.
  destruct (PopTail (LRU.linklist c)) as [[t r]| |] eqn:Hpop; simpl; try done.
  apply PopTail_Done in Hpop.
  assert (Ht : t ∈ LRU.linklist c).
  { rewrite Hpop. apply elem_of_app. right. by apply list_elem_of_singleton. }
  destruct (LRU.linked_list _ Hlk t Ht) as (n & Hn & Hkn).
  unfold deref. simpl. rewrite Hn. simpl. intros [= <-].
  unfold lru_bounded, LRU.resident_bytes in *. simpl.
  pose proof (R_le _ _ Hsz) as Hle.
  rewrite (total_delete _ _ _ _ Hkn), (weigh_Some _ _ _ Hn) in Hsz, Hle.
  pose proof (total_nonneg (LRU.heap c) (delete (Key n) (LRU.cache c))) as Hnn.
  pose proof (len_nonneg (Value n)) as Hvn.
  rewrite u64_small by lia. split; [|lia].
  apply (R_shift _ _ (- len (Value n))) in Hsz.
  by replace (len (Value n) + total (LRU.heap c) (delete (Key n) (LRU.cache c))
              + - len (Value n))
    with (total (LRU.heap c) (delete (Key n) (LRU.cache c))) in Hsz by lia.
Qed.

Lemma lru_bounded_inserted c key value :
  LRU.linked c → LRU.cache c !! key = None → lru_bounded R c →
  LRU.size c + len value < 2 ^ 64 →
  lru_bounded R (lru_inserted c key value).
Proof.
  intros Hlk Hk [Hsz Hlt] Hfit.
  pose proof (R_le _ _ Hsz) as Hle.
  pose proof (total_nonneg (LRU.heap c) (LRU.cache c)) as Hnn.
  pose proof (len_nonneg value) as Hvn.
  unfold lru_bounded, LRU.resident_bytes in *. simpl.
  rewrite u64_small by lia. split; [|lia].
  rewrite total_insert by done. rewrite weigh_insert_eq. simpl.
  rewrite total_ext with (heap := LRU.heap c).
  - rewrite Z.add_comm. by apply R_shift.
  - intros k p Hp. apply weigh_insert_ne. by eapply lru_index_not_fresh.
Qed.

(** A Put keeps the size field a bound of the resident total, when the
    value it puts on a resident key is in relation [R] with the one it
    replaces. *)
Lemma lru_bounded_Put fuel c key value created c' :
  LRU.linked c → lru_bounded R c →
  match LRU.cache c !! key with
  | Some p => R (len value) (weigh (LRU.heap c) p)
  | None => LRU.size c + len value < 2 ^ 64
  end →
  LRU.Put fuel c key value = Done (created, c') →
  lru_bounded R c'.
Proof.
  intros Hlk Hb Hstep.
  destruct (LRU.cache c !! key) as [p|] eqn:Hk.
  - unfold LRU.Put. rewrite Hk.
    destruct (LRU.linked_cache _ Hlk _ _ Hk) as [Hin (n & Hn & Hkn)].
    rewrite (RemoveNode_member _ _ Hin). simpl.
    unfold deref. simpl. rewrite Hn. simpl. intros [= _ <-].
    destruct Hb as [Hsz Hlt]. split; [|done].
    unfold LRU.resident_bytes in *. simpl.
    rewrite (total_update _ _ key p); [by apply R_overwrite|done|].
    intros k' Hk'.
    destruct (LRU.linked_cache _ Hlk _ _ Hk') as [_ (n' & Hn' & Hkn')]. congruence.
  - rewrite lru_Put_new by done.
    destruct (LRU.evict _ _) as [c1| |] eqn:Hev; simpl; try done.
    intros [= _ <-].
    eapply (lru_evict_ind (λ c, LRU.linked c ∧ lru_bounded R c))
      in Hev as [[_ ?] _]; [done| |].
    + intros c2 c3 [Hlk2 Hb2] _ Hbody.
      split; [by eapply lru_linked_evict_body|by eapply lru_bounded_evict_body].
    + split; [by apply lru_inserted_linked|by apply lru_bounded_inserted].
Qed.

Lemma lru_bounded_Puts fuel kvs : ∀ c c',
  LRU.linked c → lru_bounded R c → lru_overwrites R fuel c kvs →
  LRU.Puts fuel c kvs = Done c' → lru_bounded R c'.
Proof.
  induction kvs as [|[k v] kvs IH]; intros c c' Hlk Hb Hov; simpl.
  - by intros [= <-].
  - destruct Hov as [Hstep Hrest].
    destruct (LRU.Put fuel c k v) as [[b c1]| |] eqn:HP; simpl; try done.
    apply IH.
    + by eapply lru_linked_Put.
    + by eapply lru_bounded_Put.
    + by eapply Hrest.
Qed.

Lemma lfu_bounded_New capacity : lfu_bounded R 0 (LFU.NewCache capacity).
Proof.
  split; [|done]. unfold LFU.resident_bytes. simpl. by rewrite total_empty.
Qed.

(** One turn of the LFU loop on an engine without stale nodes: the node
    popped is indexed, so its bytes leave the size field and the resident
    total together. *)
Lemma lfu_bounded_evict_body pending c c' :
  LFU.linked c → lfu_tight c → lfu_bounded R pending c → 0 ≤ pending →
  LFU.evict_body c = Done c' → lfu_bounded R pending c'.
Proof.
  intros Hlk Ht [Hsz Hlt] Hpend Hev.
  destruct (lfu_evict_body_cases c Hlk) as [[Hmin E]|(r & t & n & Hl & Hn & Hfn & E)];
    rewrite E in Hev; injection Hev as <-; [done|].
  assert (Hin : t ∈ r ++ [t]).
  { apply elem_of_app. right. by apply list_elem_of_singleton. }
  destruct (Ht _ _ _ Hl Hin) as (n' & Hn' & Hkn).
  assert (n' = n) as -> by congruence.
  unfold lfu_bounded, LFU.resident_bytes in *.
  change (LFU.heap (lfu_evicted c r n)) with (LFU.heap c).
  change (LFU.node (lfu_evicted c r n)) with (delete (Key n) (LFU.node c)).
  change (LFU.size (lfu_evicted c r n)) with (u64 (LFU.size c - len (Value n))).
  pose proof (R_le _ _ Hsz) as Hle.
  rewrite (total_delete _ _ _ _ Hkn), (weigh_Some _ _ _ Hn) in Hsz, Hle.
  pose proof (total_nonneg (LFU.heap c) (delete (Key n) (LFU.node c))).
  pose proof (len_nonneg (Value n)).
  rewrite u64_small by lia. split; [|lia].
  apply (R_shift _ _ (- len (Value n))) in Hsz.
  by replace (len (Value n) + total (LFU.heap c) (delete (Key n) (LFU.node c))
              + pending + - len (Value n))
    with (total (LFU.heap c) (delete (Key n) (LFU.node c)) + pending) in Hsz by lia.
Qed.

Lemma lfu_bounded_inserted c key value :
  LFU.linked c → LFU.node c !! key = None →
  lfu_bounded R (len value) c → lfu_bounded R 0 (lfu_inserted c key value).
Proof.
  intros Hlk Hk [Hsz Hlt]. split; [|done].
  unfold LFU.resident_bytes in *. simpl.
  rewrite total_insert by done. rewrite weigh_insert_eq. simpl.
  rewrite total_ext with (heap := LFU.heap c).
  - by replace (len value + total (LFU.heap c) (LFU.node c) + 0)
      with (total (LFU.heap c) (LFU.node c) + len value) by lia.
  - intros k p Hp. apply weigh_insert_ne. by eapply lfu_index_not_fresh.
Qed.

Lemma lfu_bounded_Put fuel c key value created c' :
  LFU.linked c → lfu_tight c → lfu_bounded R 0 c →
  match LFU.node c !! key with
  | Some p => R (len value) (weigh (LFU.heap c) p)
  | None => LFU.size c + len value < 2 ^ 64
  end →
  LFU.Put fuel c key value = Done (created, c') →
  lfu_bounded R 0 c'.
Proof.
  intros Hlk Ht Hb Hstep.
  destruct (decide (LFU.capacity c = 0)) as [Hcap|Hcap].
  { unfold LFU.Put. rewrite Hcap. simpl. by intros [= _ <-]. }
  destruct (LFU.node c !! key) as [p|] eqn:Hk.
  - destruct (lfu_Put_existing fuel c key value p Hlk Hcap Hk)
      as (n & l & Hn & _ & Hl & Hp & ->).
    intros [= _ <-].
    destruct Hb as [Hsz Hlt]. split; [|done].
    unfold LFU.resident_bytes in *. unfold lfu_touched. simpl.
    rewrite insert_insert_eq.
    rewrite (total_update _ _ key p); [|done|].
    + rewrite (weigh_Some _ _ _ Hn) in Hstep. rewrite (weigh_Some _ _ _ Hn). simpl.
      apply (R_overwrite _ _ _ _ Hstep) in Hsz.
      by replace (total (LFU.heap c) (LFU.node c) - len (Value n) + len value + 0)
        with (total (LFU.heap c) (LFU.node c) + 0 - len (Value n) + len value) by lia.
    + intros k' Hk'.
      destruct (LFU.linked_node _ Hlk _ _ Hk') as (n1 & Hn1 & Hk1 & _).
      destruct (LFU.linked_node _ Hlk _ _ Hk) as (n2 & Hn2 & Hk2 & _).
      congruence.
  - rewrite lfu_Put_new by done.
    destruct (LFU.evict _ _) as [c1| |] eqn:Hev; simpl; try done.
    intros [= _ <-].
    pose proof (len_nonneg value) as Hvn.
    eapply (lfu_evict_ind
              (λ c, LFU.linked c ∧ LFU.node c !! key = None ∧ lfu_tight c ∧
                    lfu_bounded R (len value) c))
      in Hev as [(Hlk1 & Hk1 & Ht1 & Hc1) _].
    + by apply lfu_bounded_inserted.
    + intros c2 c3 (Hlk2 & Hk2 & Ht2 & Hc2) _ Hbody.
      split; [by eapply lfu_linked_evict_body|].
      split; [by apply (lfu_evict_body_size_range _ _ Hbody)|].
      split; [by eapply lfu_tight_evict_body|].
      by eapply lfu_bounded_evict_body.
    + split; [by apply lfu_linked_set_size|]. split; [done|]. split; [done|].
      destruct Hb as [Hsz Hlt].
      pose proof (R_le _ _ Hsz) as Hle.
      pose proof (total_nonneg (LFU.heap c) (LFU.node c)) as Hnn.
      unfold lfu_bounded, LFU.resident_bytes in *. simpl.
      rewrite u64_small by lia. split; [|lia].
      apply (R_shift _ _ (len value)) in Hsz.
      by replace (total (LFU.heap c) (LFU.node c) + 0 + len value)
        with (total (LFU.heap c) (LFU.node c) + len value) in Hsz by lia.
Qed.

Lemma lfu_bounded_Puts fuel kvs : ∀ c c',
  LFU.linked c → lfu_tight c → lfu_bounded R 0 c → lfu_overwrites R fuel c kvs →
  LFU.Puts fuel c kvs = Done c' → lfu_bounded R 0 c'.
Proof.
  unfold LFU.Puts.
  induction kvs as [|[k v] kvs IH]; intros c c' Hlk Ht Hb Hov; simpl.
  - by intros [= <-].
  - destruct Hov as [Hstep Hrest].
    destruct (LFU.Put fuel c k v) as [[b c1]| |] eqn:HP; simpl; try done.
    apply IH.
    + by eapply lfu_linked_Put.
    + by eapply lfu_tight_Put.
    + by eapply lfu_bounded_Put.
    + by eapply Hrest.
Qed.

End bounded.

(** ** The example runs *)

Lemma lfu_ab_a_reachable : LFU.reachable 2 lfu_ab_a.
Proof.
  apply (lfu_run_reachable 2 1
           [LFU.CallPut "a" "x"; LFU.CallPut "b" "x"; LFU.CallGet "a"]
           (LFU.NewCache 2)); [apply LFU.reach_New|].
  vm_compute. reflexivity.
Qed.

Lemma lfu_ab_a_ordered : LFU.ordered lfu_ab_a.
Proof.
  split.
  - change (map_Forall (λ f (_ : DLinkedList), 1 ≤ f ∧ LFU.minFreq lfu_ab_a ≤ f)
              (LFU.freq lfu_ab_a)).
    apply (bool_decide_unpack _). vm_compute. exact I.
  - intros _. exists [1%nat]. split; [vm_compute; reflexivity|done].
Qed.

Lemma lfu_ab_a_below_max : LFU.below_max lfu_ab_a.
Proof.
  change (map_Forall (λ (_ : handle) n, Freq n < max_int) (LFU.heap lfu_ab_a)).
  apply (bool_decide_unpack _). vm_compute. exact I.
Qed.

Lemma lfu_grown_reachable : LFU.reachable 2 lfu_grown.
Proof.
  apply (lfu_run_reachable 2 0 lfu_grown_calls (LFU.NewCache 2));
    [apply LFU.reach_New|].
  vm_compute. reflexivity.
Qed.

Lemma abc_puts_overwrites R :
  lru_overwrites R 1 (LRU.NewCache 5) abc_puts ∧
  lfu_overwrites R 1 (LFU.NewCache 5) abc_puts.
Proof. split; do 3 overwrites_step; exact I. Qed.

Lemma shrink_puts_overwrites :
  lru_overwrites Z.le 1 (LRU.NewCache 5) shrink_puts ∧
  lfu_overwrites Z.le 1 (LFU.NewCache 5) shrink_puts.
Proof. split; do 3 overwrites_step; exact I. Qed.

(** * The claims of the specification *)

(** ** C1: the capacity invariant *)

(** C1, as the code has it. For every sequence of Puts on a new engine of
    either kind, after the Puts have returned the size field is at most
    the capacity (and 0 for capacity 0). A Put that finds its key does not
    touch the size field: as long as no Put gives a resident key a value
    longer than the one it holds (and the bytes of no created entry
    overflow the size field), the total byte length of the resident values
    is at most the size field, and so at most the capacity; it is equal to
    the size field as long as no Put changes the byte length of a resident
    value. (The state after each Put of a sequence is the state after the
    sequence that ends with that Put.) *)
Theorem puts_keep_size_within_capacity capacity fuel kvs :
  0 ≤ capacity →
  (∀ c, LRU.Puts fuel (LRU.NewCache capacity) kvs = Done c →
        0 ≤ LRU.size c ≤ capacity ∧
        (lru_overwrites Z.le fuel (LRU.NewCache capacity) kvs →
         LRU.resident_bytes c ≤ LRU.size c ∧ LRU.resident_bytes c ≤ capacity) ∧
        (lru_overwrites eq fuel (LRU.NewCache capacity) kvs →
         LRU.resident_bytes c = LRU.size c)) ∧
  (∀ c, LFU.Puts fuel (LFU.NewCache capacity) kvs = Done c →
        0 ≤ LFU.size c ≤ capacity ∧
        (lfu_overwrites Z.le fuel (LFU.NewCache capacity) kvs →
         LFU.resident_bytes c ≤ LFU.size c ∧ LFU.resident_bytes c ≤ capacity) ∧
        (lfu_overwrites eq fuel (LFU.NewCache capacity) kvs →
         LFU.resident_bytes c = LFU.size c)).
Proof.
  intros Hcap. split; intros c Hrun.
  - pose proof (lru_Puts_size_range fuel kvs (LRU.NewCache capacity) c) as Hr.
    simpl in Hr. destruct (Hr ltac:(lia) Hrun) as [Hsz Hc].
    split; [lia|]. split; intros Hov.
    + assert (Hb : lru_bounded Z.le c).
      { eapply (lru_bounded_Puts Z.le);
          [intros; lia|intros; lia|intros; lia| | |exact Hov|exact Hrun].
        - apply lru_linked_New.
        - apply lru_bounded_New. lia. }
      destruct Hb as [Hle _]. lia.
    + assert (Hb : lru_bounded eq c).
      { eapply (lru_bounded_Puts eq);
          [intros; lia|intros; lia|intros; lia| | |exact Hov|exact Hrun].
        - apply lru_linked_New.
        - by apply lru_bounded_New. }
      by destruct Hb as [Heq _].
  - pose proof (lfu_Puts_size_range fuel kvs (LFU.NewCache capacity) c) as Hr.
    simpl in Hr. destruct (Hr ltac:(lia) Hrun) as [Hsz Hc].
    split; [lia|]. split; intros Hov.
    + assert (Hb : lfu_bounded Z.le 0 c).
      { eapply (lfu_bounded_Puts Z.le);
          [intros; lia|intros; lia|intros; lia| | | |exact Hov|exact Hrun].
        - apply lfu_linked_New.
        - apply lfu_tight_New.
        - apply lfu_bounded_New. lia. }
      destruct Hb as [Hle _]. lia.
    + assert (Hb : lfu_bounded eq 0 c).
      { eapply (lfu_bounded_Puts eq);
          [intros; lia|intros; lia|intros; lia| | | |exact Hov|exact Hrun].
        - apply lfu_linked_New.
        - apply lfu_tight_New.
        - by apply lfu_bounded_New. }
      destruct Hb as [Heq _]. lia.
Qed.

(** With capacity 5: after Put("a", "xxx"), Put("b", "xx") and
    Put("a", "x"), which shortens A, three bytes are resident and the size
    field is 5; after Put("a", "x"), Put("b", "xxx") and Put("c", "xx"),
    which evicts A, the five bytes resident are the size field. *)
Lemma puts_keep_size_within_capacity_witness :
  ((0 ≤ LRU.size lru_shrunk ≤ 5 ∧
    LRU.resident_bytes lru_shrunk ≤ LRU.size lru_shrunk ∧
    LRU.resident_bytes lru_shrunk ≤ 5) ∧
   (0 ≤ LFU.size lfu_shrunk ≤ 5 ∧
    LFU.resident_bytes lfu_shrunk ≤ LFU.size lfu_shrunk ∧
    LFU.resident_bytes lfu_shrunk ≤ 5)) ∧
  LRU.resident_bytes lru_abc = LRU.size lru_abc ∧
  LFU.resident_bytes lfu_abc = LFU.size lfu_abc.
Proof.
  destruct (puts_keep_size_within_capacity 5 1 shrink_puts) as [Hlru Hlfu]; [lia|].
  destruct (puts_keep_size_within_capacity 5 1 abc_puts) as [Hlru' Hlfu']; [lia|].
  split; [split|split].
  - destruct (Hlru lru_shrunk) as (Hsz & Hle & _); [vm_compute; reflexivity|].
    split; [done|]. apply Hle, shrink_puts_overwrites.
  - destruct (Hlfu lfu_shrunk) as (Hsz & Hle & _); [vm_compute; reflexivity|].
    split; [done|]. apply Hle, shrink_puts_overwrites.
  - destruct (Hlru' lru_abc) as (_ & _ & Heq); [vm_compute; reflexivity|].
    apply Heq, abc_puts_overwrites.
  - destruct (Hlfu' lfu_abc) as (_ & _ & Heq); [vm_compute; reflexivity|].
    apply Heq, abc_puts_overwrites.
Defined.

(** C1, as stated, fails on both engines: with capacity 5, Put("a", "x")
    followed by Put("a", "xxxxxxxxxx") leaves ten bytes resident. With
    capacity 0 the LRU engine keeps Put("a", "") and then holds the three
    bytes of Put("a", "xxx"). *)
Lemma puts_overwrite_exceeds_capacity :
  (∃ c, LRU.Puts 0 (LRU.NewCache 5) [("a", "x"); ("a", "xxxxxxxxxx")]%string
        = Done c ∧ LRU.resident_bytes c = 10 ∧ LRU.capacity c = 5) ∧
  (∃ c, LFU.Puts 0 (LFU.NewCache 5) [("a", "x"); ("a", "xxxxxxxxxx")]%string
        = Done c ∧ LFU.resident_bytes c = 10 ∧ LFU.capacity c = 5) ∧
  (∃ c, LRU.Puts 0 (LRU.NewCache 0) [("a", ""); ("a", "xxx")]%string
        = Done c ∧ LRU.resident_bytes c = 3 ∧ LRU.capacity c = 0).
Proof.
  split; [|split]; eexists; (split; [vm_compute; reflexivity|]);
    split; vm_compute; reflexivity.
Qed.

(** ** C2: termination *)

(** C2, at the input where it fails. On a new LFU engine of capacity
    other than 0, a Put of a value longer than the capacity does not
    return: the loop is still running after any number of iterations. *)
Theorem lfu_put_oversized_never_returns capacity key value fuel :
  0 < capacity → capacity < len value < 2 ^ 64 →
  LFU.Put fuel (LFU.NewCache capacity) key value = OutOfFuel.
Proof.
  intros Hcap Hlen. rewrite lfu_Put_new; [|simpl; lia|done].
  rewrite lfu_evict_spins; [done| |].
  - intros f l Hl. simpl in Hl. by rewrite lookup_empty in Hl.
  - simpl. rewrite u64_small; lia.
Qed.

Lemma lfu_put_oversized_never_returns_witness :
  LFU.Put 1000 (LFU.NewCache 1) "a" "xx" = OutOfFuel.
Proof.
  apply lfu_put_oversized_never_returns; [lia|].
  split; [vm_compute; reflexivity|reflexivity].
Defined.

(** ** C3: the structural invariant of the LFU engine *)

(** C3, as the code has it. Every LFU operation (Get, Put, Delete) that
    returns keeps the engine linked and the bookkeeping of the minimum in
    order, as long as no frequency counter is at the largest int; a new
    engine is in that state. It follows that after the operation every
    entry of the key index appears in exactly the bucket matching its
    current frequency, that minFreq is the smallest key of freq whenever
    freq is non-empty, and that the bucket at minFreq is not empty. (A
    bucket other than the minimum one that an operation empties stays in
    freq.) *)
Theorem lfu_exec_keeps_structure fuel c op c' :
  LFU.linked c → LFU.ordered c → LFU.below_max c →
  LFU.exec fuel c op = Done c' →
  (LFU.linked c' ∧ LFU.ordered c') ∧
  LFU.in_own_bucket c' ∧ LFU.min_is_least c' ∧ LFU.min_bucket_inhabited c'.
Proof.
  intros Hlk Hord Hmax Hex.
  pose proof (lfu_linked_exec fuel c op c' Hlk Hex) as Hlk'.
  pose proof (lfu_ordered_exec fuel c op c' Hlk Hord Hmax Hex) as Hord'.
  split; [done|]. by apply lfu_structure.
Qed.

Lemma lfu_exec_keeps_structure_witness :
  (LFU.linked lfu_ab_aa ∧ LFU.ordered lfu_ab_aa) ∧
  LFU.in_own_bucket lfu_ab_aa ∧ LFU.min_is_least lfu_ab_aa ∧
  LFU.min_bucket_inhabited lfu_ab_aa.
Proof.
  apply (lfu_exec_keeps_structure 0 lfu_ab_a (LFU.CallGet "a")).
  - apply (lfu_reachable_linked 2), lfu_ab_a_reachable.
  - apply lfu_ab_a_ordered.
  - apply lfu_ab_a_below_max.
  - vm_compute. reflexivity.
Defined.

(** C3, as stated, fails: the engine of capacity 2 after Put A, Put B and
    Get A satisfies the structural invariant, and one more Get A leaves
    bucket 2 in freq with no node in it. *)
Lemma lfu_get_leaves_empty_bucket :
  LFU.reachable 2 lfu_ab_a ∧ LFU.structural lfu_ab_a ∧
  LFU.exec 0 lfu_ab_a (LFU.CallGet "a") = Done lfu_ab_aa ∧
  ¬ LFU.structural lfu_ab_aa.
Proof.
  split; [apply lfu_ab_a_reachable|]. split; [|split].
  - destruct (lfu_structure lfu_ab_a) as (H1 & H2 & _).
    + apply (lfu_reachable_linked 2), lfu_ab_a_reachable.
    + apply lfu_ab_a_ordered.
    + split; [done|]. split; [|done].
      unfold LFU.no_empty_bucket. apply (bool_decide_unpack _). vm_compute. exact I.
  - vm_compute. reflexivity.
  - intros (_ & Hne & _). apply (Hne 2 []); [vm_compute|]; reflexivity.
Qed.

(** Why the frequencies have to stay below the largest int: one more Get
    wraps the frequency of the entry, and [minFreq], around to the smallest
    int. *)
Lemma lfu_get_wraps_frequency :
  LFU.linked lfu_saturated ∧ LFU.ordered lfu_saturated ∧
  ∃ c', LFU.exec 0 lfu_saturated (LFU.CallGet "a") = Done c' ∧
        LFU.minFreq c' = - 2 ^ 63 ∧ ¬ LFU.ordered c'.
Proof.
  split; [|split].
  - split; unfold lfu_saturated; simpl.
    + intros k p Hk. apply lookup_singleton_Some in Hk as [<- <-].
      eexists. split; [by vm_compute|]. split; [done|].
      exists [0%nat]. split; [by vm_compute|]. left.
    + intros f l p Hf Hp. apply lookup_singleton_Some in Hf as [<- <-].
      apply list_elem_of_singleton in Hp as ->. eexists. split; by vm_compute.
    + intros f l Hf. apply lookup_singleton_Some in Hf as [<- <-].
      apply NoDup_singleton.
    + intros p [n Hp]. apply lookup_singleton_Some in Hp as [<- _]. lia.
  - split; unfold lfu_saturated; simpl.
    + intros f l Hf. apply lookup_singleton_Some in Hf as [<- <-]. by vm_compute.
    + intros _. exists [0%nat]. split; [by vm_compute|done].
  - eexists. split; [vm_compute; reflexivity|]. split; [by vm_compute|].
    intros [Hkeys _]. destruct (Hkeys (- 2 ^ 63) [0%nat]) as [H1 _];
      [by vm_compute|]. by vm_compute in H1.
Qed.

(** ** C4: Snapshot and Restore *)

(** C4, as the code has it. Take an engine state reached from a new engine
    by any calls, whose snapshot holds values of a total byte length within
    the capacity, and let the pairs [o] that Restore decodes be the pairs of
    that snapshot, in whatever order the decoded map is ranged over.
    Restoring them into a new engine of the same capacity returns an engine
    on which Get gives the value of the snapshot for every key of the
    snapshot, and not-found for every other key. *)
Theorem lfu_restore_roundtrip capacity c o fuel :
  LFU.reachable capacity c →
  0 ≤ capacity < 2 ^ 64 →
  bytes_of (map_to_list (LFU.Snapshot c)) ≤ capacity →
  o ≡ₚ map_to_list (LFU.Snapshot c) →
  ∃ c', LFU.Restore fuel (LFU.NewCache capacity) o = Done c' ∧
        ∀ k, ∃ c'',
          LFU.Get c' k =
          Done (default ""%string (LFU.Snapshot c !! k),
                bool_decide (is_Some (LFU.Snapshot c !! k)), c'').
Proof.
  intros Hr Hcap Hbytes Hperm.
  destruct (decide (capacity = 0)) as [->|Hne].
  { destruct (lfu_reachable_capacity_zero c Hr) as [_ Hnode].
    assert (Hs : LFU.Snapshot c = ∅) by (unfold LFU.Snapshot; by rewrite Hnode, fmap_empty).
    rewrite Hs, map_to_list_empty in Hperm. apply Permutation_nil_r in Hperm as ->.
    exists (LFU.NewCache 0). split; [done|]. intros k. rewrite Hs, lookup_empty.
    by apply lfu_Get_miss. }
  assert (Hin : ∀ k v, (k, v) ∈ o ↔ LFU.Snapshot c !! k = Some v).
  { intros k v. rewrite Hperm. apply elem_of_map_to_list. }
  destruct (lfu_Restore_fits fuel o (LFU.NewCache capacity))
    as (c' & Hres & Hlk & Hheld & _ & Hnone).
  - apply lfu_linked_New.
  - done.
  - rewrite Hperm. apply NoDup_fst_map_to_list.
  - done.
  - done.
  - simpl. rewrite (bytes_of_Permutation _ _ Hperm). lia.
  - exists c'. split; [done|]. intros k.
    destruct (LFU.Snapshot c !! k) as [v|] eqn:Hk; simpl.
    + apply lfu_Get_holds; [done|]. by apply Hheld, Hin.
    + apply lfu_Get_miss, Hnone; [done|].
      intros Hko. apply list_elem_of_fmap in Hko as ([k' v] & -> & Hkv).
      apply Hin in Hkv. simpl in Hk. congruence.
Qed.

Lemma lfu_restore_roundtrip_witness :
  ∃ c', LFU.Restore 0 (LFU.NewCache 2) (map_to_list (LFU.Snapshot lfu_ab_a))
        = Done c' ∧
        ∀ k, ∃ c'',
          LFU.Get c' k =
          Done (default ""%string (LFU.Snapshot lfu_ab_a !! k),
                bool_decide (is_Some (LFU.Snapshot lfu_ab_a !! k)), c'').
Proof.
  apply (lfu_restore_roundtrip 2 lfu_ab_a).
  - apply lfu_ab_a_reachable.
  - split; [lia|reflexivity].
  - vm_compute. discriminate.
  - reflexivity.
Defined.

(** C4, as stated, fails: after Put("a", "x"), Put("b", "x") and
    Put("a", "xx") an engine of capacity 2 holds three bytes, and whichever
    way Restore ranges over its snapshot, the new engine of capacity 2 has
    evicted one of the two keys by the time Restore returns. *)
Lemma lfu_restore_loses_a_key :
  LFU.reachable 2 lfu_grown ∧
  ∀ o, o ≡ₚ map_to_list (LFU.Snapshot lfu_grown) →
  ∀ fuel c', LFU.Restore fuel (LFU.NewCache 2) o = Done c' →
  ∃ k v c'', LFU.Snapshot lfu_grown !! k = Some v ∧
             LFU.Get c' k = Done (""%string, false, c'').
Proof.
  split; [apply lfu_grown_reachable|].
  intros o Hperm fuel c' Hres.
  assert (Hl : map_to_list (LFU.Snapshot lfu_grown)
               = [("a", "xx"); ("b", "x")]%string) by (vm_compute; reflexivity).
  rewrite Hl in Hperm. symmetry in Hperm.
  apply Permutation_length_2_inv in Hperm as [->| ->].
  - destruct (LFU.Restore 1 (LFU.NewCache 2) [("a", "xx"); ("b", "x")]%string)
      as [c0| |] eqn:E0; try (vm_compute in E0; discriminate).
    rewrite <- (lfu_Restore_det _ _ _ _ _ _ E0 Hres).
    vm_compute in E0. injection E0 as <-.
    exists "a"%string, "xx"%string. eexists. split; vm_compute; reflexivity.
  - destruct (LFU.Restore 1 (LFU.NewCache 2) [("b", "x"); ("a", "xx")]%string)
      as [c0| |] eqn:E0; try (vm_compute in E0; discriminate).
    rewrite <- (lfu_Restore_det _ _ _ _ _ _ E0 Hres).
    vm_compute in E0. injection E0 as <-.
    exists "b"%string, "x"%string. eexists. split; vm_compute; reflexivity.
Qed.

(** Why Restore has to be given the pairs of the snapshot. The mapping it
    ranges over is what [json] decodes from what Persist encoded, and the
    encoder writes U+FFFD in place of bytes that are not valid UTF-8: the
    snapshot of an engine of capacity 1 that holds a value of that one byte
    comes back with a value of three bytes, and Restore of that pair into a
    new engine of capacity 1 does not return. *)
Lemma lfu_restore_of_recoded_value_spins :
  ∃ c, LFU.reachable 1 c ∧
       LFU.Snapshot c = {[ "a"%string := invalid_utf8 ]} ∧
       bytes_of (map_to_list (LFU.Snapshot c)) ≤ 1 ∧
       ∀ fuel, LFU.Restore fuel (LFU.NewCache 1) [("a"%string, replacement_char)]
               = OutOfFuel.
Proof.
  exists (LFU.final (LFU.run 1 (LFU.NewCache 1) [LFU.CallPut "a" invalid_utf8])).
  split; [|split; [|split]].
  - apply (lfu_run_reachable 1 1 [LFU.CallPut "a" invalid_utf8] (LFU.NewCache 1));
      [apply LFU.reach_New|]. vm_compute. reflexivity.
  - vm_compute. reflexivity.
  - vm_compute. discriminate.
  - intros fuel. simpl. rewrite lfu_Put_new; [|done|done].
    rewrite lfu_evict_spins; [done| |].
    + intros f l Hl. simpl in Hl. by rewrite lookup_empty in Hl.
    + vm_compute. reflexivity.
Qed.

(** ** C5: capacity 0 *)

(** C5, as the code has it. On an LFU engine of capacity 0 every Put is a
    no-op that reports created = false and leaves the engine, counters
    included, as it was. The LRU engine has no such guard: on a new LRU
    engine of capacity 0 a Put reports created = true; an empty value stays
    in the cache, and a non-empty one is inserted and evicted at once. *)
Theorem put_at_capacity_zero fuel c key value :
  LFU.capacity c = 0 →
  LFU.Put fuel c key value = Done (false, c) ∧
  ∃ c', LRU.Put (S fuel) (LRU.NewCache 0) key value = Done (true, c') ∧
        (value = ""%string → LRU.cache c' !! key = Some 0%nat) ∧
        (0 < len value < 2 ^ 64 → LRU.cache c' = ∅ ∧ LRU.linklist c' = []).
Proof.
  intros Hcap. split.
  { unfold LFU.Put. by rewrite Hcap. }
  unfold LRU.Put. simpl. rewrite lookup_empty. cbn [LRU.alloc LRU.NewCache].
  cbn [LRU.next LRU.linklist LRU.cache LRU.set_linklist LRU.set_cache LRU.record
       LRU.set_size LRU.size LRU.capacity LRU.heap LRU.metrics].
  destruct (Z.ltb_spec 0 (u64 (0 + len value))) as [Hpos|Hzero].
  - unfold LRU.evict_body, deref. simpl. rewrite lookup_insert_eq. simpl.
    rewrite lru_evict_within.
    + simpl. eexists. split; [done|]. simpl. split.
      * intros ->. by vm_compute in Hpos.
      * intros _. by rewrite delete_insert_eq, delete_empty.
    + simpl. unfold u64 in *. rewrite Z.add_0_l.
      rewrite Zminus_mod_idemp_l, Z.sub_diag. done.
  - eexists. split; [done|]. simpl. split.
    + intros _. by rewrite lookup_insert_eq.
    + intros Hlen. rewrite u64_small in Hzero by lia. lia.
Qed.

Lemma put_at_capacity_zero_witness :
  LFU.Put 0 (LFU.NewCache 0) "a" "x" = Done (false, LFU.NewCache 0) ∧
  ∃ c', LRU.Put 1 (LRU.NewCache 0) "a" "x" = Done (true, c') ∧
        ("x" = ""→ LRU.cache c' !! "a"%string = Some 0%nat)%string ∧
        (0 < len "x" < 2 ^ 64 → LRU.cache c' = ∅ ∧ LRU.linklist c' = []).
Proof. apply (put_at_capacity_zero 0 (LFU.NewCache 0) "a" "x"). reflexivity. Defined.

(** C5, as stated, fails on the LRU engine: on a new engine of capacity 0,
    Put("a", "") reports created = true and the key is in the cache
    afterwards. *)
Lemma lru_put_at_capacity_zero_creates :
  ∃ c', LRU.Put 0 (LRU.NewCache 0) "a" "" = Done (true, c') ∧
        LRU.HasKey c' "a" = true ∧ LRU.HasKey (LRU.NewCache 0) "a" = false.
Proof. eexists. split; [reflexivity|]. split; vm_compute; reflexivity. Qed.

(** ** C6: Put on a key the LRU engine already holds *)

(** C6. On the LRU engine a Put on a key that is already in the cache
    returns created = false; it overwrites the value of the existing node in
    place, moves that node to the head of the list (the other nodes keep
    their order), and leaves the size field as it was, whatever the byte
    length of the new value: a longer value does not increase size. The key
    index, the capacity and the counters are untouched as well. After the
    call the node of the key holds the new value under the same key, every
    other node is as it was, and a Get of the key returns the new value. *)
Theorem lru_put_existing_keeps_size capacity fuel c key value p :
  LRU.reachable capacity c →
  LRU.cache c !! key = Some p →
  ∃ n c',
    LRU.heap c !! p = Some n ∧
    LRU.Put fuel c key value = Done (false, c') ∧
    LRU.size c' = LRU.size c ∧
    LRU.heap c' = <[p := set_Value value n]> (LRU.heap c) ∧
    LRU.linklist c' = p :: filter (λ q, q ≠ p) (LRU.linklist c) ∧
    LRU.cache c' = LRU.cache c ∧
    LRU.capacity c' = LRU.capacity c ∧
    LRU.metrics c' = LRU.metrics c ∧
    LRU.heap c' !! p = Some {| Key := key; Value := value; Freq := Freq n |} ∧
    (∀ q, q ≠ p → LRU.heap c' !! q = LRU.heap c !! q) ∧
    ∃ c'', LRU.Get c' key = Done (value, true, c'').
Proof.
  intros Hr Hk. apply lru_reachable_linked in Hr.
  destruct (LRU.linked_cache _ Hr _ _ Hk) as [Hin (n & Hn & Hkn)].
  exists n. eexists. split; [done|].
  unfold LRU.Put. rewrite Hk. simpl.
  rewrite (RemoveNode_member _ _ Hin). simpl.
  unfold deref. simpl. rewrite Hn. simpl.
  split; [reflexivity|]. simpl. unfold AddNode.
  repeat (split; [done|]).
  split; [by rewrite lookup_insert_eq, <- Hkn|].
  split; [by intros q Hq; rewrite lookup_insert_ne|].
  unfold LRU.Get. simpl. rewrite Hk. simpl.
  unfold RemoveNode. rewrite decide_True by left. simpl.
  unfold deref. simpl. rewrite lookup_insert_eq. simpl. by eexists.
Qed.

(** The engine of capacity 5 after Put("a", "x"), overwritten with a value
    of ten bytes. *)
Lemma lru_put_existing_keeps_size_witness :
  ∃ n c',
    LRU.heap lru_a !! 0%nat = Some n ∧
    LRU.Put 0 lru_a "a" "xxxxxxxxxx" = Done (false, c') ∧
    LRU.size c' = LRU.size lru_a ∧
    LRU.heap c' = <[0%nat := set_Value "xxxxxxxxxx" n]> (LRU.heap lru_a) ∧
    LRU.linklist c' = 0%nat :: filter (λ q, q ≠ 0%nat) (LRU.linklist lru_a) ∧
    LRU.cache c' = LRU.cache lru_a ∧
    LRU.capacity c' = LRU.capacity lru_a ∧
    LRU.metrics c' = LRU.metrics lru_a ∧
    LRU.heap c' !! 0%nat =
      Some {| Key := "a"; Value := "xxxxxxxxxx"; Freq := Freq n |} ∧
    (∀ q, q ≠ 0%nat → LRU.heap c' !! q = LRU.heap lru_a !! q) ∧
    ∃ c'', LRU.Get c' "a" = Done ("xxxxxxxxxx"%string, true, c'').
Proof.
  apply (lru_put_existing_keeps_size 5).
  - apply (LRU.reach_Put 5 1 (LRU.NewCache 5) "a" "x" true); [apply LRU.reach_New|].
    vm_compute. reflexivity.
  - vm_compute. reflexivity.
Defined.

(** ** C7: the victim of an LFU eviction *)

(** The example of the specification: with room for two entries of one
    byte, after Put A, Put B and Get A, Put C evicts B and keeps A. *)
Lemma lfu_frequency_ordering_example :
  ∃ c', LFU.Put 1 lfu_ab_a "c" "x" = Done (true, c') ∧
        LFU.node c' !! "b"%string = None ∧
        is_Some (LFU.node c' !! "a"%string) ∧
        is_Some (LFU.node c' !! "c"%string).
Proof.
  eexists. split; [vm_compute; reflexivity|].
  split; [|split]; vm_compute; eauto.
Qed.

(** C7, at the input where it fails. After Put A, Delete A, Put A, Get A
    and Put B on an engine of capacity 3, A is resident with frequency 2
    and B with frequency 1, and the node of the deleted A is still the tail
    of bucket 1. Put C pops that node and removes key A from the index: the
    entry of frequency 2 is evicted and the one of frequency 1 stays. *)
Theorem lfu_put_evicts_more_frequent :
  LFU.run 1 (LFU.NewCache 3) lfu_stale_calls = Done lfu_stale ∧
  (∃ n, LFU.node lfu_stale !! "a"%string = Some 1%nat ∧
        LFU.heap lfu_stale !! 1%nat = Some n ∧ Freq n = 2) ∧
  (∃ n, LFU.node lfu_stale !! "b"%string = Some 2%nat ∧
        LFU.heap lfu_stale !! 2%nat = Some n ∧ Freq n = 1) ∧
  LFU.freq lfu_stale !! 1 = Some [2%nat; 0%nat] ∧
  ∃ c', LFU.Put 1 lfu_stale "c" "x" = Done (true, c') ∧
        LFU.node c' !! "a"%string = None ∧
        LFU.node c' !! "b"%string = Some 2%nat.
Proof.
  split; [vm_compute; reflexivity|].
  split; [eexists; repeat split; vm_compute; reflexivity|].
  split; [eexists; repeat split; vm_compute; reflexivity|].
  split; [vm_compute; reflexivity|].
  eexists. split; [vm_compute; reflexivity|]. split; vm_compute; reflexivity.
Qed.

(** What C7 says does hold on an engine in which no node is stale (Delete
    has not been called since the engine was new). At every turn of the
    loop of a Put, either nothing leaves the index, or the entry that
    leaves is the tail of the bucket at minFreq and no resident entry has a
    smaller frequency than it. *)
Lemma lfu_put_victim c c0 c1 value :
  LFU.linked c → lfu_tight c → LFU.ordered c → lfu_ranged c →
  lfu_turns (LFU.set_size (u64 (LFU.size c + len value)) c) c0 →
  LFU.evict_body c0 = Done c1 →
  LFU.node c1 = LFU.node c0 ∨
  ∃ r t n,
    LFU.freq c0 !! LFU.minFreq c0 = Some (r ++ [t]) ∧
    LFU.heap c0 !! t = Some n ∧ Freq n = LFU.minFreq c0 ∧
    LFU.node c0 !! Key n = Some t ∧
    LFU.node c1 = delete (Key n) (LFU.node c0) ∧
    ∀ k q m, LFU.node c0 !! k = Some q → LFU.heap c0 !! q = Some m →
             Freq n ≤ Freq m.
Proof.
  intros Hlk Ht Hord Hrg Hturns.
  apply lfu_turns_invariant in Hturns as (? & ? & ? & ?);
    [by apply lfu_evict_body_victim|].
  split; [by apply lfu_linked_set_size|]. split; [done|]. split; [done|].
  intros f l Hf. by destruct (LFU.ordered_keys _ Hord f l Hf).
Qed.

(** ** C8: self-eviction *)

(** C8, as the code has it, on the LRU engine. Take a reachable state
    whose size field is the byte total of its resident values. A Put of a
    new key whose value is longer than the capacity returns created = true
    with the key absent: the entry is inserted and the loop then evicts
    every entry, the new one last, so the cache ends empty with size 0.
    That is the size before the call when the cache was empty before the
    call. *)
Theorem lru_self_eviction capacity fuel c key value :
  LRU.reachable capacity c →
  LRU.size c = LRU.resident_bytes c →
  LRU.cache c !! key = None →
  0 ≤ capacity < len value →
  LRU.size c + len value < 2 ^ 64 →
  (length (LRU.linklist c) < fuel)%nat →
  ∃ c', LRU.Put fuel c key value = Done (true, c') ∧
        LRU.HasKey c' key = false ∧
        LRU.cache c' = ∅ ∧ LRU.linklist c' = [] ∧ LRU.size c' = 0 ∧
        (LRU.cache c = ∅ → LRU.size c' = LRU.size c).
Proof.
  intros Hr Hsz Hk Hcap Hfit Hfuel.
  pose proof (lru_reachable_capacity _ _ Hr) as Hc.
  apply lru_reachable_linked in Hr.
  pose proof (total_nonneg (LRU.heap c) (LRU.cache c)) as Hnn.
  pose proof (len_nonneg value) as Hvn.
  unfold LRU.resident_bytes in Hsz.
  set (lenOf := λ k, if decide (k = key) then len value
                     else match LRU.cache c !! k with
                          | Some p => weigh (LRU.heap c) p
                          | None => 0
                          end).
  assert (Hlen : lru_lengths lenOf c).
  { intros k p n Hp Hn. unfold lenOf. rewrite decide_False by congruence.
    by rewrite Hp, (weigh_Some _ _ _ Hn). }
  destruct (lru_inserted_counted lenOf c key value) as [Hcnt _]; try done.
  { split; [|done]. split; [done|lia]. }
  { unfold lenOf. by rewrite decide_True. }
  { lia. }
  rewrite lru_Put_new by done.
  destruct (lru_evict_flush (LRU.linklist c) fuel (lru_inserted c key value)
              (LRU.next c))
    as (c' & Hev & Hcache & Hlist & Hsize & _); try done.
  - by apply lru_inserted_linked.
  - simpl. lia.
  - simpl. rewrite weigh_insert_eq. simpl. lia.
  - exists c'. rewrite Hev. simpl. split; [done|].
    split; [unfold LRU.HasKey; rewrite Hcache, lookup_empty; by vm_compute|].
    repeat (split; [done|]).
    intros E. rewrite E, total_empty in Hsz. lia.
Qed.

Lemma lru_self_eviction_witness :
  ∃ c', LRU.Put 2 lru_a "b" "xxxxxx" = Done (true, c') ∧
        LRU.HasKey c' "b" = false ∧
        LRU.cache c' = ∅ ∧ LRU.linklist c' = [] ∧ LRU.size c' = 0 ∧
        (LRU.cache lru_a = ∅ → LRU.size c' = LRU.size lru_a).
Proof.
  apply (lru_self_eviction 5).
  - apply (LRU.reach_Put 5 1 (LRU.NewCache 5) "a" "x" true); [apply LRU.reach_New|].
    vm_compute. reflexivity.
  - vm_compute. reflexivity.
  - vm_compute. reflexivity.
  - split; [lia|vm_compute; reflexivity].
  - vm_compute. reflexivity.
  - vm_compute. lia.
Defined.

(** C8, as stated, fails on both engines. On the LRU engine of capacity 5
    that holds Put("a", "x"), so that size is 1, Put("b", "xxxxxx") evicts
    A as well and returns with size 0, not 1. On a new LFU engine of
    capacity 1, Put("a", "xx") does not return at all. *)
Lemma self_eviction_changes_size :
  LRU.cache lru_a !! "b"%string = None ∧ LRU.capacity lru_a < len "xxxxxx" ∧
  (∃ c', LRU.Put 2 lru_a "b" "xxxxxx" = Done (true, c')) ∧
  (∀ fuel created c', LRU.Put fuel lru_a "b" "xxxxxx" = Done (created, c') →
                      LRU.size c' ≠ LRU.size lru_a) ∧
  (∀ fuel, LFU.Put fuel (LFU.NewCache 1) "a" "xx" = OutOfFuel).
Proof.
  split; [vm_compute; reflexivity|]. split; [vm_compute; reflexivity|].
  destruct (LRU.Put 2 lru_a "b" "xxxxxx") as [[b0 c0]| |] eqn:E0;
    try (vm_compute in E0; discriminate).
  split; [exists c0; vm_compute in E0; congruence|]. split.
  - intros fuel created c' HP.
    pose proof (lru_Put_det _ _ _ _ _ _ _ E0 HP) as [= <- <-].
    vm_compute in E0. injection E0 as _ <-. vm_compute. discriminate.
  - intros fuel. rewrite lfu_Put_new; [|done|done].
    rewrite lfu_evict_spins; [done| |].
    + intros f l Hl. simpl in Hl. by rewrite lookup_empty in Hl.
    + vm_compute. reflexivity.
Qed.

(** ** C9: the counters *)

(** C9, as the code has it. Each Get, on either engine, increments exactly
    one of the hit and miss counters and no other counter. A Put that
    creates an entry increments the add counter exactly once and neither
    hit nor miss; on the LRU engine it increments the delete counter once
    per node evicted from the list. A Put that finds the key increments
    nothing on the LRU engine and the hit counter on the LFU engine, unless
    the capacity is 0, where the LFU Put increments nothing. *)
Theorem metrics_of_calls :
  (∀ c key value ok c', LRU.Get c key = Done (value, ok, c') →
     LRU.metrics c' = (if ok then Hits_Inc else Miss_Inc) (LRU.metrics c) ∧
     one_of_hit_miss (LRU.metrics c) (LRU.metrics c')) ∧
  (∀ c key value ok c', LFU.Get c key = Done (value, ok, c') →
     LFU.metrics c' = (if ok then Hits_Inc else Miss_Inc) (LFU.metrics c) ∧
     one_of_hit_miss (LFU.metrics c) (LFU.metrics c')) ∧
  (∀ fuel c key value c', LRU.Put fuel c key value = Done (true, c') →
     Hits (LRU.metrics c') = Hits (LRU.metrics c) ∧
     Miss (LRU.metrics c') = Miss (LRU.metrics c) ∧
     Adds (LRU.metrics c') = S (Adds (LRU.metrics c)) ∧
     (Deletes (LRU.metrics c') + length (LRU.linklist c') =
      Deletes (LRU.metrics c) + S (length (LRU.linklist c)))%nat) ∧
  (∀ fuel c key value c', LRU.Put fuel c key value = Done (false, c') →
     LRU.metrics c' = LRU.metrics c) ∧
  (∀ fuel c key value c', LFU.Put fuel c key value = Done (true, c') →
     Hits (LFU.metrics c') = Hits (LFU.metrics c) ∧
     Miss (LFU.metrics c') = Miss (LFU.metrics c) ∧
     Adds (LFU.metrics c') = S (Adds (LFU.metrics c))) ∧
  (∀ fuel c key value c', LFU.Put fuel c key value = Done (false, c') →
     LFU.metrics c' =
     (if LFU.capacity c =? 0 then LFU.metrics c else Hits_Inc (LFU.metrics c))).
Proof.
  split; [|split; [|split; [|split; [|split]]]].
  - intros c key value ok c' H. apply lru_Get_metrics in H as ->.
    split; [done|]. destruct ok; [left|right]; done.
  - intros c key value ok c' H. apply lfu_Get_metrics in H as ->.
    split; [done|]. destruct ok; [left|right]; done.
  - intros fuel c key value c' H. by apply lru_Put_metrics in H.
  - intros fuel c key value c' H. by apply lru_Put_metrics in H.
  - intros fuel c key value c' H. by apply lfu_Put_metrics in H.
  - intros fuel c key value c' H. by apply lfu_Put_metrics in H.
Qed.

Lemma metrics_of_calls_witness :
  one_of_hit_miss (LRU.metrics lru_a) (Hits_Inc (LRU.metrics lru_a)) ∧
  one_of_hit_miss (LFU.metrics lfu_a) (Miss_Inc (LFU.metrics lfu_a)) ∧
  Adds (LRU.metrics lru_a) = 1%nat ∧ Adds (LFU.metrics lfu_a) = 1%nat.
Proof.
  destruct metrics_of_calls as (Hget & Hget' & Hput & _ & Hput' & _).
  split; [|split; [|split]].
  - destruct (LRU.Get lru_a "a") as [[[v ok] c']| |] eqn:E;
      try (vm_compute in E; discriminate).
    destruct (Hget _ _ _ _ _ E) as [Hm Hone]. rewrite Hm in Hone.
    vm_compute in E. by injection E as _ <- _.
  - destruct (LFU.Get lfu_a "b") as [[[v ok] c']| |] eqn:E;
      try (vm_compute in E; discriminate).
    destruct (Hget' _ _ _ _ _ E) as [Hm Hone]. rewrite Hm in Hone.
    vm_compute in E. by injection E as _ <- _.
  - apply (Hput 1%nat (LRU.NewCache 5) "a" "x" lru_a)%string. vm_compute. reflexivity.
  - apply (Hput' 1%nat (LFU.NewCache 5) "a" "x" lfu_a)%string. vm_compute. reflexivity.
Defined.

(** C9, as stated, fails: on a new LRU engine Put("a", "x") creates the
    entry and increments neither the hit nor the miss counter. *)
Lemma lru_put_records_no_hit_or_miss :
  ∃ c', LRU.Put 0 (LRU.NewCache 5) "a" "x" = Done (true, c') ∧
        ¬ one_of_hit_miss (LRU.metrics (LRU.NewCache 5)) (LRU.metrics c').
Proof.
  eexists. split; [reflexivity|].
  intros [[H _]|[_ H]]; vm_compute in H; discriminate.
Qed.

(** ** C10: Delete on the LFU engine *)

(** C10. For every key present in the LFU engine, Delete(key) returns true
    and removes the key from the key index only: size, minFreq, every
    frequency bucket, the nodes and the counters are left as they were. The
    node of the deleted entry is still in the bucket of its frequency, which
    is why the clean-up branch, which asks whether that bucket is empty,
    does not fire. *)
Theorem lfu_delete_index_only capacity c key p :
  LFU.reachable capacity c →
  LFU.node c !! key = Some p →
  ∃ c' n l,
    LFU.Delete c key = Done (true, c') ∧
    LFU.node c' = delete key (LFU.node c) ∧
    LFU.size c' = LFU.size c ∧
    LFU.minFreq c' = LFU.minFreq c ∧
    LFU.freq c' = LFU.freq c ∧
    LFU.heap c' = LFU.heap c ∧
    LFU.metrics c' = LFU.metrics c ∧
    LFU.capacity c' = LFU.capacity c ∧
    LFU.heap c' !! p = Some n ∧ LFU.freq c' !! Freq n = Some l ∧ p ∈ l.
Proof.
  intros Hr Hk. apply lfu_reachable_linked in Hr.
  destruct (LFU.linked_node _ Hr _ _ Hk) as (n & Hn & _ & l & Hl & Hp).
  eexists _, n, l. split; [by eapply lfu_Delete_present|]. by simpl.
Qed.

Lemma lfu_delete_index_only_witness :
  ∃ c' n l,
    LFU.Delete lfu_a "a" = Done (true, c') ∧
    LFU.node c' = delete "a"%string (LFU.node lfu_a) ∧
    LFU.size c' = LFU.size lfu_a ∧
    LFU.minFreq c' = LFU.minFreq lfu_a ∧
    LFU.freq c' = LFU.freq lfu_a ∧
    LFU.heap c' = LFU.heap lfu_a ∧
    LFU.metrics c' = LFU.metrics lfu_a ∧
    LFU.capacity c' = LFU.capacity lfu_a ∧
    LFU.heap c' !! 0%nat = Some n ∧ LFU.freq c' !! Freq n = Some l ∧ 0%nat ∈ l.
Proof.
  apply (lfu_delete_index_only 5).
  - apply (lfu_run_reachable 5 1 [LFU.CallPut "a" "x"] (LFU.NewCache 5));
      [apply LFU.reach_New|]. vm_compute. reflexivity.
  - vm_compute. reflexivity.
Defined.

(** * Further properties of the engines *)

(** ** The LRU engine: the recency order and the contents *)

Lemma lru_contents_lookup c k :
  lru_contents c !! k =
  (λ p, default ""%string (Value <$> LRU.heap c !! p)) <$> LRU.cache c !! k.
Proof. unfold lru_contents. by rewrite lookup_fmap. Qed.

Lemma lru_HasKey_Some c k p : LRU.cache c !! k = Some p → LRU.HasKey c k = true.
Proof. intros H. unfold LRU.HasKey. rewrite H. by apply bool_decide_eq_true_2. Qed.

Lemma lru_HasKey_None c k : LRU.cache c !! k = None → LRU.HasKey c k = false.
Proof.
  intros H. unfold LRU.HasKey. rewrite H.
  apply bool_decide_eq_false_2. by intros [? ?].
Qed.

Lemma omap_cons {A B} (f : A → option B) x l :
  omap f (x :: l) =
  match f x with Some y => y :: omap f l | None => omap f l end.
Proof. reflexivity. Qed.

(** The keys of the recency order are the keys of the index. *)
Lemma lru_keys_elem c k :
  LRU.linked c → k ∈ lru_keys c ↔ is_Some (LRU.cache c !! k).
Proof.
  intros Hlk. unfold lru_keys. rewrite list_elem_of_omap. split.
  - intros (p & Hp & Hk). destruct (LRU.linked_list _ Hlk p Hp) as (n & Hn & Hkn).
    rewrite Hn in Hk. simpl in Hk. injection Hk as <-. eauto.
  - intros [p Hp]. destruct (LRU.linked_cache _ Hlk _ _ Hp) as [Hin (n & Hn & Hkn)].
    exists p. split; [done|]. rewrite Hn. simpl. by rewrite Hkn.
Qed.

(** Distinct nodes of the list have distinct keys. *)
Lemma keys_NoDup (heap : gmap handle Node) (cache : gmap string handle) (l : list handle) :
  (∀ q, q ∈ l → ∃ m, heap !! q = Some m ∧ cache !! Key m = Some q) →
  NoDup l → NoDup (omap (λ p, Key <$> heap !! p) l).
Proof.
  induction l as [|q l IH]; intros Hix Hnd; simpl; [constructor|].
  apply NoDup_cons in Hnd as [Hq Hnd].
  destruct (Hix q ltac:(left)) as (m & Hm & Hkm). rewrite Hm. simpl.
  constructor.
  - rewrite list_elem_of_omap. intros (q' & Hq' & Hk').
    destruct (Hix q' ltac:(by right)) as (m' & Hm' & Hkm').
    rewrite Hm' in Hk'. simpl in Hk'. injection Hk' as Hk'.
    rewrite Hk' in Hkm'. congruence.
  - apply IH; [|done]. intros q' Hq'. apply Hix. by right.
Qed.

(** Taking a node out of the list takes its key out of the keys. *)
Lemma keys_filter (heap : gmap handle Node) (cache : gmap string handle)
    (l : list handle) p n :
  (∀ q, q ∈ l → ∃ m, heap !! q = Some m ∧ cache !! Key m = Some q) →
  heap !! p = Some n → cache !! Key n = Some p →
  omap (λ q, Key <$> heap !! q) (filter (λ q, q ≠ p) l) =
  filter (λ k, k ≠ Key n) (omap (λ q, Key <$> heap !! q) l).
Proof.
  intros Hix Hn Hkn. induction l as [|q l IH]; [done|].
  destruct (Hix q ltac:(left)) as (m & Hm & Hkm).
  assert (IH' := IH (λ q' Hq', Hix q' ltac:(by right))).
  destruct (decide (q = p)) as [->|Hne].
  - rewrite filter_cons_False by (intros ?; done). simpl. rewrite Hn. simpl.
    rewrite filter_cons_False by (intros ?; done). done.
  - rewrite filter_cons_True by done. simpl. rewrite Hm. simpl.
    rewrite filter_cons_True by (intros E; rewrite E in Hkm; congruence).
    f_equal. apply IH'.
Qed.

(** The keys only depend on the keys of the nodes. *)
Lemma keys_ext (heap heap' : gmap handle Node) (l : list handle) :
  (∀ q, q ∈ l → Key <$> heap' !! q = Key <$> heap !! q) →
  omap (λ q, Key <$> heap' !! q) l = omap (λ q, Key <$> heap !! q) l.
Proof.
  induction l as [|q l IH]; intros H; [done|].
  rewrite !omap_cons, (H q ltac:(left)), IH; [done|].
  intros q' Hq'. apply H. by right.
Qed.

Lemma lru_contents_outside c k :
  LRU.linked c → k ∉ lru_keys c → lru_contents c !! k = None.
Proof.
  intros Hlk Hk. rewrite lru_contents_lookup.
  destruct (LRU.cache c !! k) as [p|] eqn:E; [|done].
  exfalso. apply Hk. apply lru_keys_elem; eauto.
Qed.

(** What Get computes on a linked engine. *)
Lemma lru_Get_linked c key :
  LRU.linked c →
  ∃ c', LRU.Get c key =
        Done (default ""%string (lru_contents c !! key), LRU.HasKey c key, c') ∧
        lru_contents c' = lru_contents c ∧
        LRU.size c' = LRU.size c ∧ LRU.capacity c' = LRU.capacity c ∧
        lru_keys c' =
        if LRU.HasKey c key then key :: filter (λ k, k ≠ key) (lru_keys c)
        else lru_keys c.
Proof.
  intros Hlk. unfold LRU.Get. rewrite lru_contents_lookup.
  destruct (LRU.cache c !! key) as [p|] eqn:Hk.
  - destruct (LRU.linked_cache _ Hlk _ _ Hk) as [Hin (n & Hn & Hkn)].
    rewrite (lru_HasKey_Some _ _ _ Hk). simpl.
    rewrite (RemoveNode_member _ _ Hin). simpl.
    unfold deref. simpl. rewrite Hn. simpl.
    eexists. split; [done|]. split; [done|]. split; [done|]. split; [done|].
    unfold lru_keys. simpl. unfold AddNode. simpl. rewrite Hn. simpl.
    rewrite Hkn. f_equal. rewrite <- Hkn.
    apply (keys_filter _ (LRU.cache c)); [|done|by rewrite Hkn].
    apply (LRU.linked_list _ Hlk).
  - rewrite (lru_HasKey_None _ _ Hk). simpl. by eexists.
Qed.

(** The engine before the loop of a Put of a new key: the key is the most
    recent one, and the contents have the new value. *)
Lemma lru_inserted_keys c key value :
  LRU.linked c →
  lru_keys (lru_inserted c key value) = key :: lru_keys c.
Proof.
  intros Hlk. unfold lru_keys. simpl. rewrite lookup_insert_eq. simpl. f_equal.
  apply keys_ext. intros q Hq. rewrite lookup_insert_ne; [done|].
  intros <-. destruct (LRU.linked_list _ Hlk _ Hq) as (m & Hm & _).
  pose proof (lru_fresh_next c Hlk). congruence.
Qed.

Lemma lru_inserted_contents c key value :
  LRU.linked c →
  lru_contents (lru_inserted c key value) = <[key := value]> (lru_contents c).
Proof.
  intros Hlk. unfold lru_contents. simpl. rewrite fmap_insert.
  rewrite lookup_insert_eq. simpl. f_equal.
  apply map_fmap_ext. intros k p Hp.
  rewrite lookup_insert_ne; [done|]. by eapply lru_index_not_fresh.
Qed.

(** The loop of Put takes nodes off the end of the list, and leaves the
    nodes themselves and the index of the nodes that stay alone. *)
Lemma lru_evict_suffix fuel c c' :
  LRU.linked c → LRU.evict fuel c = Done c' →
  LRU.linked c' ∧ LRU.heap c' = LRU.heap c ∧
  (∃ evicted, LRU.linklist c = LRU.linklist c' ++ evicted) ∧
  (∀ k p, LRU.cache c' !! k = Some p → LRU.cache c !! k = Some p).
Proof.
  intros Hlk Hev.
  eapply (lru_evict_ind (λ c1,
            LRU.linked c1 ∧ LRU.heap c1 = LRU.heap c ∧
            (∃ evicted, LRU.linklist c = LRU.linklist c1 ++ evicted) ∧
            (∀ k p, LRU.cache c1 !! k = Some p → LRU.cache c !! k = Some p)))
    in Hev as [? _]; [done| |].
  - intros c1 c2 (Hlk1 & Hh & [ev Hev1] & Hsub) _ Hb.
    split; [by eapply lru_linked_evict_body|].
    unfold LRU.evict_body in Hb. simpl in Hb.
    destruct (PopTail (LRU.linklist c1)) as [[t r]| |] eqn:Hpop; simpl in Hb; try done.
    apply PopTail_Done in Hpop.
    destruct (deref (LRU.heap c1) t) as [n| |]; simpl in Hb; try done.
    injection Hb as <-. simpl. split; [done|]. split.
    + exists (t :: ev). rewrite Hev1, Hpop. by rewrite <- app_assoc.
    + intros k p Hp. apply lookup_delete_Some in Hp as [_ Hp]. by apply Hsub.
  - split; [done|]. split; [done|]. split; [by exists []; rewrite app_nil_r|done].
Qed.

Lemma filter_all {A} (P : A → Prop) `{∀ x, Decision (P x)} (l : list A) :
  (∀ x, x ∈ l → P x) → filter P l = l.
Proof.
  induction l as [|x l IH]; intros Hall; [done|].
  rewrite filter_cons_True by (apply Hall; left).
  f_equal. apply IH. intros y Hy. apply Hall. by right.
Qed.

(** What a returned Put leaves behind, on a linked engine. *)
Lemma lru_Put_linked fuel c key value created c' :
  LRU.linked c → LRU.Put fuel c key value = Done (created, c') →
  created = negb (LRU.HasKey c key) ∧
  (∃ evicted,
     key :: filter (λ k, k ≠ key) (lru_keys c) = lru_keys c' ++ evicted ∧
     (created = false → evicted = [])) ∧
  ∀ k, lru_contents c' !! k =
       if decide (k ∈ lru_keys c') then <[key := value]> (lru_contents c) !! k
       else None.
Proof.
  intros Hlk HP.
  pose proof (lru_linked_Put _ _ _ _ _ _ Hlk HP) as Hlk'.
  destruct (LRU.cache c !! key) as [p|] eqn:Hk.
  - rewrite (lru_HasKey_Some _ _ _ Hk).
    unfold LRU.Put in HP. rewrite Hk in HP.
    destruct (LRU.linked_cache _ Hlk _ _ Hk) as [Hin (n & Hn & Hkn)].
    rewrite (RemoveNode_member _ _ Hin) in HP. simpl in HP.
    unfold deref in HP. simpl in HP. rewrite Hn in HP. simpl in HP.
    injection HP as <- <-. split; [done|].
    assert (Hkeys : lru_keys
              (LRU.set_heap (<[p := set_Value value n]> (LRU.heap c))
                 (LRU.set_linklist
                    (AddNode p (filter (λ q, q ≠ p) (LRU.linklist c))) c)) =
            key :: filter (λ k, k ≠ key) (lru_keys c)).
    { unfold lru_keys. simpl. rewrite lookup_insert_eq. simpl. rewrite Hkn. f_equal.
      etrans; [apply (keys_ext (LRU.heap c))|].
      - intros q Hq. apply filter_ne_elem in Hq as [Hne _].
        by rewrite lookup_insert_ne.
      - rewrite <- Hkn.
        apply (keys_filter _ (LRU.cache c));
          [apply (LRU.linked_list _ Hlk)|done|by rewrite Hkn]. }
    assert (Hcont : lru_contents
              (LRU.set_heap (<[p := set_Value value n]> (LRU.heap c))
                 (LRU.set_linklist
                    (AddNode p (filter (λ q, q ≠ p) (LRU.linklist c))) c)) =
            <[key := value]> (lru_contents c)).
    { apply map_eq. intros k. rewrite lru_contents_lookup. simpl.
      destruct (decide (k = key)) as [->|Hne].
      - rewrite Hk, lookup_insert_eq. simpl. by rewrite lookup_insert_eq.
      - rewrite lookup_insert_ne by done. rewrite lru_contents_lookup.
        destruct (LRU.cache c !! k) as [q|] eqn:Hq; [|done]. simpl.
        rewrite lookup_insert_ne; [done|]. intros <-.
        destruct (LRU.linked_cache _ Hlk _ _ Hq) as [_ (m & Hm & Hkm)]. congruence. }
    split.
    + exists []. by rewrite Hkeys, app_nil_r.
    + intros k. case_decide as Hin'; [by rewrite Hcont|].
      by apply lru_contents_outside.
  - rewrite (lru_HasKey_None _ _ Hk).
    rewrite lru_Put_new in HP by done.
    destruct (LRU.evict _ _) as [c1| |] eqn:Hev; simpl in HP; try done.
    injection HP as <- <-. split; [done|].
    apply lru_evict_suffix in Hev as (Hlk1 & Hheap & [ev Hl] & Hsub);
      [|by apply lru_inserted_linked].
    split.
    + exists (omap (λ q, Key <$> LRU.heap c1 !! q) ev). split; [|done].
      rewrite filter_all.
      * rewrite <- (lru_inserted_keys c key value Hlk).
        unfold lru_keys at 1. rewrite Hl, omap_app, <- Hheap. done.
      * intros k Hin ->. apply (lru_keys_elem _ _ Hlk) in Hin as [q Hq]. congruence.
    + intros k. case_decide as Hin'; [|by apply lru_contents_outside].
      apply (lru_keys_elem _ _ Hlk1) in Hin' as [q Hq].
      rewrite <- (lru_inserted_contents c key value Hlk).
      rewrite !lru_contents_lookup, Hq, (Hsub _ _ Hq). simpl. by rewrite Hheap.
Qed.

(** While the head of the list fits within the capacity by itself, the
    loop of Put stops before it reaches the head. *)
Lemma lru_evict_keeps_head l : ∀ fuel c p n,
  LRU.linked c → lru_counted c →
  LRU.linklist c = p :: l → LRU.heap c !! p = Some n →
  len (Value n) ≤ LRU.capacity c →
  (length l < fuel)%nat →
  ∃ c', LRU.evict fuel c = Done c' ∧ LRU.linked c' ∧
        LRU.heap c' = LRU.heap c ∧ LRU.cache c' !! Key n = Some p.
Proof.
  induction l as [|t l IH] using rev_ind; intros fuel c p n Hlk Hcnt Hl Hn Hfit Hfuel.
  - assert (Hp : p ∈ LRU.linklist c) by (rewrite Hl; left).
    destruct (LRU.linked_list _ Hlk p Hp) as (n' & Hn' & Hkn).
    assert (n' = n) as -> by congruence.
    assert (Hempty : delete (Key n) (LRU.cache c) = ∅).
    { apply map_empty. intros k. apply lookup_delete_None.
      destruct (decide (Key n = k)) as [|Hne]; [by left|right].
      destruct (LRU.cache c !! k) as [q|] eqn:Hq; [|done].
      destruct (LRU.linked_cache _ Hlk k q Hq) as [Hin (m & Hm & Hkm)].
      rewrite Hl in Hin. apply list_elem_of_singleton in Hin as ->. congruence. }
    destruct Hcnt as [Hsz _]. unfold LRU.resident_bytes in Hsz.
    rewrite (total_delete _ _ _ _ Hkn), Hempty, total_empty,
      (weigh_Some _ _ _ Hn) in Hsz.
    exists c. split; [apply lru_evict_within; lia|done].
  - destruct (Z.le_gt_cases (LRU.size c) (LRU.capacity c)) as [Hle|Hgt].
    { exists c. split; [by apply lru_evict_within|]. split; [done|]. split; [done|].
      assert (Hp : p ∈ LRU.linklist c) by (rewrite Hl; left).
      destruct (LRU.linked_list _ Hlk p Hp) as (n' & Hn' & Hkn). congruence. }
    destruct fuel as [|fuel]; [lia|].
    rewrite length_app in Hfuel. simpl in Hfuel.
    assert (Hl' : LRU.linklist c = (p :: l) ++ [t]) by by rewrite Hl.
    destruct (lru_evict_body_Done c (p :: l) t Hlk Hl') as (m & Hm & Hkm & Hb).
    simpl. destruct (Z.ltb_spec (LRU.capacity c) (LRU.size c)); [|lia].
    rewrite Hb. simpl.
    destruct (IH fuel (lru_evicted c (p :: l) m) p n) as (c' & Hev & ? & ? & ?);
      try done.
    + by eapply lru_linked_evict_body.
    + eapply (lru_counted_evict_body _ c); [done| |done].
      split; [done|]. by apply lru_lengths_own.
    + lia.
    + by exists c'.
Qed.

(** The engines a sequence of Puts leads to are reachable. *)
Lemma lru_Puts_reachable capacity fuel kvs : ∀ c c',
  LRU.reachable capacity c → LRU.Puts fuel c kvs = Done c' →
  LRU.reachable capacity c'.
Proof.
  induction kvs as [|[k v] kvs IH]; intros c c' Hr; simpl.
  - by intros [= <-].
  - destruct (LRU.Put fuel c k v) as [[b c1]| |] eqn:HP; simpl; try done.
    apply IH. by eapply LRU.reach_Put.
Qed.

Lemma lru_a_reachable : LRU.reachable 5 lru_a.
Proof.
  apply (lru_Puts_reachable 5 1 [("a", "x")]%string (LRU.NewCache 5));
    [apply LRU.reach_New|]. vm_compute. reflexivity.
Qed.

Lemma lru_abc_reachable : LRU.reachable 5 lru_abc.
Proof.
  apply (lru_Puts_reachable 5 1 abc_puts (LRU.NewCache 5));
    [apply LRU.reach_New|]. vm_compute. reflexivity.
Qed.

(** ** X1 to X4: the LRU engine *)

(** X1. In every state of the LRU engine that completed calls lead to, the
    recency order lists each resident key exactly once: the list has no two
    nodes of one key, and a key is in it if and only if HasKey finds it. *)
Theorem lru_recency_lists_each_key_once capacity c :
  LRU.reachable capacity c →
  NoDup (lru_keys c) ∧ ∀ k, k ∈ lru_keys c ↔ LRU.HasKey c k = true.
Proof.
  intros Hr. apply lru_reachable_linked in Hr. split.
  - apply (keys_NoDup _ (LRU.cache c)).
    + apply (LRU.linked_list _ Hr).
    + apply (LRU.linked_NoDup _ Hr).
  - intros k. rewrite (lru_keys_elem _ _ Hr). unfold LRU.HasKey.
    by rewrite bool_decide_eq_true.
Qed.

Lemma lru_recency_lists_each_key_once_witness :
  NoDup (lru_keys lru_abc) ∧ ∀ k, k ∈ lru_keys lru_abc ↔ LRU.HasKey lru_abc k = true.
Proof. apply (lru_recency_lists_each_key_once 5), lru_abc_reachable. Defined.

(** X2. On the LRU engine Get is a lookup that refreshes recency and does
    nothing else. In every reachable state it returns, with ok telling
    whether the key is resident (what HasKey answers) and, on a hit, the
    value held under the key; the contents, the size field and the capacity
    are as before; on a hit the key becomes the most recently used one and
    the other keys keep their order, on a miss the order is unchanged. *)
Theorem lru_get_is_lookup capacity c key :
  LRU.reachable capacity c →
  ∃ c', LRU.Get c key =
        Done (default ""%string (lru_contents c !! key), LRU.HasKey c key, c') ∧
        lru_contents c' = lru_contents c ∧
        LRU.size c' = LRU.size c ∧ LRU.capacity c' = LRU.capacity c ∧
        lru_keys c' =
        if LRU.HasKey c key then key :: filter (λ k, k ≠ key) (lru_keys c)
        else lru_keys c.
Proof. intros Hr. by apply lru_Get_linked, (lru_reachable_linked capacity). Qed.

Lemma lru_get_is_lookup_witness :
  ∃ c', LRU.Get lru_abc "b" =
        Done (default ""%string (lru_contents lru_abc !! "b"%string),
              LRU.HasKey lru_abc "b", c') ∧
        lru_contents c' = lru_contents lru_abc ∧
        LRU.size c' = LRU.size lru_abc ∧ LRU.capacity c' = LRU.capacity lru_abc ∧
        lru_keys c' =
        if LRU.HasKey lru_abc "b"
        then "b"%string :: filter (λ k, k ≠ "b"%string) (lru_keys lru_abc)
        else lru_keys lru_abc.
Proof. apply (lru_get_is_lookup 5), lru_abc_reachable. Defined.

(** X3. The LRU engine evicts the least recently used entries, and only
    those. After a Put that returned, the recency order is the one before
    the call with the key moved (or added) to the front, less a final
    segment: the entries evicted. A Put on a resident key evicts nothing and
    reports created = false; a Put on a new key reports created = true. The
    entries that stay hold the values they held, except that the key of the
    call holds the new value. *)
Theorem lru_put_evicts_least_recent capacity fuel c key value created c' :
  LRU.reachable capacity c →
  LRU.Put fuel c key value = Done (created, c') →
  created = negb (LRU.HasKey c key) ∧
  (∃ evicted,
     key :: filter (λ k, k ≠ key) (lru_keys c) = lru_keys c' ++ evicted ∧
     (created = false → evicted = [])) ∧
  ∀ k, lru_contents c' !! k =
       if decide (k ∈ lru_keys c') then <[key := value]> (lru_contents c) !! k
       else None.
Proof.
  intros Hr. apply lru_Put_linked. by apply (lru_reachable_linked capacity).
Qed.

Lemma lru_ab_reachable : LRU.reachable 5 lru_ab.
Proof.
  apply (lru_Puts_reachable 5 1 [("a", "x"); ("b", "xxx")]%string (LRU.NewCache 5));
    [apply LRU.reach_New|]. vm_compute. reflexivity.
Qed.

(** Put("c", "xx") on the engine of capacity 5 that holds A (one byte) and
    B (three bytes) evicts A, the least recently used entry. *)
Lemma lru_put_evicts_least_recent_witness :
  true = negb (LRU.HasKey lru_ab "c") ∧
  (∃ evicted,
     "c"%string :: filter (λ k, k ≠ "c"%string) (lru_keys lru_ab) =
     lru_keys lru_abc ++ evicted ∧
     (true = false → evicted = [])) ∧
  ∀ k, lru_contents lru_abc !! k =
       if decide (k ∈ lru_keys lru_abc)
       then <["c"%string := "xx"%string]> (lru_contents lru_ab) !! k
       else None.
Proof.
  apply (lru_put_evicts_least_recent 5 1 lru_ab "c" "xx" true lru_abc).
  - apply lru_ab_reachable.
  - vm_compute. reflexivity.
Defined.

(** X4. On the LRU engine a Get that follows a Put returns the value put,
    whenever the value fits within the capacity by itself. Take a reachable
    state whose size field is the byte total of its resident values, and a
    value no longer than the capacity whose bytes do not overflow the size
    field. The Put returns (after at most one turn of the loop per entry
    that was resident), and the Get of the same key that follows is a hit
    with that value. *)
Theorem lru_put_then_get capacity c key value :
  LRU.reachable capacity c →
  LRU.size c = LRU.resident_bytes c →
  len value ≤ capacity →
  LRU.size c + len value < 2 ^ 64 →
  ∃ created c1 c2,
    LRU.Put (S (length (LRU.linklist c))) c key value = Done (created, c1) ∧
    LRU.Get c1 key = Done (value, true, c2).
Proof.
  intros Hr Hsz Hfit Hno.
  pose proof (lru_reachable_capacity _ _ Hr) as Hcap.
  apply lru_reachable_linked in Hr.
  pose proof (total_nonneg (LRU.heap c) (LRU.cache c)) as Hnn.
  pose proof (len_nonneg value) as Hvn.
  unfold LRU.resident_bytes in Hsz.
  assert (HP : ∃ created c1 p,
            LRU.Put (S (length (LRU.linklist c))) c key value = Done (created, c1) ∧
            LRU.cache c1 !! key = Some p).
  { destruct (LRU.cache c !! key) as [p|] eqn:Hk.
    - destruct (LRU.linked_cache _ Hr _ _ Hk) as [Hin (n & Hn & Hkn)].
      unfold LRU.Put. rewrite Hk, (RemoveNode_member _ _ Hin). simpl.
      unfold deref. simpl. rewrite Hn. simpl.
      eexists _, _, p. split; [done|]. done.
    - set (lenOf := λ k, if decide (k = key) then len value
                         else match LRU.cache c !! k with
                              | Some p => weigh (LRU.heap c) p
                              | None => 0
                              end).
      assert (Hlen : lru_lengths lenOf c).
      { intros k p n Hp Hn. unfold lenOf. rewrite decide_False by congruence.
        by rewrite Hp, (weigh_Some _ _ _ Hn). }
      destruct (lru_inserted_counted lenOf c key value) as [Hcnt _]; try done.
      { split; [|done]. split; [done|lia]. }
      { unfold lenOf. by rewrite decide_True. }
      { lia. }
      rewrite lru_Put_new by done.
      destruct (lru_evict_keeps_head (LRU.linklist c) (S (length (LRU.linklist c)))
                  (lru_inserted c key value) (LRU.next c)
                  {| Key := key; Value := value; Freq := 0 |})
        as (c1 & Hev & _ & _ & Hkept); try done.
      + by apply lru_inserted_linked.
      + simpl. by rewrite lookup_insert_eq.
      + simpl. lia.
      + lia.
      + rewrite Hev. simpl. by eexists _, _, _. }
  destruct HP as (created & c1 & p & HP & Hk1).
  pose proof (lru_linked_Put _ _ _ _ _ _ Hr HP) as Hlk1.
  destruct (lru_Put_linked _ _ _ _ _ _ Hr HP) as (_ & _ & Hcont).
  destruct (lru_Get_linked c1 key Hlk1) as (c2 & HG & _).
  exists created, c1, c2. split; [done|].
  rewrite HG, (lru_HasKey_Some _ _ _ Hk1), Hcont.
  rewrite decide_True by (apply lru_keys_elem; eauto).
  by rewrite lookup_insert_eq.
Qed.

Lemma lru_put_then_get_witness :
  ∃ created c1 c2,
    LRU.Put (S (length (LRU.linklist lru_ab))) lru_ab "c" "xx" = Done (created, c1) ∧
    LRU.Get c1 "c" = Done ("xx"%string, true, c2).
Proof.
  apply (lru_put_then_get 5).
  - apply lru_ab_reachable.
  - vm_compute. reflexivity.
  - vm_compute. discriminate.
  - vm_compute. reflexivity.
Defined.

(** ** The LFU engine: the contents and the frequencies *)

Lemma lfu_Snapshot_lookup c k :
  LFU.Snapshot c !! k =
  (λ p, default ""%string (Value <$> LFU.heap c !! p)) <$> LFU.node c !! k.
Proof. unfold LFU.Snapshot. by rewrite lookup_fmap. Qed.

Lemma lfu_Snapshot_is_Some c k :
  is_Some (LFU.Snapshot c !! k) ↔ is_Some (LFU.node c !! k).
Proof. rewrite lfu_Snapshot_lookup. apply fmap_is_Some. Qed.

(** Two keys of a linked engine do not share a node. *)
Lemma lfu_index_injective c k k' p :
  LFU.linked c → LFU.node c !! k = Some p → LFU.node c !! k' = Some p → k = k'.
Proof.
  intros Hlk Hk Hk'.
  destruct (LFU.linked_node _ Hlk _ _ Hk) as (n & Hn & Hkn & _).
  destruct (LFU.linked_node _ Hlk _ _ Hk') as (n' & Hn' & Hkn' & _).
  congruence.
Qed.

(** The touch leaves the index, the values, the size and the capacity
    alone, and counts one more use of the node it touches. *)
Lemma lfu_touched_frame c p n l :
  LFU.linked c → LFU.heap c !! p = Some n →
  LFU.node (lfu_touched c p n l) = LFU.node c ∧
  LFU.size (lfu_touched c p n l) = LFU.size c ∧
  LFU.capacity (lfu_touched c p n l) = LFU.capacity c ∧
  LFU.heap (lfu_touched c p n l) !! p = Some (set_Freq (int64 (Freq n + 1)) n) ∧
  (∀ q, q ≠ p → LFU.heap (lfu_touched c p n l) !! q = LFU.heap c !! q) ∧
  LFU.Snapshot (lfu_touched c p n l) = LFU.Snapshot c.
Proof.
  intros Hlk Hn. unfold lfu_touched. simpl.
  repeat (split; [done|]).
  split; [by rewrite lookup_insert_eq|].
  split; [by intros q Hq; rewrite lookup_insert_ne|].
  unfold LFU.Snapshot. simpl. apply map_fmap_ext. intros k q Hq.
  destruct (decide (q = p)) as [->|Hne].
  - by rewrite lookup_insert_eq, Hn.
  - by rewrite lookup_insert_ne.
Qed.

(** What Get computes on a linked engine. *)
Lemma lfu_Get_linked c key :
  LFU.linked c →
  ∃ c', LFU.Get c key =
        Done (default ""%string (LFU.Snapshot c !! key),
              bool_decide (is_Some (LFU.Snapshot c !! key)), c') ∧
        LFU.Snapshot c' = LFU.Snapshot c ∧
        LFU.size c' = LFU.size c ∧ LFU.capacity c' = LFU.capacity c.
Proof.
  intros Hlk. destruct (LFU.node c !! key) as [p|] eqn:Hk.
  - destruct (lfu_Get_hit c key p Hlk Hk) as (n & l & Hn & Hkn & Hl & Hp & HG).
    destruct (lfu_touched_frame (LFU.record Hits_Inc c) p n l)
      as (_ & Hsz & Hcap & _ & _ & Hsnap); [by apply lfu_linked_record|done|].
    eexists. rewrite HG, lfu_Snapshot_lookup, Hk. simpl. rewrite Hn. simpl.
    split; [done|]. done.
  - unfold LFU.Get. rewrite lfu_Snapshot_lookup, Hk. simpl.
    eexists. split; [done|]. done.
Qed.

(** The loop of the LFU Put on a linked engine does not panic. *)
Lemma lfu_evict_safe fuel : ∀ c e,
  LFU.linked c → LFU.evict fuel c ≠ Panic e.
Proof.
  induction fuel as [|fuel IH]; intros c e Hlk; simpl.
  - by destruct (LFU.capacity c <? LFU.size c).
  - destruct (LFU.capacity c <? LFU.size c); [|done].
    destruct (LFU.evict_body c) as [c1| |] eqn:Hb; simpl.
    + apply IH. by eapply lfu_linked_evict_body.
    + destruct (lfu_evict_body_cases c Hlk) as [[_ H]|(r & t & n & _ & _ & _ & H)];
        congruence.
    + done.
Qed.

(** The loop of the LFU Put leaves the nodes alone, and the index of the
    keys it does not evict. *)
Lemma lfu_evict_frame fuel c c' :
  LFU.linked c → LFU.evict fuel c = Done c' →
  LFU.linked c' ∧ LFU.heap c' = LFU.heap c ∧
  (∀ k p, LFU.node c' !! k = Some p → LFU.node c !! k = Some p).
Proof.
  intros Hlk Hev.
  eapply (lfu_evict_ind (λ c1,
            LFU.linked c1 ∧ LFU.heap c1 = LFU.heap c ∧
            (∀ k p, LFU.node c1 !! k = Some p → LFU.node c !! k = Some p)))
    in Hev as [? _]; [done| |done].
  intros c1 c2 (Hlk1 & Hh & Hsub) _ Hb.
  split; [by eapply lfu_linked_evict_body|].
  destruct (lfu_evict_body_cases c1 Hlk1) as [[_ H]|(r & t & n & _ & _ & _ & H)];
    rewrite H in Hb; injection Hb as <-; simpl; (split; [done|]); [done|].
  intros k p Hp. apply lookup_delete_Some in Hp as [_ Hp]. by apply Hsub.
Qed.

(** A Put on a resident key, in terms of the index and the nodes. *)
Lemma lfu_Put_existing_frame fuel c key value p :
  LFU.linked c → LFU.capacity c ≠ 0 → LFU.node c !! key = Some p →
  ∃ n c', LFU.heap c !! p = Some n ∧
          LFU.Put fuel c key value = Done (false, c') ∧
          LFU.node c' = LFU.node c ∧ LFU.size c' = LFU.size c ∧
          LFU.heap c' =
          <[p := set_Value value (set_Freq (int64 (Freq n + 1)) n)]> (LFU.heap c).
Proof.
  intros Hlk Hcap Hk.
  destruct (lfu_Put_existing fuel c key value p Hlk Hcap Hk)
    as (n & l & Hn & Hkn & Hl & Hp & HP).
  exists n. eexists. split; [done|]. split; [exact HP|].
  unfold lfu_touched. simpl. by rewrite insert_insert_eq.
Qed.

(** What a returned Put leaves behind, on a linked engine of capacity
    other than 0. *)
Lemma lfu_Put_linked fuel c key value created c' :
  LFU.linked c → LFU.capacity c ≠ 0 →
  LFU.Put fuel c key value = Done (created, c') →
  created = negb (bool_decide (is_Some (LFU.Snapshot c !! key))) ∧
  LFU.Snapshot c' !! key = Some value ∧
  (∀ k v, k ≠ key → LFU.Snapshot c' !! k = Some v → LFU.Snapshot c !! k = Some v) ∧
  (created = false → LFU.Snapshot c' = <[key := value]> (LFU.Snapshot c)) ∧
  (created = true → lfu_frequency c' key = Some 1) ∧
  (∀ k f, k ≠ key → lfu_frequency c' k = Some f → lfu_frequency c k = Some f).
Proof.
  intros Hlk Hcap HP. destruct (LFU.node c !! key) as [p|] eqn:Hk.
  - destruct (lfu_Put_existing_frame fuel c key value p Hlk Hcap Hk)
      as (n & c1 & Hn & HP' & Hnode & _ & Hheap).
    rewrite HP' in HP. injection HP as <- <-.
    assert (Hall : LFU.Snapshot c1 = <[key := value]> (LFU.Snapshot c)).
    { apply map_eq. intros k. rewrite lfu_Snapshot_lookup, Hnode, Hheap.
      destruct (decide (k = key)) as [->|Hne].
      - rewrite Hk, lookup_insert_eq. simpl. by rewrite lookup_insert_eq.
      - rewrite lookup_insert_ne by done. rewrite lfu_Snapshot_lookup.
        destruct (LFU.node c !! k) as [q|] eqn:Hq; [|done]. simpl.
        assert (q ≠ p) by (intros ->; apply Hne; by eapply lfu_index_injective).
        by rewrite lookup_insert_ne. }
    split; [by rewrite bool_decide_eq_true_2
              by (apply lfu_Snapshot_is_Some; eauto)|].
    split; [by rewrite Hall, lookup_insert_eq|].
    split; [by intros k v Hne; rewrite Hall, lookup_insert_ne|].
    split; [done|]. split; [done|].
    intros k f Hne. unfold lfu_frequency. rewrite Hnode, Hheap.
    destruct (LFU.node c !! k) as [q|] eqn:Hq; [|done]. simpl.
    assert (q ≠ p) by (intros ->; apply Hne; by eapply lfu_index_injective).
    by rewrite lookup_insert_ne.
  - rewrite lfu_Put_new in HP by done.
    destruct (LFU.evict _ _) as [c1| |] eqn:Hev; simpl in HP; try done.
    injection HP as <- <-.
    apply lfu_evict_frame in Hev as (Hlk1 & Hheap & Hsub);
      [|by apply lfu_linked_set_size].
    simpl in Hheap, Hsub.
    split; [by rewrite bool_decide_eq_false_2
              by (rewrite lfu_Snapshot_is_Some, Hk; by intros [? ?])|].
    split; [rewrite lfu_Snapshot_lookup; simpl; rewrite lookup_insert_eq; simpl;
            by rewrite lookup_insert_eq|].
    split; [|split; [done|]; split].
    + intros k v Hne. rewrite !lfu_Snapshot_lookup. simpl.
      rewrite lookup_insert_ne by done.
      destruct (LFU.node c1 !! k) as [q|] eqn:Hq; [|done]. simpl.
      rewrite lookup_insert_ne by by eapply lfu_index_not_fresh.
      by rewrite (Hsub _ _ Hq), Hheap.
    + intros _. unfold lfu_frequency. simpl. rewrite lookup_insert_eq. simpl.
      by rewrite lookup_insert_eq.
    + intros k f Hne. unfold lfu_frequency. simpl.
      rewrite lookup_insert_ne by done.
      destruct (LFU.node c1 !! k) as [q|] eqn:Hq; [|done]. simpl.
      rewrite lookup_insert_ne by by eapply lfu_index_not_fresh.
      by rewrite (Hsub _ _ Hq), Hheap.
Qed.

(** Delete, on a linked engine. *)
Lemma lfu_Delete_linked c key :
  LFU.linked c →
  ∃ c', LFU.Delete c key =
        Done (bool_decide (is_Some (LFU.Snapshot c !! key)), c') ∧
        LFU.Snapshot c' = delete key (LFU.Snapshot c) ∧
        LFU.size c' = LFU.size c ∧ LFU.capacity c' = LFU.capacity c ∧
        LFU.linked c'.
Proof.
  intros Hlk. destruct (LFU.node c !! key) as [p|] eqn:Hk.
  - rewrite (lfu_Delete_present c key p Hlk Hk).
    rewrite bool_decide_eq_true_2 by (apply lfu_Snapshot_is_Some; eauto).
    eexists. split; [done|]. split; [|split; [done|split; [done|]]].
    + unfold LFU.Snapshot. simpl. by rewrite fmap_delete.
    + by apply lfu_linked_set_node_delete.
  - unfold LFU.Delete. rewrite Hk.
    rewrite bool_decide_eq_false_2
      by (rewrite lfu_Snapshot_is_Some, Hk; by intros [? ?]).
    exists c. split; [done|]. split; [|done].
    symmetry. apply delete_id. by rewrite lfu_Snapshot_lookup, Hk.
Qed.

(** ** X5 to X10: the LFU engine as a key-value store *)

(** X5. On the LFU engine Get is a lookup. In every state that completed
    calls lead to it returns (it never panics), with ok telling whether the
    key is resident and, on a hit, the value held under the key: what the
    mapping copied by Snapshot has for the key. The contents, the size
    field and the capacity are as before. *)
Theorem lfu_get_is_lookup capacity c key :
  LFU.reachable capacity c →
  ∃ c', LFU.Get c key =
        Done (default ""%string (LFU.Snapshot c !! key),
              bool_decide (is_Some (LFU.Snapshot c !! key)), c') ∧
        LFU.Snapshot c' = LFU.Snapshot c ∧
        LFU.size c' = LFU.size c ∧ LFU.capacity c' = LFU.capacity c.
Proof. intros Hr. by apply lfu_Get_linked, (lfu_reachable_linked capacity). Qed.

Lemma lfu_get_is_lookup_witness :
  ∃ c', LFU.Get lfu_ab_a "a" =
        Done (default ""%string (LFU.Snapshot lfu_ab_a !! "a"%string),
              bool_decide (is_Some (LFU.Snapshot lfu_ab_a !! "a"%string)), c') ∧
        LFU.Snapshot c' = LFU.Snapshot lfu_ab_a ∧
        LFU.size c' = LFU.size lfu_ab_a ∧ LFU.capacity c' = LFU.capacity lfu_ab_a.
Proof. apply (lfu_get_is_lookup 2), lfu_ab_a_reachable. Defined.

(** X6. Every use of a resident key counts once. In a reachable state
    where the entry of a key has frequency f, a Get of the key is a hit
    after which the entry has frequency f + 1 (as a Go int), and so is a
    Put on the key, which reports created = false; the frequency of every
    other key is as before. *)
Theorem lfu_use_counts_once capacity c key f :
  LFU.reachable capacity c → lfu_frequency c key = Some f →
  (∃ value c', LFU.Get c key = Done (value, true, c') ∧
     lfu_frequency c' key = Some (int64 (f + 1)) ∧
     ∀ k, k ≠ key → lfu_frequency c' k = lfu_frequency c k) ∧
  (LFU.capacity c ≠ 0 → ∀ fuel value,
     ∃ c', LFU.Put fuel c key value = Done (false, c') ∧
       lfu_frequency c' key = Some (int64 (f + 1)) ∧
       ∀ k, k ≠ key → lfu_frequency c' k = lfu_frequency c k).
Proof.
  intros Hr Hf. apply lfu_reachable_linked in Hr.
  unfold lfu_frequency in Hf.
  destruct (LFU.node c !! key) as [p|] eqn:Hk; [|done]. simpl in Hf.
  assert (Hother : ∀ (heap' : gmap handle Node) node',
            node' = LFU.node c →
            (∀ q, q ≠ p → heap' !! q = LFU.heap c !! q) →
            ∀ k, k ≠ key →
              (q ← node' !! k; Freq <$> heap' !! q) = lfu_frequency c k).
  { intros heap' node' -> Hq k Hne. unfold lfu_frequency.
    destruct (LFU.node c !! k) as [q|] eqn:Hkq; [|done]. simpl.
    rewrite Hq; [done|]. intros ->. apply Hne. by eapply lfu_index_injective. }
  split.
  - destruct (lfu_Get_hit c key p Hr Hk) as (n & l & Hn & Hkn & Hl & Hp & HG).
    rewrite Hn in Hf. injection Hf as <-.
    destruct (lfu_touched_frame (LFU.record Hits_Inc c) p n l)
      as (Hnode & _ & _ & Hhp & Hhq & _); [by apply lfu_linked_record|done|].
    eexists _, _. split; [exact HG|]. split.
    + unfold lfu_frequency. rewrite Hnode. simpl. rewrite Hk. simpl.
      by rewrite lookup_insert_eq.
    + intros k Hne. by apply Hother.
  - intros Hcap fuel value.
    destruct (lfu_Put_existing_frame fuel c key value p Hr Hcap Hk)
      as (n & c1 & Hn & HP & Hnode & _ & Hheap).
    rewrite Hn in Hf. injection Hf as <-.
    exists c1. split; [done|]. split.
    + unfold lfu_frequency. rewrite Hnode, Hk. simpl.
      by rewrite Hheap, lookup_insert_eq.
    + intros k Hne. apply Hother; [done| |done].
      intros q Hq. by rewrite Hheap, lookup_insert_ne.
Qed.

Lemma lfu_use_counts_once_witness :
  (∃ value c', LFU.Get lfu_ab_a "a" = Done (value, true, c') ∧
     lfu_frequency c' "a" = Some (int64 (2 + 1)) ∧
     ∀ k, k ≠ "a"%string → lfu_frequency c' k = lfu_frequency lfu_ab_a k) ∧
  (LFU.capacity lfu_ab_a ≠ 0 → ∀ fuel value,
     ∃ c', LFU.Put fuel lfu_ab_a "a" value = Done (false, c') ∧
       lfu_frequency c' "a" = Some (int64 (2 + 1)) ∧
       ∀ k, k ≠ "a"%string → lfu_frequency c' k = lfu_frequency lfu_ab_a k).
Proof.
  apply (lfu_use_counts_once 2).
  - apply lfu_ab_a_reachable.
  - vm_compute. reflexivity.
Defined.

(** X7. On the LFU engine a Get that follows a Put returns the value put.
    Whenever a Put on a reachable engine of capacity other than 0 returns,
    whether it found the key or created the entry, the Get of the same key
    that follows is a hit with the value of the Put: the loop of Put runs
    before the new entry is inserted, so a Put never evicts its own
    entry. *)
Theorem lfu_put_then_get capacity fuel c key value created c' :
  LFU.reachable capacity c → LFU.capacity c ≠ 0 →
  LFU.Put fuel c key value = Done (created, c') →
  ∃ c'', LFU.Get c' key = Done (value, true, c'').
Proof.
  intros Hr Hcap HP. apply lfu_reachable_linked in Hr.
  destruct (lfu_Put_linked _ _ _ _ _ _ Hr Hcap HP) as (_ & Hv & _).
  destruct (lfu_Get_linked c' key) as (c'' & HG & _);
    [by eapply lfu_linked_Put|].
  exists c''. by rewrite HG, Hv.
Qed.

Lemma lfu_put_then_get_witness :
  ∃ c'', LFU.Get lfu_ac "c" = Done ("x"%string, true, c'').
Proof.
  apply (lfu_put_then_get 2 1 lfu_ab_a "c" "x" true lfu_ac).
  - apply lfu_ab_a_reachable.
  - vm_compute. discriminate.
  - vm_compute. reflexivity.
Defined.

(** X8. A Put on the LFU engine alters no other entry. When a Put on a
    reachable engine of capacity other than 0 returns, created tells
    whether the key was absent; every other key that is resident afterwards
    was resident before, with the same value and the same frequency (a Put
    can only evict other entries); a Put on a resident key evicts nothing,
    so that the contents are the old ones with the new value under the
    key; and an entry that was created has frequency 1. *)
Theorem lfu_put_alters_no_other_entry capacity fuel c key value created c' :
  LFU.reachable capacity c → LFU.capacity c ≠ 0 →
  LFU.Put fuel c key value = Done (created, c') →
  created = negb (bool_decide (is_Some (LFU.Snapshot c !! key))) ∧
  (∀ k v, k ≠ key → LFU.Snapshot c' !! k = Some v → LFU.Snapshot c !! k = Some v) ∧
  (∀ k f, k ≠ key → lfu_frequency c' k = Some f → lfu_frequency c k = Some f) ∧
  (created = false → LFU.Snapshot c' = <[key := value]> (LFU.Snapshot c)) ∧
  (created = true → lfu_frequency c' key = Some 1).
Proof.
  intros Hr Hcap HP. apply lfu_reachable_linked in Hr.
  by destruct (lfu_Put_linked _ _ _ _ _ _ Hr Hcap HP) as (? & _ & ? & ? & ? & ?).
Qed.

Lemma lfu_put_alters_no_other_entry_witness :
  true = negb (bool_decide (is_Some (LFU.Snapshot lfu_ab_a !! "c"%string))) ∧
  (∀ k v, k ≠ "c"%string → LFU.Snapshot lfu_ac !! k = Some v →
          LFU.Snapshot lfu_ab_a !! k = Some v) ∧
  (∀ k f, k ≠ "c"%string → lfu_frequency lfu_ac k = Some f →
          lfu_frequency lfu_ab_a k = Some f) ∧
  (true = false →
   LFU.Snapshot lfu_ac = <["c"%string := "x"%string]> (LFU.Snapshot lfu_ab_a)) ∧
  (true = true → lfu_frequency lfu_ac "c" = Some 1).
Proof.
  apply (lfu_put_alters_no_other_entry 2 1 lfu_ab_a "c" "x" true lfu_ac).
  - apply lfu_ab_a_reachable.
  - vm_compute. discriminate.
  - vm_compute. reflexivity.
Defined.

(** X9. Delete on the LFU engine acts on the contents as the deletion of a
    key from a mapping. In every reachable state it returns (it never
    panics), reporting whether the key was resident; afterwards the mapping
    copied by Snapshot is the old one without the key, a Get of the key is
    a miss, and the size field is what it was: the bytes of the deleted
    value stay counted. A Delete of a key that is not resident returns
    false and changes nothing. *)
Theorem lfu_delete_then_get capacity c key :
  LFU.reachable capacity c →
  ∃ c', LFU.Delete c key =
        Done (bool_decide (is_Some (LFU.Snapshot c !! key)), c') ∧
        LFU.Snapshot c' = delete key (LFU.Snapshot c) ∧
        LFU.size c' = LFU.size c ∧
        (LFU.Snapshot c !! key = None → c' = c) ∧
        ∃ c'', LFU.Get c' key = Done (""%string, false, c'').
Proof.
  intros Hr. apply lfu_reachable_linked in Hr.
  destruct (lfu_Delete_linked c key Hr) as (c' & HD & Hsnap & Hsz & _ & Hlk').
  exists c'. split; [done|]. split; [done|]. split; [done|]. split.
  - intros Hnone. rewrite lfu_Snapshot_lookup in Hnone.
    destruct (LFU.node c !! key) as [p|] eqn:Hk; [done|].
    unfold LFU.Delete in HD. rewrite Hk in HD. by injection HD as _ <-.
  - destruct (lfu_Get_linked c' key Hlk') as (c'' & HG & _).
    exists c''. by rewrite HG, Hsnap, lookup_delete_eq.
Qed.

Lemma lfu_delete_then_get_witness :
  ∃ c', LFU.Delete lfu_ab_a "a" =
        Done (bool_decide (is_Some (LFU.Snapshot lfu_ab_a !! "a"%string)), c') ∧
        LFU.Snapshot c' = delete "a"%string (LFU.Snapshot lfu_ab_a) ∧
        LFU.size c' = LFU.size lfu_ab_a ∧
        (LFU.Snapshot lfu_ab_a !! "a"%string = None → c' = lfu_ab_a) ∧
        ∃ c'', LFU.Get c' "a" = Done (""%string, false, c'').
Proof. apply (lfu_delete_then_get 2), lfu_ab_a_reachable. Defined.

(** X10. No call on the LFU engine panics. In every state that completed
    calls lead to, Get, Put and Delete dereference no nil bucket or node,
    remove a node only from a list that holds it, and pop no empty list: Get
    and Delete return, and a Put returns or is still in its loop. *)
Theorem lfu_calls_never_panic capacity c :
  LFU.reachable capacity c →
  ∀ fuel op e, LFU.exec fuel c op ≠ Panic e.
Proof.
  intros Hr fuel op e. apply lfu_reachable_linked in Hr.
  destruct op as [key|key value|key]; simpl.
  - destruct (lfu_Get_linked c key Hr) as (c' & -> & _). done.
  - destruct (decide (LFU.capacity c = 0)) as [H0|Hcap].
    { unfold LFU.Put. by rewrite H0. }
    destruct (LFU.node c !! key) as [p|] eqn:Hk.
    + destruct (lfu_Put_existing_frame fuel c key value p Hr Hcap Hk)
        as (n & c1 & _ & -> & _). done.
    + rewrite lfu_Put_new by done.
      destruct (LFU.evict _ _) as [c1|e1|] eqn:Hev; simpl; try done.
      by apply lfu_evict_safe in Hev; [|apply lfu_linked_set_size].
  - destruct (lfu_Delete_linked c key Hr) as (c' & -> & _). done.
Qed.

Lemma lfu_calls_never_panic_witness :
  LFU.exec 1 lfu_ab_a (LFU.CallGet "a") ≠ Panic NilDereference ∧
  LFU.exec 1 lfu_ab_a (LFU.CallPut "c" "x") ≠ Panic EmptyStructure ∧
  LFU.exec 1 lfu_ab_a (LFU.CallDelete "b") ≠ Panic NotAMember.
Proof.
  split; [|split]; apply (lfu_calls_never_panic 2), lfu_ab_a_reachable.
Defined.

(** ** The LFU engine: when the loop of Put ends *)

Lemma lfu_reachable_ranged capacity c : LFU.reachable capacity c → lfu_ranged c.
Proof.
  induction 1 as [|fuel c op c' Hr IH Hex]; [apply lfu_ranged_New|].
  eapply lfu_ranged_exec; [|done|done]. by eapply lfu_reachable_linked.
Qed.

(** Without a Delete no node becomes stale. *)
Lemma lfu_run_tight fuel ops : ∀ c c',
  no_Delete ops → LFU.linked c → lfu_tight c →
  LFU.run fuel c ops = Done c' → lfu_tight c'.
Proof.
  induction ops as [|op ops IH]; intros c c' Hnd Hlk Ht; simpl.
  - by intros [= <-].
  - apply Forall_cons in Hnd as [Hop Hnd].
    destruct (LFU.exec fuel c op) as [c1| |] eqn:Hex; simpl; try done.
    apply IH; [done|by eapply lfu_linked_exec|].
    destruct op as [key|key value|key]; simpl in Hex; [| |done].
    + destruct (LFU.Get c key) as [[[v ok] c2]| |] eqn:HG; simpl in Hex; try done.
      injection Hex as <-. by eapply lfu_tight_Get.
    + destruct (LFU.Put fuel c key value) as [[b c2]| |] eqn:HP; simpl in Hex;
        try done.
      injection Hex as <-. by eapply lfu_tight_Put.
Qed.

Lemma lfu_lengths_own c :
  lfu_lengths (λ k, match LFU.node c !! k with
                    | Some p => weigh (LFU.heap c) p
                    | None => 0
                    end) c.
Proof. intros k p n Hk Hn. by rewrite Hk, (weigh_Some _ _ _ Hn). Qed.

(** The engine at the start of the loop of a Put of a new key: the bytes
    of the new value are counted, and pending. *)
Lemma lfu_counted_pending c value :
  LFU.size c = LFU.resident_bytes c → LFU.size c + len value < 2 ^ 64 →
  lfu_counted (len value) (LFU.set_size (u64 (LFU.size c + len value)) c).
Proof.
  intros Hsz Hno.
  pose proof (total_nonneg (LFU.heap c) (LFU.node c)) as Hnn.
  pose proof (len_nonneg value) as Hvn.
  unfold lfu_counted, LFU.resident_bytes in *. simpl.
  rewrite u64_small by lia. lia.
Qed.

(** A turn of the loop on an engine without stale nodes whose size field
    counts the resident bytes and at most [capacity] pending ones: the
    turn evicts an entry, or, since some entry sits in a bucket above,
    moves [minFreq] up by one. *)
Lemma lfu_evict_progress lenOf pending c :
  LFU.linked c → lfu_tight c → lfu_ranged c → lfu_floor c →
  lfu_counted pending c ∧ lfu_lengths lenOf c →
  0 ≤ pending ≤ LFU.capacity c → LFU.capacity c < LFU.size c →
  ∃ c1, LFU.evict_body c = Done c1 ∧
        ((size (LFU.node c1) < size (LFU.node c))%nat ∨
         (LFU.node c1 = LFU.node c ∧ LFU.minFreq c1 = LFU.minFreq c + 1 ∧
          LFU.minFreq c < max_int)).
Proof.
  intros Hlk Ht Hrg Hfl [[Hsz _] _] Hpend Hgt.
  assert (Hne : LFU.node c ≠ ∅).
  { intros E. unfold LFU.resident_bytes in Hsz. rewrite E, total_empty in Hsz. lia. }
  apply map_choose in Hne as (k & p & Hk).
  destruct (LFU.linked_node _ Hlk _ _ Hk) as (nk & Hnk & _ & lk & Hlk' & Hp).
  pose proof (Hfl _ _ Hlk') as Hlow.
  destruct Hrg as [Hmin Hmax]. pose proof (Hmax _ _ Hlk') as Hhigh.
  destruct (lfu_evict_body_cases c Hlk) as [[Hnone E]|(r & t & n & Hl & Hn & Hfn & E)].
  - exists (lfu_skipped c). split; [done|]. right.
    assert (LFU.minFreq c ≠ Freq nk).
    { intros E'. rewrite E', Hlk' in Hnone. destruct Hnone as [?|[= ->]]; [done|].
      by apply not_elem_of_nil in Hp. }
    split; [done|]. split; [|lia].
    unfold lfu_skipped, LFU.drop_bucket. simpl. apply int64_small. lia.
  - exists (lfu_evicted c r n). split; [done|]. left.
    assert (Hin : t ∈ r ++ [t]).
    { apply elem_of_app. right. by apply list_elem_of_singleton. }
    destruct (Ht _ _ _ Hl Hin) as (n' & Hn' & Hkn).
    assert (n' = n) as -> by congruence.
    simpl. rewrite map_size_delete_Some by eauto.
    assert (size (LFU.node c) ≠ 0%nat).
    { apply map_size_non_empty_iff. intros E'. by rewrite E' in Hk. }
    lia.
Qed.

(** On such an engine the loop of Put ends. *)
Lemma lfu_evict_returns lenOf pending : ∀ n m c,
  LFU.linked c → lfu_tight c → lfu_ranged c → lfu_floor c →
  lfu_counted pending c ∧ lfu_lengths lenOf c →
  0 ≤ pending ≤ LFU.capacity c →
  (size (LFU.node c) ≤ n)%nat → max_int - LFU.minFreq c ≤ Z.of_nat m →
  ∃ fuel c', LFU.evict fuel c = Done c'.
Proof.
  induction n as [n IHn] using lt_wf_ind.
  induction m as [m IHm] using lt_wf_ind.
  intros c Hlk Ht Hrg Hfl Hcnt Hpend Hn Hm.
  destruct (Z.le_gt_cases (LFU.size c) (LFU.capacity c)) as [Hle|Hgt].
  { exists 0%nat, c. by apply lfu_evict_within. }
  destruct (lfu_evict_progress lenOf pending c) as (c1 & Hb & Hprog);
    try done; try lia.
  assert (Hstep : ∀ fuel c', LFU.evict fuel c1 = Done c' →
                             LFU.evict (S fuel) c = Done c').
  { intros fuel c' H. simpl.
    destruct (Z.ltb_spec (LFU.capacity c) (LFU.size c)); [|lia].
    by rewrite Hb. }
  pose proof (lfu_linked_evict_body _ _ Hlk Hb) as Hlk1.
  pose proof (lfu_tight_evict_body _ _ Hlk Ht Hb) as Ht1.
  pose proof (lfu_ranged_evict_body _ _ Hrg Hb) as Hrg1.
  pose proof (lfu_floor_evict_body _ _ Hlk Hrg Hfl Hb) as Hfl1.
  pose proof (lfu_counted_evict_body lenOf pending _ _ Hlk Ht Hcnt
                ltac:(lia) Hb) as Hcnt1.
  destruct (lfu_evict_body_size_range _ _ Hb) as (_ & Hcap1 & _).
  destruct Hprog as [Hless|(Hnode & Hmin & Hlt)].
  - destruct (IHn (size (LFU.node c1)) ltac:(lia)
                (Z.to_nat (max_int - LFU.minFreq c1)) c1)
      as (fuel & c' & Hev); try done; try lia.
    exists (S fuel), c'. by apply Hstep.
  - destruct (IHm (Nat.pred m) ltac:(lia) c1) as (fuel & c' & Hev);
      try done; try lia; try (rewrite Hnode; lia).
    exists (S fuel), c'. by apply Hstep.
Qed.

Lemma lfu_ab_a_tight : lfu_tight lfu_ab_a.
Proof.
  apply (lfu_run_tight 1
           [LFU.CallPut "a" "x"; LFU.CallPut "b" "x"; LFU.CallGet "a"]
           (LFU.NewCache 2)).
  - repeat constructor.
  - apply lfu_linked_New.
  - apply lfu_tight_New.
  - vm_compute. reflexivity.
Qed.

Lemma lfu_ab_a_floor : lfu_floor lfu_ab_a.
Proof.
  intros f l Hf. by destruct (LFU.ordered_keys _ lfu_ab_a_ordered f l Hf).
Qed.

(** ** X11 to X13: the loop of the LFU Put *)

(** X11. On the LFU engine a Put of a new key whose value is longer than
    the capacity never returns, whatever the engine holds. Take a
    reachable state of capacity other than 0 without stale nodes whose size
    field is the byte total of its resident values, and a value whose bytes
    do not overflow the size field. The loop evicts every entry and then,
    with every bucket empty and size still above the capacity, goes on
    incrementing minFreq: the Put is still in its loop after any number of
    turns. *)
Theorem lfu_put_oversized_spins capacity c key value :
  LFU.reachable capacity c → lfu_tight c →
  LFU.size c = LFU.resident_bytes c →
  LFU.node c !! key = None →
  0 < LFU.capacity c < len value →
  LFU.size c + len value < 2 ^ 64 →
  ∀ fuel, LFU.Put fuel c key value = OutOfFuel.
Proof.
  intros Hr Ht Hsz Hk Hcap Hno fuel.
  apply lfu_reachable_linked in Hr.
  rewrite lfu_Put_new by (done || lia).
  destruct (LFU.evict _ _) as [c1|e|] eqn:Hev; simpl; [| |done].
  - exfalso.
    eapply (lfu_evict_ind (λ c1,
              LFU.linked c1 ∧ lfu_tight c1 ∧ LFU.capacity c1 = LFU.capacity c ∧
              lfu_counted (len value) c1 ∧ lfu_lengths _ c1))
      in Hev as [(_ & _ & Hc1 & [Hsz1 _] & _) Hle].
    + pose proof (total_nonneg (LFU.heap c1) (LFU.node c1)).
      unfold LFU.resident_bytes in Hsz1. lia.
    + intros c2 c3 (Hlk2 & Ht2 & Hc2 & Hcnt2) _ Hb.
      split; [by eapply lfu_linked_evict_body|].
      split; [by eapply lfu_tight_evict_body|].
      destruct (lfu_evict_body_size_range _ _ Hb) as (_ & Hcap3 & _).
      split; [congruence|].
      eapply lfu_counted_evict_body; [done|done|done| |done].
      apply len_nonneg.
    + split; [by apply lfu_linked_set_size|]. split; [exact Ht|].
      split; [done|]. split; [by apply lfu_counted_pending|].
      apply (lfu_lengths_own c).
  - by apply lfu_evict_safe in Hev; [|apply lfu_linked_set_size].
Qed.

Lemma lfu_put_oversized_spins_witness :
  LFU.Put 1000 lfu_ab_a "c" "xxx" = OutOfFuel.
Proof.
  apply (lfu_put_oversized_spins 2 lfu_ab_a "c" "xxx").
  - apply lfu_ab_a_reachable.
  - apply lfu_ab_a_tight.
  - vm_compute. reflexivity.
  - vm_compute. reflexivity.
  - split; vm_compute; reflexivity.
  - vm_compute. reflexivity.
Defined.

(** X12. On the LFU engine a Put of a value that fits within the capacity
    by itself does return. Take a reachable state without stale nodes in
    which no bucket lies below minFreq and whose size field is the byte
    total of its resident values. For a value no longer than the capacity
    (whose bytes do not overflow the size field) the loop of Put ends after
    finitely many turns, and the Put returns: while size exceeds the
    capacity some entry is resident, and every turn either evicts an entry
    or moves minFreq one step towards the bucket of one. *)
Theorem lfu_put_fitting_returns capacity c key value :
  LFU.reachable capacity c → lfu_tight c → lfu_floor c →
  LFU.size c = LFU.resident_bytes c →
  len value ≤ LFU.capacity c →
  LFU.size c + len value < 2 ^ 64 →
  ∃ fuel created c', LFU.Put fuel c key value = Done (created, c').
Proof.
  intros Hr Ht Hfl Hsz Hfit Hno.
  pose proof (lfu_reachable_ranged _ _ Hr) as Hrg.
  apply lfu_reachable_linked in Hr.
  destruct (decide (LFU.capacity c = 0)) as [H0|Hcap].
  { exists 0%nat, false, c. unfold LFU.Put. by rewrite H0. }
  destruct (LFU.node c !! key) as [p|] eqn:Hk.
  - destruct (lfu_Put_existing_frame 0 c key value p Hr Hcap Hk)
      as (n & c1 & _ & HP & _).
    by exists 0%nat, false, c1.
  - destruct (lfu_evict_returns
                (λ k, match LFU.node c !! k with
                      | Some p => weigh (LFU.heap c) p
                      | None => 0
                      end) (len value)
                (size (LFU.node c)) (Z.to_nat (max_int - LFU.minFreq c))
                (LFU.set_size (u64 (LFU.size c + len value)) c))
      as (fuel & c1 & Hev).
    + by apply lfu_linked_set_size.
    + exact Ht.
    + exact Hrg.
    + exact Hfl.
    + split; [by apply lfu_counted_pending|]. apply (lfu_lengths_own c).
    + pose proof (len_nonneg value). simpl. lia.
    + done.
    + simpl. lia.
    + exists fuel, true. eexists. rewrite lfu_Put_new by done.
      rewrite Hev. done.
Qed.

Lemma lfu_put_fitting_returns_witness :
  ∃ fuel created c', LFU.Put fuel lfu_ab_a "c" "x" = Done (created, c').
Proof.
  apply (lfu_put_fitting_returns 2).
  - apply lfu_ab_a_reachable.
  - apply lfu_ab_a_tight.
  - apply lfu_ab_a_floor.
  - vm_compute. reflexivity.
  - vm_compute. discriminate.
  - vm_compute. reflexivity.
Defined.

(** The loop of Put evicts entries in the order of their frequency: an
    entry that has left the index is, on an engine without stale nodes, no
    more frequently used than any entry that is still in it. *)
Lemma lfu_evict_least_frequent fuel c c' :
  LFU.linked c → lfu_tight c → lfu_ranged c → lfu_floor c →
  LFU.evict fuel c = Done c' →
  LFU.linked c' ∧ LFU.heap c' = LFU.heap c ∧
  ∀ j pj nj k pk nk,
    LFU.node c !! j = Some pj → LFU.heap c !! pj = Some nj →
    LFU.node c' !! j = None →
    LFU.node c' !! k = Some pk → LFU.heap c !! pk = Some nk →
    Freq nj ≤ Freq nk.
Proof.
  intros Hlk Ht Hrg Hfl Hev.
  eapply (lfu_evict_ind (λ c1,
            LFU.linked c1 ∧ lfu_tight c1 ∧ lfu_ranged c1 ∧ lfu_floor c1 ∧
            LFU.heap c1 = LFU.heap c ∧
            (∀ k p, LFU.node c1 !! k = Some p → LFU.node c !! k = Some p) ∧
            ∀ j pj nj k pk nk,
              LFU.node c !! j = Some pj → LFU.heap c !! pj = Some nj →
              LFU.node c1 !! j = None →
              LFU.node c1 !! k = Some pk → LFU.heap c !! pk = Some nk →
              Freq nj ≤ Freq nk))
    in Hev as [(? & _ & _ & _ & ? & _ & ?) _]; [done| |].
  - intros c1 c2 (Hlk1 & Ht1 & Hrg1 & Hfl1 & Hh & Hsub & Hord) _ Hb.
    split; [by eapply lfu_linked_evict_body|].
    split; [by eapply lfu_tight_evict_body|].
    split; [by eapply lfu_ranged_evict_body|].
    split; [by eapply lfu_floor_evict_body|].
    assert (Hh2 : LFU.heap c2 = LFU.heap c1).
    { destruct (lfu_evict_body_cases c1 Hlk1)
        as [[_ H]|(r & t & n & _ & _ & _ & H)];
        rewrite H in Hb; by injection Hb as <-. }
    split; [congruence|].
    destruct (lfu_evict_body_victim _ _ Hlk1 Ht1 Hfl1 Hb)
      as [Hsame|(r & t & n & _ & Hn & _ & Hkn & Hdel & Hleast)].
    + rewrite Hsame. split; [done|]. exact Hord.
    + rewrite Hdel. split.
      * intros k p Hp. apply lookup_delete_Some in Hp as [_ Hp]. by apply Hsub.
      * intros j pj nj k pk nk Hj Hnj Hgone Hk Hnk.
        apply lookup_delete_Some in Hk as [Hne Hk].
        apply lookup_delete_None in Hgone as [<-|Hgone].
        -- pose proof (Hsub _ _ Hkn) as Hkn'.
           assert (pj = t) as -> by congruence.
           rewrite <- Hh in Hnj, Hnk.
           assert (nj = n) as -> by congruence.
           by eapply Hleast.
        -- by eapply Hord.
  - repeat (split; [done|]). intros j pj nj k pk nk Hj _ Hgone. congruence.
Qed.

(** X13. The LFU engine evicts the least frequently used entries, as long
    as no node is stale. Take a reachable state without stale nodes (no
    Delete since the engine was new) in which no bucket lies below minFreq.
    When a Put creates an entry, every entry it evicted had a frequency no
    greater than that of any entry that stayed. *)
Theorem lfu_put_evicts_least_frequent capacity fuel c key value c' :
  LFU.reachable capacity c → lfu_tight c → lfu_floor c →
  LFU.Put fuel c key value = Done (true, c') →
  ∀ j k fj fk,
    lfu_frequency c j = Some fj → lfu_frequency c' j = None →
    k ≠ key → lfu_frequency c' k = Some fk →
    fj ≤ fk.
Proof.
  intros Hr Ht Hfl HP j k fj fk Hj Hgone Hne Hk.
  pose proof (lfu_reachable_ranged _ _ Hr) as Hrg.
  apply lfu_reachable_linked in Hr.
  assert (Hcap : LFU.capacity c ≠ 0).
  { intros H0. unfold LFU.Put in HP. by rewrite H0 in HP. }
  destruct (LFU.node c !! key) as [p|] eqn:Hkey.
  { destruct (lfu_Put_existing_frame fuel c key value p Hr Hcap Hkey)
      as (n & c1 & _ & HP' & _). congruence. }
  rewrite lfu_Put_new in HP by done.
  destruct (LFU.evict _ _) as [c1| |] eqn:Hev; simpl in HP; try done.
  injection HP as <-.
  apply lfu_evict_least_frequent in Hev as (Hlk1 & Hheap & Hord);
    [|by apply lfu_linked_set_size|exact Ht|exact Hrg|exact Hfl].
  simpl in Hheap, Hord.
  unfold lfu_frequency in Hj, Hgone, Hk. simpl in Hgone, Hk.
  destruct (LFU.node c !! j) as [pj|] eqn:Hpj; [|done]. simpl in Hj.
  destruct (LFU.heap c !! pj) as [nj|] eqn:Hnj; [|done].
  injection Hj as <-.
  rewrite lookup_insert_ne in Hk by done.
  destruct (LFU.node c1 !! k) as [pk|] eqn:Hpk; [|done]. simpl in Hk.
  rewrite lookup_insert_ne in Hk by by eapply lfu_index_not_fresh.
  rewrite Hheap in Hk.
  destruct (LFU.heap c !! pk) as [nk|] eqn:Hnk; [|done].
  injection Hk as <-.
  eapply (Hord j pj nj k pk nk); try done.
  destruct (decide (j = key)) as [->|Hjk].
  { rewrite lookup_insert_eq in Hgone. simpl in Hgone.
    by rewrite lookup_insert_eq in Hgone. }
  rewrite lookup_insert_ne in Hgone by done.
  destruct (LFU.node c1 !! j) as [pj'|] eqn:Hpj'; [|done]. simpl in Hgone.
  rewrite lookup_insert_ne in Hgone by by eapply lfu_index_not_fresh.
  destruct (LFU.linked_node _ Hlk1 _ _ Hpj') as (n' & Hn' & _).
  by rewrite Hn' in Hgone.
Qed.

(** On the engine of capacity 2 where A has frequency 2 and B frequency 1,
    Put("c", "x") evicts B. *)
Lemma lfu_put_evicts_least_frequent_witness :
  lfu_frequency lfu_ab_a "b" = Some 1 ∧ lfu_frequency lfu_ac "b" = None ∧
  lfu_frequency lfu_ac "a" = Some 2 ∧ 1 ≤ 2.
Proof.
  split; [vm_compute; reflexivity|]. split; [vm_compute; reflexivity|].
  split; [vm_compute; reflexivity|].
  apply (lfu_put_evicts_least_frequent 2 1 lfu_ab_a "c" "x" lfu_ac
           lfu_ab_a_reachable lfu_ab_a_tight lfu_ab_a_floor
           ltac:(vm_compute; reflexivity) "b" "a")%string.
  - vm_compute. reflexivity.
  - vm_compute. reflexivity.
  - discriminate.
  - vm_compute. reflexivity.
Defined.

(** ** X14 and X15: Restore *)

Lemma lfu_holds_Snapshot c k v :
  LFU.linked c → lfu_holds c k v ↔ LFU.Snapshot c !! k = Some v.
Proof.
  intros Hlk. rewrite lfu_Snapshot_lookup. split.
  - intros (p & n & Hk & Hn & <-). by rewrite Hk; simpl; rewrite Hn.
  - destruct (LFU.node c !! k) as [p|] eqn:Hk; [|done]. simpl.
    destruct (LFU.linked_node _ Hlk _ _ Hk) as (n & Hn & _).
    rewrite Hn. simpl. intros [= <-]. by exists p, n.
Qed.

Lemma lfu_a_reachable : LFU.reachable 5 lfu_a.
Proof.
  apply (lfu_run_reachable 5 1 [LFU.CallPut "a" "x"] (LFU.NewCache 5));
    [apply LFU.reach_New|]. vm_compute. reflexivity.
Qed.

(** X14. Restore does not reset the engine: it puts the pairs of the
    snapshot into whatever the engine holds. On a reachable engine of
    capacity other than 0 (and below 2^64), restoring pairs with distinct
    keys that are not resident, whose values fit into the capacity left,
    returns, and the contents afterwards are the pairs of the snapshot
    together with everything the engine held before. *)
Theorem lfu_restore_adds_to_contents capacity c o fuel :
  LFU.reachable capacity c → LFU.capacity c ≠ 0 →
  NoDup o.*1 → (∀ k, k ∈ o.*1 → LFU.Snapshot c !! k = None) →
  0 ≤ LFU.size c → LFU.size c + bytes_of o ≤ LFU.capacity c < 2 ^ 64 →
  ∃ c', LFU.Restore fuel c o = Done c' ∧
        LFU.Snapshot c' = list_to_map o ∪ LFU.Snapshot c.
Proof.
  intros Hr Hcap Hnd Hnew Hsz Hfit. apply lfu_reachable_linked in Hr.
  destruct (lfu_Restore_fits fuel o c) as (c' & Hres & Hlk' & Hin & Hold & Hout);
    try done.
  { intros k Hk. specialize (Hnew k Hk). rewrite lfu_Snapshot_lookup in Hnew.
    by destruct (LFU.node c !! k). }
  exists c'. split; [done|]. apply map_eq. intros k.
  destruct ((list_to_map o : gmap string string) !! k) as [v|] eqn:Hk.
  - rewrite (lookup_union_Some_l _ _ _ _ Hk).
    apply lfu_holds_Snapshot; [done|]. apply Hin. by apply elem_of_list_to_map.
  - rewrite lookup_union_r by done.
    destruct (LFU.Snapshot c !! k) as [v|] eqn:Hs.
    + apply lfu_holds_Snapshot; [done|]. by apply Hold, lfu_holds_Snapshot.
    + rewrite lfu_Snapshot_lookup in Hs |- *.
      rewrite Hout; [done| |by apply not_elem_of_list_to_map].
      by destruct (LFU.node c !! k).
Qed.

Lemma lfu_restore_adds_to_contents_witness :
  ∃ c', LFU.Restore 0 lfu_a [("b", "xx")]%string = Done c' ∧
        LFU.Snapshot c' = list_to_map [("b", "xx")]%string ∪ LFU.Snapshot lfu_a.
Proof.
  apply (lfu_restore_adds_to_contents 5).
  - apply lfu_a_reachable.
  - vm_compute. discriminate.
  - apply NoDup_singleton.
  - intros k Hk. apply list_elem_of_singleton in Hk as ->. vm_compute. reflexivity.
  - vm_compute. discriminate.
  - split; [vm_compute; discriminate|reflexivity].
Defined.

(** X15. Restoring into an LFU engine of capacity 0 drops the whole
    snapshot: Restore returns, without an error, and the engine is exactly
    as it was, whatever the snapshot holds. *)
Theorem lfu_restore_at_capacity_zero fuel c o :
  LFU.capacity c = 0 → LFU.Restore fuel c o = Done c.
Proof.
  intros Hcap. induction o as [|[k v] o IH]; [done|]. simpl.
  unfold LFU.Put. rewrite Hcap. simpl. exact IH.
Qed.

Lemma lfu_restore_at_capacity_zero_witness :
  LFU.Restore 0 (LFU.NewCache 0) [("a", "x"); ("b", "xx")]%string
  = Done (LFU.NewCache 0).
Proof. apply lfu_restore_at_capacity_zero. reflexivity. Defined.

(** ** X16: Persist *)

(** X16. Persist returns nil only when the store was encoded, written and
    the sink closed, in that order, and then the sink was not cancelled; in
    every other case it returns the error of the step that failed and the
    last call the sink receives is Cancel. A sink whose Write failed is not
    closed, and nothing is written when the encoding failed. Whatever the
    sink answers, these are the only sequences of calls it receives. *)
Theorem persist_calls_on_the_sink {E S : Type} (sink : raft.SnapshotSink E S)
    (Marshal : gmap string string → E + list Byte.byte)
    (store : gmap string string) (s : S) :
  let r := fsmSnapshot.Persist (sink_methods := recording sink) Marshal store ([], s) in
  match Marshal store with
  | inl e => r.1 = Some e ∧ r.2.1 = [Cancelled]
  | inr b =>
      match raft.Write b s with
      | (Some e, _) => r.1 = Some e ∧ r.2.1 = [Written b; Cancelled]
      | (None, s1) =>
          match raft.Close s1 with
          | (Some e, _) => r.1 = Some e ∧ r.2.1 = [Written b; Closed; Cancelled]
          | (None, s2) => r = (None, ([Written b; Closed], s2))
          end
      end
  end.
Proof.
  unfold fsmSnapshot.Persist. simpl.
  destruct (Marshal store) as [e|b]; simpl.
  - by destruct (raft.Cancel s).
  - destruct (raft.Write b s) as [[e|] s1]; simpl.
    + by destruct (raft.Cancel s1).
    + destruct (raft.Close s1) as [[e|] s2]; simpl; [|done].
      by destruct (raft.Cancel s2).
Qed.

(** ** X17: the LRU Put returns *)

(** On an LRU engine whose size field counts the resident bytes, the loop
    of Put runs out of bytes before it runs out of nodes. *)
Lemma lru_evict_returns l : ∀ fuel c,
  LRU.linked c → lru_counted c → 0 ≤ LRU.capacity c →
  LRU.linklist c = l → (length l < fuel)%nat →
  ∃ c', LRU.evict fuel c = Done c'.
Proof.
  induction l as [|t l IH] using rev_ind; intros fuel c Hlk Hcnt Hcap Hl Hfuel.
  - exists c. apply lru_evict_within.
    assert (Hempty : LRU.cache c = ∅).
    { apply map_empty. intros k.
      destruct (LRU.cache c !! k) as [q|] eqn:Hq; [|done].
      destruct (LRU.linked_cache _ Hlk k q Hq) as [Hin _].
      rewrite Hl in Hin. by apply not_elem_of_nil in Hin. }
    destruct Hcnt as [Hsz _]. unfold LRU.resident_bytes in Hsz.
    rewrite Hempty, total_empty in Hsz. lia.
  - destruct (Z.le_gt_cases (LRU.size c) (LRU.capacity c)) as [Hle|Hgt].
    { exists c. by apply lru_evict_within. }
    destruct fuel as [|fuel]; [lia|].
    rewrite length_app in Hfuel. simpl in Hfuel.
    destruct (lru_evict_body_Done c l t Hlk Hl) as (m & Hm & Hkm & Hb).
    simpl. destruct (Z.ltb_spec (LRU.capacity c) (LRU.size c)); [|lia].
    rewrite Hb. simpl.
    apply IH; try done.
    + by eapply lru_linked_evict_body.
    + eapply (lru_counted_evict_body _ c); [done| |done].
      split; [done|]. by apply lru_lengths_own.
    + lia.
Qed.

(** X17. On the LRU engine every Put returns. Take a reachable state of
    an engine of capacity 0 or more whose size field is the byte total of
    its resident values. A Put of any key and value, however long (as long
    as its bytes do not overflow the size field), returns after at most one
    turn of its loop per entry in the list, the new one included; when it
    created an entry, size is within the capacity afterwards. Each turn
    takes a node off the list, and the size field is 0 when the list is
    empty. *)
Theorem lru_put_returns capacity c key value :
  LRU.reachable capacity c → 0 ≤ capacity →
  LRU.size c = LRU.resident_bytes c →
  LRU.size c + len value < 2 ^ 64 →
  ∃ created c',
    LRU.Put (S (S (length (LRU.linklist c)))) c key value = Done (created, c') ∧
    (created = true → LRU.size c' ≤ capacity).
Proof.
  intros Hr Hcap0 Hsz Hno.
  pose proof (lru_reachable_capacity _ _ Hr) as Hcap.
  apply lru_reachable_linked in Hr.
  pose proof (total_nonneg (LRU.heap c) (LRU.cache c)) as Hnn.
  pose proof (len_nonneg value) as Hvn.
  unfold LRU.resident_bytes in Hsz.
  destruct (LRU.cache c !! key) as [p|] eqn:Hk.
  - destruct (LRU.linked_cache _ Hr _ _ Hk) as [Hin (n & Hn & Hkn)].
    unfold LRU.Put. rewrite Hk, (RemoveNode_member _ _ Hin). simpl.
    unfold deref. simpl. rewrite Hn. simpl.
    eexists _, _. split; [done|]. done.
  - set (lenOf := λ k, if decide (k = key) then len value
                       else match LRU.cache c !! k with
                            | Some p => weigh (LRU.heap c) p
                            | None => 0
                            end).
    assert (Hlen : lru_lengths lenOf c).
    { intros k p n Hp Hn. unfold lenOf. rewrite decide_False by congruence.
      by rewrite Hp, (weigh_Some _ _ _ Hn). }
    destruct (lru_inserted_counted lenOf c key value) as [Hcnt _]; try done.
    { split; [|done]. split; [done|lia]. }
    { unfold lenOf. by rewrite decide_True. }
    { lia. }
    rewrite lru_Put_new by done.
    destruct (lru_evict_returns (LRU.next c :: LRU.linklist c)
                (S (S (length (LRU.linklist c)))) (lru_inserted c key value))
      as (c1 & Hev); try done.
    + by apply lru_inserted_linked.
    + simpl. lia.
    + simpl. lia.
    + rewrite Hev. simpl. exists true, c1. split; [done|]. intros _.
      pose proof Hev as Hev'.
      apply (lru_evict_ind (λ c2, LRU.capacity c2 = LRU.capacity c)) in Hev'
        as [Hc1 Hle]; [lia| |done].
      intros c2 c3 Hc2 _ Hb. unfold LRU.evict_body in Hb. simpl in Hb.
      destruct (PopTail (LRU.linklist c2)) as [[t r]| |]; simpl in Hb; try done.
      destruct (deref (LRU.heap c2) t) as [n| |]; simpl in Hb; try done.
      by injection Hb as <-.
Qed.

Lemma lru_put_returns_witness :
  ∃ created c',
    LRU.Put (S (S (length (LRU.linklist lru_ab)))) lru_ab "c" "xxxxxxx"
    = Done (created, c') ∧
    (created = true → LRU.size c' ≤ 5).
Proof.
  apply (lru_put_returns 5).
  - apply lru_ab_reachable.
  - lia.
  - vm_compute. reflexivity.
  - vm_compute. reflexivity.
Defined.

(** ** X18 and X19: how much the LRU Put evicts *)

(** Puts of new keys into an engine that has room for all of them. *)
Lemma lru_Puts_with_room fuel kvs : ∀ c,
  LRU.linked c → NoDup kvs.*1 →
  (∀ k, k ∈ kvs.*1 → LRU.cache c !! k = None) →
  0 ≤ LRU.size c → LRU.size c + bytes_of kvs ≤ LRU.capacity c < 2 ^ 64 →
  ∃ c', LRU.Puts fuel c kvs = Done c' ∧
        lru_contents c' = list_to_map kvs ∪ lru_contents c ∧
        lru_keys c' = reverse kvs.*1 ++ lru_keys c ∧
        LRU.size c' = LRU.size c + bytes_of kvs.
Proof.
  induction kvs as [|[k v] kvs IH]; intros c Hlk Hnd Hnew Hsz Hfit.
  - exists c. simpl. split; [done|]. split; [by rewrite (left_id_L ∅ (∪))|].
    split; [done|lia].
  - simpl in Hnd, Hfit. apply NoDup_cons in Hnd as [Hk Hnd].
    pose proof (bytes_of_nonneg kvs) as Hnn.
    pose proof (len_nonneg v) as Hvn.
    assert (Hkc : LRU.cache c !! k = None) by (apply Hnew; left).
    simpl. rewrite lru_Put_new by done.
    rewrite lru_evict_within by (simpl; rewrite u64_small; lia). simpl.
    destruct (IH (lru_inserted c k v)) as (c' & HP & Hcont & Hkeys & Hsize).
    + by apply lru_inserted_linked.
    + done.
    + intros k' Hk'. simpl. rewrite lookup_insert_ne by (by intros <-).
      apply Hnew. by right.
    + simpl. apply u64_range.
    + simpl. rewrite u64_small by lia. lia.
    + exists c'. split; [done|].
      rewrite Hcont, Hkeys, Hsize, lru_inserted_contents, lru_inserted_keys by done.
      simpl. rewrite u64_small by lia.
      split; [|split; [|lia]].
      * rewrite <- insert_union_l. symmetry. apply insert_union_r.
        by apply not_elem_of_list_to_map.
      * by rewrite reverse_cons, <- app_assoc.
Qed.

(** X18. While there is room the LRU engine evicts nothing. On a reachable
    engine (of capacity below 2^64), a sequence of Puts of distinct keys
    that are not resident, whose values fit into what is left of the
    capacity, returns with every pair of the sequence added to the
    contents, the last key put being the most recently used, and with the
    byte lengths of the values added to the size field. *)
Theorem lru_puts_with_room_evict_nothing capacity c kvs fuel :
  LRU.reachable capacity c → NoDup kvs.*1 →
  (∀ k, k ∈ kvs.*1 → LRU.HasKey c k = false) →
  0 ≤ LRU.size c → LRU.size c + bytes_of kvs ≤ capacity < 2 ^ 64 →
  ∃ c', LRU.Puts fuel c kvs = Done c' ∧
        lru_contents c' = list_to_map kvs ∪ lru_contents c ∧
        lru_keys c' = reverse kvs.*1 ++ lru_keys c ∧
        LRU.size c' = LRU.size c + bytes_of kvs.
Proof.
  intros Hr Hnd Hnew Hsz Hfit.
  pose proof (lru_reachable_capacity _ _ Hr) as Hcap.
  apply lru_reachable_linked in Hr.
  apply lru_Puts_with_room; try done; [|by rewrite Hcap].
  intros k Hk. specialize (Hnew k Hk). unfold LRU.HasKey in Hnew.
  apply bool_decide_eq_false in Hnew.
  destruct (LRU.cache c !! k); [|done]. exfalso. apply Hnew. eauto.
Qed.

Lemma lru_puts_with_room_evict_nothing_witness :
  ∃ c', LRU.Puts 0 lru_a [("b", "xx"); ("c", "x")]%string = Done c' ∧
        lru_contents c' =
        list_to_map [("b", "xx"); ("c", "x")]%string ∪ lru_contents lru_a ∧
        lru_keys c' = reverse [("b", "xx"); ("c", "x")]%string.*1 ++ lru_keys lru_a ∧
        LRU.size c' = LRU.size lru_a + bytes_of [("b", "xx"); ("c", "x")]%string.
Proof.
  apply (lru_puts_with_room_evict_nothing 5).
  - apply lru_a_reachable.
  - apply (bool_decide_unpack _). vm_compute. exact I.
  - intros k Hk. apply elem_of_cons in Hk as [->|Hk]; [vm_compute; reflexivity|].
    apply list_elem_of_singleton in Hk as ->. vm_compute. reflexivity.
  - vm_compute. discriminate.
  - split; [vm_compute; discriminate|reflexivity].
Defined.

(** The loop of the LRU Put stops as soon as the size is within the
    capacity: with the entry it evicted last still resident, the size would
    exceed the capacity. *)
Lemma lru_evict_minimal fuel c c' :
  LRU.linked c → lru_counted c → LRU.evict fuel c = Done c' →
  ∀ k rest, lru_keys c = lru_keys c' ++ k :: rest →
            LRU.capacity c < LRU.size c' + len (default ""%string (lru_contents c !! k)).
Proof.
  intros Hlk Hcnt Hev.
  eapply (lru_evict_ind (λ c1,
            LRU.linked c1 ∧ lru_counted c1 ∧
            LRU.heap c1 = LRU.heap c ∧ LRU.capacity c1 = LRU.capacity c ∧
            (∀ k p, LRU.cache c1 !! k = Some p → LRU.cache c !! k = Some p) ∧
            (∃ suffix, lru_keys c = lru_keys c1 ++ suffix) ∧
            ∀ k rest, lru_keys c = lru_keys c1 ++ k :: rest →
                      LRU.capacity c <
                      LRU.size c1 + len (default ""%string (lru_contents c !! k))))
    in Hev as [(_ & _ & _ & _ & _ & _ & ?) _]; [done| |].
  - intros c1 c2 (Hlk1 & Hcnt1 & Hh & Hcap & Hsub & [suffix Hsuf] & _) Hgt Hb.
    split; [by eapply lru_linked_evict_body|].
    split; [eapply (lru_counted_evict_body _ c1); [done| |done];
            split; [done|by apply lru_lengths_own]|].
    unfold LRU.evict_body in Hb. simpl in Hb.
    destruct (PopTail (LRU.linklist c1)) as [[t r]| |] eqn:Hpop; simpl in Hb; try done.
    apply PopTail_Done in Hpop.
    assert (Ht : t ∈ LRU.linklist c1).
    { rewrite Hpop. apply elem_of_app. right. by apply list_elem_of_singleton. }
    destruct (LRU.linked_list _ Hlk1 t Ht) as (n & Hn & Hkn).
    unfold deref in Hb. simpl in Hb. rewrite Hn in Hb. simpl in Hb.
    injection Hb as <-. simpl.
    split; [done|]. split; [done|]. split.
    { intros k p Hp. apply lookup_delete_Some in Hp as [_ Hp]. by apply Hsub. }
    assert (Hkeys : lru_keys c1 =
                    omap (λ p, Key <$> LRU.heap c1 !! p) r ++ [Key n]).
    { unfold lru_keys. rewrite Hpop, omap_app. simpl. by rewrite Hn. }
    assert (Hall : lru_keys c =
                   omap (λ p, Key <$> LRU.heap c1 !! p) r ++ Key n :: suffix).
    { by rewrite Hsuf, Hkeys, <- app_assoc. }
    unfold lru_keys at 2 4. simpl.
    split; [by eexists|].
    intros k rest Hk. rewrite Hall in Hk. apply app_inv_head in Hk.
    injection Hk as <- _.
    rewrite lru_contents_lookup, (Hsub _ _ Hkn). simpl. rewrite <- Hh, Hn. simpl.
    destruct Hcnt1 as [Hsz Hlt]. unfold LRU.resident_bytes in Hsz.
    rewrite (total_delete _ _ _ _ Hkn), (weigh_Some _ _ _ Hn) in Hsz.
    pose proof (total_nonneg (LRU.heap c1) (delete (Key n) (LRU.cache c1))).
    pose proof (len_nonneg (Value n)).
    rewrite u64_small by lia. lia.
  - repeat (split; [done|]). split; [by exists []; rewrite app_nil_r|].
    intros k rest Hk. exfalso.
    apply (f_equal length) in Hk. rewrite length_app in Hk. simpl in Hk. lia.
Qed.

(** X19. The LRU Put evicts no more than it has to. Take a reachable
    state whose size field is the byte total of its resident values, and a
    Put that creates an entry (the bytes of its value not overflowing the
    size field). If anything was evicted, then the size after the call
    together with the bytes of the most recently used of the entries
    evicted exceeds the capacity: the loop was not run once more than
    needed to bring size within the capacity. *)
Theorem lru_put_evicts_no_more_than_needed capacity fuel c key value c' :
  LRU.reachable capacity c →
  LRU.size c = LRU.resident_bytes c →
  LRU.size c + len value < 2 ^ 64 →
  LRU.Put fuel c key value = Done (true, c') →
  ∀ k rest,
    key :: lru_keys c = lru_keys c' ++ k :: rest →
    capacity <
    LRU.size c' + len (default ""%string (<[key := value]> (lru_contents c) !! k)).
Proof.
  intros Hr Hsz Hno HP k rest Hk.
  pose proof (lru_reachable_capacity _ _ Hr) as Hcap.
  apply lru_reachable_linked in Hr.
  pose proof (total_nonneg (LRU.heap c) (LRU.cache c)) as Hnn.
  pose proof (len_nonneg value) as Hvn.
  unfold LRU.resident_bytes in Hsz.
  destruct (LRU.cache c !! key) as [p|] eqn:Hkey.
  { unfold LRU.Put in HP. rewrite Hkey in HP.
    destruct (RemoveNode p (LRU.linklist c)) as [l| |]; simpl in HP; try done.
    by destruct (deref (LRU.heap c) p). }
  set (lenOf := λ k, if decide (k = key) then len value
                     else match LRU.cache c !! k with
                          | Some p => weigh (LRU.heap c) p
                          | None => 0
                          end).
  assert (Hlen : lru_lengths lenOf c).
  { intros k' p n Hp Hn. unfold lenOf. rewrite decide_False by congruence.
    by rewrite Hp, (weigh_Some _ _ _ Hn). }
  destruct (lru_inserted_counted lenOf c key value) as [Hcnt _]; try done.
  { split; [|done]. split; [done|lia]. }
  { unfold lenOf. by rewrite decide_True. }
  { lia. }
  rewrite lru_Put_new in HP by done.
  destruct (LRU.evict _ _) as [c1| |] eqn:Hev; simpl in HP; try done.
  injection HP as <-.
  rewrite <- Hcap, <- (lru_inserted_contents c key value Hr).
  apply (lru_evict_minimal _ _ _ (lru_inserted_linked c key value Hr Hkey) Hcnt Hev
           k rest).
  by rewrite lru_inserted_keys.
Qed.

Lemma lru_put_evicts_no_more_than_needed_witness :
  "c"%string :: lru_keys lru_ab = lru_keys lru_abc ++ ["a"%string] ∧
  5 < LRU.size lru_abc +
      len (default ""%string
             (<["c"%string := "xx"%string]> (lru_contents lru_ab) !! "a"%string)).
Proof.
  split; [vm_compute; reflexivity|].
  apply (lru_put_evicts_no_more_than_needed 5 1 lru_ab "c" "xx" lru_abc
           lru_ab_reachable) with (rest := []).
  - vm_compute. reflexivity.
  - vm_compute. reflexivity.
  - vm_compute. reflexivity.
  - vm_compute. reflexivity.
Defined.

(** ** X20: the size field after any call *)

(** X20. After every completed call, of any kind, the size field is within
    the capacity, and the capacity is the one the engine was built with
    (0 or more, a byte size being unsigned): in every state that Gets and
    Puts lead an LRU engine to, and in every state that Gets, Puts and
    Deletes lead an LFU engine to. *)
Theorem size_within_capacity_after_any_call capacity :
  0 ≤ capacity →
  (∀ c, LRU.reachable capacity c →
        0 ≤ LRU.size c ≤ capacity ∧ LRU.capacity c = capacity) ∧
  (∀ c, LFU.reachable capacity c →
        0 ≤ LFU.size c ≤ capacity ∧ LFU.capacity c = capacity).
Proof.
  intros Hcap. split.
  - intros c Hr.
    induction Hr as [|c key value ok c' Hr IH HG|fuel c key value created c' Hr IH HP].
    + simpl. lia.
    + destruct (lru_Get_linked c key (lru_reachable_linked _ _ Hr))
        as (c1 & HG' & _ & Hsz & Hc & _).
      rewrite HG' in HG. injection HG as _ _ <-. rewrite Hsz, Hc. exact IH.
    + destruct IH as [IH1 IH2].
      destruct (lru_Put_size_range _ _ _ _ _ _ ltac:(rewrite IH2; exact IH1) HP)
        as [Hsz Hc].
      rewrite Hc, IH2 in *. done.
  - intros c Hr.
    induction Hr as [|fuel c op c' Hr IH Hex].
    + simpl. lia.
    + pose proof (lfu_reachable_linked _ _ Hr) as Hlk.
      destruct IH as [IH1 IH2].
      destruct op as [key|key value|key]; simpl in Hex.
      * destruct (lfu_Get_linked c key Hlk) as (c1 & HG & _ & Hsz & Hc).
        rewrite HG in Hex. simpl in Hex. injection Hex as <-.
        by rewrite Hsz, Hc.
      * destruct (LFU.Put fuel c key value) as [[b c1]| |] eqn:HP; simpl in Hex;
          try done.
        injection Hex as <-.
        destruct (lfu_Put_size_range _ _ _ _ _ _ ltac:(rewrite IH2; exact IH1) HP)
          as [Hsz Hc].
        rewrite Hc, IH2 in *. done.
      * destruct (lfu_Delete_linked c key Hlk) as (c1 & HD & _ & Hsz & Hc & _).
        rewrite HD in Hex. simpl in Hex. injection Hex as <-.
        by rewrite Hsz, Hc.
Qed.

Lemma size_within_capacity_after_any_call_witness :
  (0 ≤ LRU.size lru_abc ≤ 5 ∧ LRU.capacity lru_abc = 5) ∧
  (0 ≤ LFU.size lfu_stale ≤ 3 ∧ LFU.capacity lfu_stale = 3).
Proof.
  destruct (size_within_capacity_after_any_call 5) as [Hlru _]; [lia|].
  destruct (size_within_capacity_after_any_call 3) as [_ Hlfu]; [lia|].
  split.
  - apply Hlru, lru_abc_reachable.
  - apply Hlfu.
    apply (lfu_run_reachable 3 1 lfu_stale_calls (LFU.NewCache 3));
      [apply LFU.reach_New|]. vm_compute. reflexivity.
Defined.
